(** * albabOT: knowledge-base construction and retrieval engine

    A shallow embedding of [server.js] (normalizer, chunker, corpus
    signature, cosine similarity, knowledge-base builder, retriever) and of
    the QA merge tool [tools/merge_qa_into_kb.js], with the properties of
    the specification stated and settled against it.

    Conventions of the embedding:
    - a JavaScript string is the list of its UTF-16 code units, so [length]
      is [String.prototype.length] and [firstn]/[skipn] are [slice];
    - a [Map] is a [gmap], a [Set] a [gset];
    - vectors of embeddings hold IEEE-754 binary64 numbers ([spec_float]
      at precision 53, exponent bound 1024), rounded to nearest even;
    - integer-valued sizes and counts are exact integers;
    - code that can throw returns a sum or an option; the file system is an
      explicit state. *)

From Stdlib Require Import ZArith NArith QArith Qround List Bool Lia String Ascii.
From Stdlib Require Import Floats.SpecFloat Decimal DecimalPos DecimalN.
From stdpp Require Import base gmap sets list sorting.
Import ListNotations.

Local Open Scope nat_scope.

(** ** JavaScript strings *)

Abbreviation jsstring := (list N).

(** ASCII literals, written as Rocq strings. *)
Definition str (s : string) : jsstring :=
  map N_of_ascii (list_ascii_of_string s).

Definition is_lf (c : N) : bool := N.eqb c 10.
Definition is_cr (c : N) : bool := N.eqb c 13.

(** The character class [[ \t]]. *)
Definition is_blank (c : N) : bool := N.eqb c 32 || N.eqb c 9.

(** LineTerminator: LF, CR, LS, PS. *)
Definition is_line_terminator (c : N) : bool :=
  N.eqb c 10 || N.eqb c 13 || N.eqb c 8232 || N.eqb c 8233.

(** WhiteSpace and LineTerminator code units: what [trim] removes and what
    [\s] matches. *)
Definition is_ws (c : N) : bool :=
  (N.leb 9 c && N.leb c 13) || N.eqb c 32 || N.eqb c 160 || N.eqb c 5760
  || (N.leb 8192 c && N.leb c 8202) || N.eqb c 8232 || N.eqb c 8233
  || N.eqb c 8239 || N.eqb c 8287 || N.eqb c 12288 || N.eqb c 65279.

Fixpoint drop_while (f : N -> bool) (s : jsstring) : jsstring :=
  match s with
  | [] => []
  | c :: r => if f c then drop_while f r else s
  end.

Fixpoint take_while (f : N -> bool) (s : jsstring) : jsstring :=
  match s with
  | [] => []
  | c :: r => if f c then c :: take_while f r else []
  end.

Definition trim_start (s : jsstring) : jsstring := drop_while is_ws s.

Fixpoint trim_end (s : jsstring) : jsstring :=
  match s with
  | [] => []
  | c :: r =>
      match trim_end r with
      | [] => if is_ws c then [] else [c]
      | r' => c :: r'
      end
  end.

(** [String.prototype.trim]. *)
Definition trim (s : jsstring) : jsstring := trim_end (trim_start s).

(** ** Text normalizer ([normalizeWhitespace], server.js) *)

(** [.replace(/\r\n/g, "\n")] *)
Fixpoint replace_crlf (s : jsstring) : jsstring :=
  match s with
  | [] => []
  | c :: r =>
      match r with
      | d :: r' => if is_cr c && is_lf d then 10%N :: replace_crlf r'
                   else c :: replace_crlf r
      | [] => [c]
      end
  end.

(** [s] starts with a match of [[ \t]*\n]. *)
Fixpoint blanks_then_lf (s : jsstring) : bool :=
  match s with
  | [] => false
  | c :: r => if is_lf c then true
              else if is_blank c then blanks_then_lf r else false
  end.

(** [.replace(/[ \t]+\n/g, "\n")]: a blank is part of a match exactly when
    only blanks separate it from the next line feed; the match is replaced
    by that line feed. *)
Fixpoint strip_blanks_before_lf (s : jsstring) : jsstring :=
  match s with
  | [] => []
  | c :: r => if is_blank c && blanks_then_lf r then strip_blanks_before_lf r
              else c :: strip_blanks_before_lf r
  end.

Definition starts_2lf (s : jsstring) : bool :=
  match s with
  | a :: b :: _ => is_lf a && is_lf b
  | _ => false
  end.

(** [.replace(/\n{3,}/g, "\n\n")]: of a maximal run of three or more line
    feeds the last two remain. *)
Fixpoint collapse_newlines (s : jsstring) : jsstring :=
  match s with
  | [] => []
  | c :: r => if is_lf c && starts_2lf r then collapse_newlines r
              else c :: collapse_newlines r
  end.

Definition starts_blank (s : jsstring) : bool :=
  match s with
  | c :: _ => is_blank c
  | [] => false
  end.

(** [.replace(/[ \t]{2,}/g, " ")]: [in_run] holds while scanning a run
    whose replacement space has already been emitted. *)
Fixpoint collapse_blanks (in_run : bool) (s : jsstring) : jsstring :=
  match s with
  | [] => []
  | c :: r =>
      if is_blank c then
        if in_run then collapse_blanks true r
        else if starts_blank r then 32%N :: collapse_blanks true r
        else c :: collapse_blanks false r
      else c :: collapse_blanks false r
  end.

(** [(s || "")]: [None] stands for [undefined] and [null]. *)
Definition or_empty (v : option jsstring) : jsstring :=
  match v with Some s => s | None => [] end.

Definition normalizeWhitespace (v : option jsstring) : jsstring :=
  trim (collapse_blanks false
          (collapse_newlines
             (strip_blanks_before_lf
                (replace_crlf (or_empty v))))).

(** A carriage return immediately followed by a line feed occurs in [s]. *)
Fixpoint has_crlf (s : jsstring) : bool :=
  match s with
  | [] => false
  | c :: r => match r with
              | d :: _ => (is_cr c && is_lf d) || has_crlf r
              | [] => false
              end
  end.

(** Every carriage return of [s] is immediately followed by a line feed. *)
Fixpoint cr_paired (s : jsstring) : bool :=
  match s with
  | [] => true
  | c :: r => if is_cr c then
                match r with
                | d :: r' => is_lf d && cr_paired r'
                | [] => false
                end
              else cr_paired r
  end.

(** ** Chunker ([chunkByParagraphs], server.js) *)

Definition is_empty (s : jsstring) : bool :=
  match s with [] => true | _ => false end.

(** [s] is the text that follows a line feed; [sep_len s = Some n] when
    [/\n\s*\n/] matches there, the greedy [\s*] and the closing line feed
    taking the next [n] code units (up to the last line feed of the
    white-space run). *)
Fixpoint sep_len (s : jsstring) : option nat :=
  match s with
  | [] => None
  | c :: r =>
      if is_ws c then
        match sep_len r with
        | Some n => Some (S n)
        | None => if is_lf c then Some 1 else None
        end
      else None
  end.

(** [.split(/\n\s*\n/)]: [cur] is the piece being read, [skip] the number
    of code units of the current separator still to pass. *)
Fixpoint split_paragraphs (skip : nat) (cur s : jsstring) : list jsstring :=
  match s with
  | [] => [cur]
  | c :: r =>
      match skip with
      | S k => split_paragraphs k cur r
      | O =>
          if is_lf c then
            match sep_len r with
            | Some n => cur :: split_paragraphs n [] r
            | None => split_paragraphs 0 (cur ++ [c]) r
            end
          else split_paragraphs 0 (cur ++ [c]) r
      end
  end.

(** [normalizeWhitespace(text).split(/\n\s*\n/).map(s => s.trim()).filter(Boolean)] *)
Definition paragraphs (text : jsstring) : list jsstring :=
  List.filter (fun p => negb (is_empty p))
    (map trim (split_paragraphs 0 [] (normalizeWhitespace (Some text)))).

(** The closure [push]: the trimmed text is appended unless it is empty. *)
Definition push (chunks : list jsstring) (t : jsstring) : list jsstring :=
  let v := trim t in
  if is_empty v then chunks else chunks ++ [v].

(** [p.length > chunkSizeChars * 1.8].  Both sides are integers below 2^53
    scaled by the double nearest to 1.8, and the comparison agrees with the
    exact one, [5 * p.length > 9 * chunkSizeChars] (checked against the
    binary64 product in [oversized_binary64] below). *)
Definition oversized (p : jsstring) (chunkSizeChars : nat) : bool :=
  9 * chunkSizeChars <? 5 * length p.

(** The slices [p.slice(i, i + size)] for [i = 0, size, 2*size, ... < p.length];
    [fuel] bounds the number of slices. *)
Fixpoint hard_slices (fuel size : nat) (p : jsstring) : list jsstring :=
  match fuel with
  | O => []
  | S f =>
      match p with
      | [] => []
      | _ :: _ => firstn size p :: hard_slices f size (skipn size p)
      end
  end.

(** The body of [for (const p of parts)], with the final [push(cur)].
    [None] is divergence: with [chunkSizeChars = 0] the inner [for] never
    advances [i]. *)
Fixpoint chunk_loop (chunkSizeChars overlapChars : nat) (parts chunks : list jsstring)
    (cur : jsstring) : option (list jsstring) :=
  match parts with
  | [] => Some (push chunks cur)
  | p :: rest =>
      if oversized p chunkSizeChars then
        let flush := negb (is_empty (trim cur)) in
        let chunks1 := if flush then push chunks cur else chunks in
        let cur1 := if flush then [] else cur in
        if Nat.eqb chunkSizeChars 0 then None
        else chunk_loop chunkSizeChars overlapChars rest
               (fold_left push (hard_slices (length p) chunkSizeChars p) chunks1) cur1
      else if length cur + length p + 2 <=? chunkSizeChars then
        chunk_loop chunkSizeChars overlapChars rest chunks
          (cur ++ (if is_empty cur then [] else [10; 10]%N) ++ p)
      else
        let tail := skipn (length cur - overlapChars) cur in
        chunk_loop chunkSizeChars overlapChars rest (push chunks cur)
          ((if is_empty tail then [] else tail ++ [10; 10]%N) ++ p)
  end.

Definition chunkByParagraphs (text : jsstring) (chunkSizeChars overlapChars : nat)
  : option (list jsstring) :=
  chunk_loop chunkSizeChars overlapChars (paragraphs text) [] [].

(** ** The host: built-ins and services the program calls

    [number] is the type of the numbers the host hands over (file sizes,
    timestamps, numbers in JSON documents); [numToString] is
    [Number::toString], which template literals and [String()] apply. *)
Class Host := {
  number : Type;
  numToString : number -> jsstring;
  (** a number is truthy unless it is zero or NaN *)
  num_truthy : number -> bool;
  (** [String.prototype.toLowerCase] *)
  toLowerCase : jsstring -> jsstring;
  (** [String.prototype.normalize("NFD")] *)
  normalizeNFD : jsstring -> jsstring;
  (** [path.basename] *)
  basename : jsstring -> jsstring;
}.

(** ** Sorting and joining *)

(** [Array.prototype.sort] is stable: for a consistent comparator the
    result is the one sorted arrangement that keeps equal elements in
    their order, and [js_sort] computes it.  [gt x y] says that the
    comparator puts [x] after [y]; [x], which stood before every element of
    [l], moves past the elements it has to follow.  The default comparator
    of [docSignature], the order of strings by code units, is consistent.
    For a comparator that is not consistent the order is the engine's (see
    [Engine] below), and [js_sort] does not describe it. *)
Fixpoint insert_sorted {A} (gt : A -> A -> bool) (x : A) (l : list A) : list A :=
  match l with
  | [] => [x]
  | y :: r => if gt x y then y :: insert_sorted gt x r else x :: l
  end.

Definition js_sort {A} (gt : A -> A -> bool) (l : list A) : list A :=
  foldr (insert_sorted gt) [] l.

(** The default comparator: strings by their code units. *)
Fixpoint str_ltb (a b : jsstring) : bool :=
  match a, b with
  | [], [] => false
  | [], _ :: _ => true
  | _ :: _, [] => false
  | x :: a', y :: b' =>
      if N.ltb x y then true
      else if N.ltb y x then false
      else str_ltb a' b'
  end.

Definition str_gtb (a b : jsstring) : bool := str_ltb b a.

(** [Array.prototype.join] *)
Fixpoint join (sep : jsstring) (l : list jsstring) : jsstring :=
  match l with
  | [] => []
  | x :: r =>
      match r with
      | [] => x
      | _ :: _ => x ++ sep ++ join sep r
      end
  end.

(** ** Corpus signature ([docSignature], server.js) *)

Record DocFile `{Host} := {
  name : jsstring;
  full : jsstring;
  size : number;
  mtimeMs : number;
  ext : jsstring;
}.

Definition PIPE : jsstring := [124%N].
Definition COLONS : jsstring := [58%N; 58%N].

(** [`${f.name}|${f.size}|${f.mtimeMs}`] *)
Definition sig_token `{Host} (f : DocFile) : jsstring :=
  name f ++ PIPE ++ numToString (size f) ++ PIPE ++ numToString (mtimeMs f).

Definition docSignature `{Host} (files : list DocFile) : jsstring :=
  join COLONS (js_sort str_gtb (map sig_token files)).

(** ** Numbers *)

(** IEEE-754 binary64, round to nearest even. *)
Abbreviation float := spec_float.
Definition fadd : float -> float -> float := SFadd 53 1024.
Definition fsub : float -> float -> float := SFsub 53 1024.
Definition fmul : float -> float -> float := SFmul 53 1024.
Definition fdiv : float -> float -> float := SFdiv 53 1024.
Definition fsqrt : float -> float := SFsqrt 53 1024.
Definition fzero : float := S754_zero false.
Definition fNaN : float := S754_nan.
Definition float_of_Z (n : Z) : float := binary_normalize 53 1024 n 0 false.

(** [x === 0] and [x > 0] *)
Definition is_zero (x : float) : bool := SFeqb x fzero.
Definition is_positive (x : float) : bool := SFltb fzero x.
Definition is_negative (x : float) : bool := SFltb x fzero.
Definition is_nan (x : float) : bool := match x with S754_nan => true | _ => false end.

(** [Math.floor] of a finite number, as an integer. *)
Definition float_floor (x : float) : option Z :=
  match x with
  | S754_zero _ => Some 0%Z
  | S754_finite s m e =>
      let v := if s then Zneg m else Zpos m in
      Some (if (0 <=? e)%Z then (v * 2 ^ e)%Z else Z.shiftr v (- e))
  | _ => None
  end.

(** [Math.ceil] of a finite number, as an integer. *)
Definition float_ceil (x : float) : option Z :=
  match x with
  | S754_zero _ => Some 0%Z
  | S754_finite s m e =>
      let v := if s then Zneg m else Zpos m in
      Some (if (0 <=? e)%Z then (v * 2 ^ e)%Z else (- Z.shiftr (- v) (- e))%Z)
  | _ => None
  end.

(** The doubles nearest to 1.8 and to 0.12. *)
Definition d1_8 : float := S754_finite false 8106479329266893 (-52).
Definition d0_12 : float := S754_finite false 8646911284551352 (-56).

(** ** Cosine similarity ([cosineSimilarity], server.js) *)

(** The loop over [i < a.length]; [b[i]] past the end of [b] is
    [undefined], which arithmetic turns into NaN. *)
Fixpoint cosine_sums (a b : list float) (dot na nb : float) : float * float * float :=
  match a with
  | [] => (dot, na, nb)
  | x :: a' =>
      let y := match b with y :: _ => y | [] => fNaN end in
      cosine_sums a' (tl b) (fadd dot (fmul x y)) (fadd na (fmul x x)) (fadd nb (fmul y y))
  end.

Definition cosineSimilarity (a b : list float) : float :=
  let '(dot, na, nb) := cosine_sums a b fzero fzero fzero in
  if is_zero na || is_zero nb then fzero
  else fdiv dot (fmul (fsqrt na) (fsqrt nb)).

(** ** Configuration ([clampInt] and the constants of server.js) *)

(** The value of [Number(val)].  A finite double is a rational; the
    integer arithmetic of the builder is exact on rationals. *)
Inductive jsnum :=
  | JNaN
  | JInf (negative : bool)
  | JFin (q : Q).

(** [Math.trunc] *)
Definition Qtrunc (q : Q) : Z := Z.quot (Qnum q) (Zpos (Qden q)).

Definition clampInt (val : jsnum) (def min max : Z) : Z :=
  match val with
  | JFin q => Z.max min (Z.min max (Qtrunc q))
  | _ => def
  end.

(** [a / b] on integers. *)
Definition js_div (a b : Z) : jsnum :=
  if (b =? 0)%Z then (if (a =? 0)%Z then JNaN else JInf (a <? 0)%Z)
  else JFin (Qdiv (inject_Z a) (inject_Z b)).

Definition Math_ceil (x : jsnum) : jsnum :=
  match x with JFin q => JFin (inject_Z (Qceiling q)) | _ => x end.

Definition Math_floor (x : jsnum) : jsnum :=
  match x with JFin q => JFin (inject_Z (Qfloor q)) | _ => x end.

(** [Number(process.env.X)] for the three tunables; an unset variable
    gives NaN. *)
Class Env := {
  env_TARGET_CHUNKS : jsnum;
  env_TOP_K : jsnum;
  env_PER_DOC_CAP : jsnum;
  (** [process.env.EMBED_MODEL || "text-embedding-3-large"], and the like *)
  EMBED_MODEL : jsstring;
  CHAT_MODEL : jsstring;
  (** the embedding provider behind [embedBatch]; [None] when the call
      throws *)
  embedBatch : list jsstring -> option (list (list float));
}.

Definition TARGET_CHUNKS `{Env} : Z := clampInt env_TARGET_CHUNKS 150 30 800.
Definition TOP_K `{Env} : Z := clampInt env_TOP_K 10 3 20.
Definition PER_DOC_CAP `{Env} : Z := clampInt env_PER_DOC_CAP 3 1 10.

(** [chunkSizeChars] and [overlapChars] as [buildKB] computes them from the
    total length of the retained documents. *)
Definition chunk_size `{Env} (totalChars : Z) : Z :=
  clampInt (Math_ceil (js_div totalChars TARGET_CHUNKS)) 1400 800 3200.

Definition overlap_of (chunkSizeChars : Z) : Z :=
  clampInt (Math_floor (JFin (inject_Z chunkSizeChars * (12 # 100)))) 180 80 450.

(** ** Knowledge base *)

Record Chunk := {
  c_id : jsstring;
  c_doc : jsstring;
  c_chunkIndex : nat;
  c_text : jsstring;
  (** [embeddings[i]]; [None] when the provider returned too few vectors *)
  c_embedding : option (list float);
}.

Record Meta := {
  createdAt : jsstring;
  embedModel : jsstring;
  chatModel : jsstring;
  targetChunks : Z;
  chunkSizeChars : Z;
  overlapChars : Z;
  docCount : nat;
  chunkCount : nat;
  docsSignature : jsstring;
}.

Record KB := { meta : Meta; chunks : list Chunk }.

(** ** File system seen by the builder *)

(** An entry of [docs/]: what [readdir], [stat] and [readDocText] report.
    [e_text = None] when reading or parsing the file throws. *)
Record DirEntry `{Host} := {
  e_name : jsstring;
  e_isFile : bool;
  e_size : number;
  e_mtimeMs : number;
  e_text : option jsstring;
}.

(** Content of a file of the working directory: an index written by
    [JSON.stringify(kb)], or anything else. *)
Inductive FileData :=
  | KbJson (kb : KB)
  | Bytes (raw : jsstring).

Record FS `{Host} := {
  (** [None]: the directory does not exist yet *)
  docs_dir : option (list DirEntry);
  files : gmap jsstring FileData;
}.

Definition KB_PATH : jsstring := str "kb_udl.json".
Definition DOCS_DIR : jsstring := str "docs".

(** Decimal digits of a natural number. *)
Fixpoint uint_codes (d : Decimal.uint) : jsstring :=
  match d with
  | Nil => []
  | D0 d => 48%N :: uint_codes d
  | D1 d => 49%N :: uint_codes d
  | D2 d => 50%N :: uint_codes d
  | D3 d => 51%N :: uint_codes d
  | D4 d => 52%N :: uint_codes d
  | D5 d => 53%N :: uint_codes d
  | D6 d => 54%N :: uint_codes d
  | D7 d => 55%N :: uint_codes d
  | D8 d => 56%N :: uint_codes d
  | D9 d => 57%N :: uint_codes d
  end.

Definition dec (n : N) : jsstring := uint_codes (N.to_uint n).

Definition str_eqb (a b : jsstring) : bool := bool_decide (a = b).

Definition starts_with (pre s : jsstring) : bool :=
  str_eqb (firstn (length pre) s) pre.

(** The suffix of [s] that begins at its last full stop. *)
Fixpoint last_dot_suffix (s : jsstring) : option jsstring :=
  match s with
  | [] => None
  | c :: r =>
      match last_dot_suffix r with
      | Some e => Some e
      | None => if N.eqb c 46 then Some s else None
      end
  end.

(** [path.extname] of a file name without directory part (and other than
    [".."]): a leading full stop does not start an extension. *)
Definition extname (nm : jsstring) : jsstring :=
  match last_dot_suffix nm with
  | Some e => if Nat.eqb (length e) (length nm) then [] else e
  | None => []
  end.

(** [fsp.mkdir(DOCS_DIR, { recursive: true })] *)
Definition mkdir_docs `{Host} (fs : FS) : FS :=
  {| docs_dir := Some (default [] (docs_dir fs)); files := files fs |}.

Definition supported_ext (e : jsstring) : bool :=
  str_eqb e (str ".pdf") || str_eqb e (str ".txt") || str_eqb e (str ".md").

(** [listDocs], on the directory as [mkdir_docs] leaves it. *)
Definition listDocs `{Host} (fs : FS) : list DocFile :=
  flat_map
    (fun e =>
       if starts_with [46%N] (e_name e) then []
       else if negb (e_isFile e) then []
       else
         let x := toLowerCase (extname (e_name e)) in
         if negb (supported_ext x) then []
         else [ {| name := e_name e;
                   full := DOCS_DIR ++ [47%N] ++ e_name e;
                   size := e_size e;
                   mtimeMs := e_mtimeMs e;
                   ext := x |} ])
    (default [] (docs_dir fs)).

(** [readDocText]: for a PDF the text [pdfParse] extracts, else the
    content of the file. *)
Definition readDocText `{Host} (fs : FS) (f : DocFile) : option jsstring :=
  match List.find (fun e => str_eqb (e_name e) (name f)) (default [] (docs_dir fs)) with
  | Some e => e_text e
  | None => None
  end.

Definition is_empty_list {A} (l : list A) : bool :=
  match l with [] => true | _ => false end.

(** ** Knowledge-base builder ([buildKB], server.js) *)

Inductive BuildError :=
  | EmptyCorpus        (* "No hay documentos en /docs (PDF/TXT/MD)." *)
  | ExtractionFailed   (* readDocText threw *)
  | EmbeddingFailed    (* embedBatch threw *)
  | Diverged.          (* the chunker does not return *)

Record Doc := { d_name : jsstring; d_text : jsstring }.

(** The first loop: extraction, normalization and the length filter. *)
Fixpoint read_docs `{Host} (fs : FS) (fl : list DocFile) : option (list Doc) :=
  match fl with
  | [] => Some []
  | f :: rest =>
      match readDocText fs f with
      | None => None
      | Some raw =>
          let cleaned := normalizeWhitespace (Some raw) in
          match read_docs fs rest with
          | None => None
          | Some ds =>
              if length cleaned <? 80 then Some ds
              else Some ({| d_name := f.(name); d_text := cleaned |} :: ds)
          end
      end
  end.

(** [ch.forEach((t, i) => chunks.push({ id, doc, chunkIndex, text }))] *)
Fixpoint number_chunks (nm : jsstring) (i : nat) (ch : list jsstring) : list Chunk :=
  match ch with
  | [] => []
  | t :: r =>
      {| c_id := nm ++ COLONS ++ dec (N.of_nat i);
         c_doc := nm;
         c_chunkIndex := i;
         c_text := t;
         c_embedding := None |} :: number_chunks nm (S i) r
  end.

(** The second loop: one call of the chunker for each retained document. *)
Fixpoint chunk_docs (size overlap : nat) (docs : list Doc) : option (list Chunk) :=
  match docs with
  | [] => Some []
  | d :: rest =>
      match chunkByParagraphs (d_text d) size overlap with
      | None => None
      | Some ch =>
          match chunk_docs size overlap rest with
          | None => None
          | Some cs => Some (number_chunks (d_name d) 0 ch ++ cs)
          end
      end
  end.

(** The arguments of the chunker calls of the second loop. *)
Definition chunker_calls (size overlap : nat) (docs : list Doc) : list (jsstring * nat * nat) :=
  map (fun d => (d_text d, size, overlap)) docs.

(** The third loop: batches of 64 texts. *)
Fixpoint embed_all `{Env} (fuel : nat) (texts : list jsstring) : option (list (list float)) :=
  match fuel with
  | O => Some []
  | S f =>
      match texts with
      | [] => Some []
      | _ :: _ =>
          match embedBatch (firstn 64 texts) with
          | None => None
          | Some embs =>
              match embed_all f (skipn 64 texts) with
              | None => None
              | Some r => Some (embs ++ r)
              end
          end
      end
  end.

(** [chunks.map((c, i) => ({ ...c, embedding: embeddings[i] }))] *)
Fixpoint attach_embeddings (cs : list Chunk) (i : nat) (embs : list (list float)) : list Chunk :=
  match cs with
  | [] => []
  | c :: r =>
      {| c_id := c_id c; c_doc := c_doc c; c_chunkIndex := c_chunkIndex c;
         c_text := c_text c; c_embedding := nth_error embs i |}
      :: attach_embeddings r (S i) embs
  end.

(** [`kb_udl_backup_${stamp}.json`] with [stamp = iso.replace(/[:.]/g, "-")] *)
Definition backup_path (iso : jsstring) : jsstring :=
  str "kb_udl_backup_"
  ++ map (fun c => if N.eqb c 58 || N.eqb c 46 then 45%N else c) iso
  ++ str ".json".

(** [docs.reduce((acc, d) => acc + d.text.length, 0)] *)
Definition total_chars (docs : list Doc) : nat :=
  fold_left (fun acc d => acc + length (d_text d)) docs 0.

(** [buildKB].  [t_created] and [t_backup] are the two readings of the
    clock, as ISO strings.  The result is the file system the call leaves
    and either the error thrown or the metadata returned. *)
Definition buildKB `{Host} `{Env} (t_created t_backup : jsstring) (fs : FS)
  : FS * (BuildError + Meta) :=
  let fs1 := mkdir_docs fs in
  let fl := listDocs fs1 in
  if is_empty_list fl then (fs1, inl EmptyCorpus)
  else
    match read_docs fs1 fl with
    | None => (fs1, inl ExtractionFailed)
    | Some docs =>
        let totalChars := total_chars docs in
        let size := chunk_size (Z.of_nat totalChars) in
        let overlap := overlap_of size in
        match chunk_docs (Z.to_nat size) (Z.to_nat overlap) docs with
        | None => (fs1, inl Diverged)
        | Some cs =>
            match embed_all (length cs) (map c_text cs) with
            | None => (fs1, inl EmbeddingFailed)
            | Some embeddings =>
                let indexed := attach_embeddings cs 0 embeddings in
                let m := {| createdAt := t_created;
                            embedModel := EMBED_MODEL;
                            chatModel := CHAT_MODEL;
                            targetChunks := TARGET_CHUNKS;
                            chunkSizeChars := size;
                            overlapChars := overlap;
                            docCount := length docs;
                            chunkCount := length indexed;
                            docsSignature := docSignature (listDocs fs1) |} in
                let kb := {| meta := m; chunks := indexed |} in
                let saved :=
                  match files fs1 !! KB_PATH with
                  | Some old => <[backup_path t_backup := old]> (files fs1)
                  | None => files fs1
                  end in
                ({| docs_dir := docs_dir fs1;
                    files := <[KB_PATH := KbJson kb]> saved |}, inr m)
            end
        end
    end.

(** ** Retriever ([retrieve], server.js) *)

Record Scored := {
  s_doc : jsstring;
  s_chunkIndex : nat;
  s_text : jsstring;
  s_score : float;
}.

(** The callback of [kb.chunks.map].  [cosineSimilarity] reads [a.length]
    first, and [b[i]] once for each component of [a]: an undefined query
    vector throws, an undefined chunk vector throws unless the query vector
    is empty. *)
Definition score_chunk (qEmb : option (list float)) (c : Chunk) : option Scored :=
  match qEmb with
  | None => None
  | Some a =>
      let mk sc := {| s_doc := c_doc c; s_chunkIndex := c_chunkIndex c;
                      s_text := c_text c; s_score := sc |} in
      match c_embedding c with
      | Some b => Some (mk (cosineSimilarity a b))
      | None => if is_empty_list a then Some (mk fzero) else None
      end
  end.

Fixpoint score_all (qEmb : option (list float)) (cs : list Chunk) : option (list Scored) :=
  match cs with
  | [] => Some []
  | c :: r =>
      match score_chunk qEmb c with
      | None => None
      | Some s =>
          match score_all qEmb r with
          | None => None
          | Some ss => Some (s :: ss)
          end
      end
  end.

(** The comparator [(a, b) => b.score - a.score]. *)
Definition score_compare (a b : Scored) : float := fsub (s_score b) (s_score a).

(** The comparator is positive: [a] goes after [b]. *)
Definition score_after (a b : Scored) : bool := is_positive (score_compare a b).

(** [Array.prototype.sort] with a comparator function is a built-in of the
    engine that runs the program.  The language fixes its result for
    consistent comparators only; with any other comparator, such as the
    one above when a score is NaN, the order is the engine's own. *)
Class Engine := {
  array_sort : forall {A : Type}, (A -> A -> float) -> list A -> list A;
}.

(** The selection loop, with its [continue] and [break]. *)
Fixpoint pick (topK cap : Z) (scored picked : list Scored) (perDoc : gmap jsstring nat)
  : list Scored :=
  match scored with
  | [] => picked
  | s :: rest =>
      let count := default 0 (perDoc !! s_doc s) in
      if (cap <=? Z.of_nat count)%Z then pick topK cap rest picked perDoc
      else
        let picked' := picked ++ [s] in
        let perDoc' := <[s_doc s := count + 1]> perDoc in
        if (topK <=? Z.of_nat (length picked'))%Z then picked'
        else pick topK cap rest picked' perDoc'
  end.

(** The chunks of the index, scored against the query vector and sorted. *)
Definition ranked `{Engine} (qEmb : option (list float)) (kb : KB) : option (list Scored) :=
  match score_all qEmb (chunks kb) with
  | Some scored => Some (array_sort score_compare scored)
  | None => None
  end.

(** [retrieve]; [None] when the embedding call or the scoring throws. *)
Definition retrieve `{Env} `{Engine} (kb : KB) (query : jsstring) : option (list Scored) :=
  match embedBatch [query] with
  | None => None
  | Some resp =>
      match ranked (hd_error resp) kb with
      | Some l => Some (pick TOP_K PER_DOC_CAP l [] ∅)
      | None => None
      end
  end.

(** The selection as the specification words it: accept in ranked order,
    skipping a chunk whose document already has [perDocCap] accepted
    chunks, until [topK] chunks are accepted or the list is exhausted. *)
Definition count_doc (d : jsstring) (l : list Scored) : nat :=
  length (List.filter (fun s => str_eqb (s_doc s) d) l).

Fixpoint greedy_select (topK perDocCap : nat) (rankedl accepted : list Scored) : list Scored :=
  match rankedl with
  | [] => accepted
  | s :: rest =>
      if topK <=? length accepted then accepted
      else if perDocCap <=? count_doc (s_doc s) accepted
           then greedy_select topK perDocCap rest accepted
           else greedy_select topK perDocCap rest (accepted ++ [s])
  end.

(** ** JSON values *)

#[local] Unset Elimination Schemes.
Inductive json `{Host} :=
  | JNull
  | JBool (b : bool)
  | JNum (x : number)
  | JStr (s : jsstring)
  | JArr (l : list json)
  | JObj (fields : list (jsstring * json)).
#[local] Set Elimination Schemes.

Section Json.
Context `{Host}.

(** ToBoolean *)
Definition truthy (v : json) : bool :=
  match v with
  | JNull => false
  | JBool b => b
  | JNum x => num_truthy x
  | JStr s => negb (is_empty s)
  | JArr _ | JObj _ => true
  end.

(** ToString; an array joins its elements with a comma, [null] elements
    as the empty string. *)
Fixpoint toStr (v : json) : jsstring :=
  match v with
  | JNull => str "null"
  | JBool true => str "true"
  | JBool false => str "false"
  | JNum x => numToString x
  | JStr s => s
  | JArr l => join [44%N] (map (fun e => match e with JNull => [] | _ => toStr e end) l)
  | JObj _ => str "[object Object]"
  end.

(** [arr.join(sep)] *)
Definition join_values (sep : jsstring) (l : list json) : jsstring :=
  join sep (map (fun e => match e with JNull => [] | _ => toStr e end) l).

Fixpoint assoc (k : jsstring) (fields : list (jsstring * json)) : option json :=
  match fields with
  | [] => None
  | (k', v) :: r => if str_eqb k' k then Some v else assoc k r
  end.

(** [v[k]] for a value [v] other than [null], and a key that is no
    built-in property; [None] is [undefined]. *)
Definition prop (v : json) (k : jsstring) : option json :=
  match v with
  | JObj fields => assoc k fields
  | _ => None
  end.

(** [Object.prototype.hasOwnProperty.call(v, k)], same keys. *)
Definition has_own (v : json) (k : jsstring) : bool :=
  match prop v k with Some _ => true | None => false end.

(** [obj[k] = v] *)
Fixpoint obj_set (k : jsstring) (v : json) (fields : list (jsstring * json))
  : list (jsstring * json) :=
  match fields with
  | [] => [(k, v)]
  | (k', v') :: r => if str_eqb k' k then (k, v) :: r else (k', v') :: obj_set k v r
  end.

(** [x || ""] *)
Definition or_empty_str (x : option json) : json :=
  match x with
  | Some v => if truthy v then v else JStr []
  | None => JStr []
  end.

(** [a || b] on possibly undefined values *)
Definition js_or (a b : option json) : option json :=
  match a with
  | Some v => if truthy v then a else b
  | None => b
  end.

Definition as_array (x : option json) : list json :=
  match x with Some (JArr l) => l | _ => [] end.

Definition is_null (v : json) : bool :=
  match v with JNull => true | _ => false end.
End Json.

(** ** QA merger ([tools/merge_qa_into_kb.js]) *)

Section Merger.
Context `{Host}.

(** [.replace(/[\u0300-\u036f]/g, "")] *)
Definition strip_marks (s : jsstring) : jsstring :=
  List.filter (fun c => negb (N.leb 768 c && N.leb c 879)) s.

(** [norm], applied to a value or [undefined]. *)
Definition norm (x : option json) : jsstring :=
  strip_marks (normalizeNFD (toLowerCase (trim (toStr (or_empty_str x))))).

Inductive RootType := RootArray | RootObject (fields : list (jsstring * json)) | RootWrapped.

Record Container := { rootType : RootType; blocks : list json }.

Definition detectContainer (kb : json) : Container :=
  match kb with
  | JArr l => {| rootType := RootArray; blocks := l |}
  | JObj fields =>
      match assoc (str "blocks") fields with
      | Some (JArr l) => {| rootType := RootObject fields; blocks := l |}
      | _ => {| rootType := RootWrapped; blocks := [] |}
      end
  | _ => {| rootType := RootWrapped; blocks := [] |}
  end.

(** [container.setBlocks(newBlocks)] *)
Definition setBlocks (c : Container) (newBlocks : list json) : json :=
  match rootType c with
  | RootArray => JArr newBlocks
  | RootObject fields => JObj (obj_set (str "blocks") (JArr newBlocks) fields)
  | RootWrapped => JObj [(str "blocks", JArr newBlocks)]
  end.

Fixpoint pickKey (sample : json) (candidates : list jsstring) (fallback : jsstring) : jsstring :=
  match candidates with
  | [] => fallback
  | k :: r => if truthy sample && has_own sample k then k else pickKey sample r fallback
  end.

Record Schema := {
  textKey : jsstring; docKey : jsstring; pageKey : jsstring;
  idKey : jsstring; tagsKey : jsstring; typeKey : jsstring;
}.

Definition buildQaBlockSchema (existingBlocks : list json) : Schema :=
  let sample := match existingBlocks with b :: _ => b | [] => JObj [] end in
  {| textKey := pickKey sample [str "text"; str "content"; str "chunk"; str "body"] (str "text");
     docKey := pickKey sample [str "doc"; str "source"; str "fuente"; str "file"; str "document"] (str "doc");
     pageKey := pickKey sample [str "p"; str "page"; str "pages"; str "pagina"] (str "p");
     idKey := pickKey sample [str "id"; str "key"; str "uid"] (str "id");
     tagsKey := pickKey sample [str "tags"; str "etiquetas"] (str "tags");
     typeKey := pickKey sample [str "type"; str "kind"] (str "type") |}.

(** [hay.includes(needle)] *)
Fixpoint includes (needle hay : jsstring) : bool :=
  starts_with needle hay
  || match hay with
     | [] => false
     | _ :: r => includes needle r
     end.

Definition ascii_lower (c : N) : N :=
  if N.leb 65 c && N.leb c 90 then (c + 32)%N else c.

(** [.replace(/\.json$/i, "")] *)
Definition strip_json_suffix (s : jsstring) : jsstring :=
  let n := length s - 5 in
  if (5 <=? length s) && str_eqb (map ascii_lower (skipn n s)) (str ".json")
  then firstn n s else s.

Record TopicInfo := { topic : jsstring; doc : jsstring }.

Definition topicFromFilename (fp : jsstring) : TopicInfo :=
  let base := toLowerCase (basename fp) in
  if includes (str "estrategia") base
  then {| topic := str "estrategia_es"; doc := str "Estrategia ES.pdf" |}
  else if includes (str "universidades") base || includes (str "futuro") base
  then {| topic := str "debate_universidades_futuro";
          doc := str "Debate universidades del futuro.pdf" |}
  else if includes (str "autores") base
  then {| topic := str "autores_vs_objetivos"; doc := str "Autores vs Objetivos.pdf" |}
  else if includes (str "directrices") base || includes (str "paises") base
          || includes [112; 97; 8730; 8800; 115; 101; 115]%N base
  then {| topic := str "directrices_paises"; doc := str "Directrices (paises).pdf" |}
  else {| topic := strip_json_suffix base; doc := str "QA (sin doc)" |}.

(** [String(n).padStart(3, "0")] *)
Definition pad3 (n : nat) : jsstring :=
  let d := dec (N.of_nat n) in
  repeat 48%N (3 - length d) ++ d.

(** [qaToBlock]; [qa] is not [null]. *)
Definition qaToBlock (qa : json) (schema : Schema) (topicInfo : TopicInfo) (n : nat) : json :=
  let q := or_empty_str (prop qa (str "question")) in
  let variants := as_array (prop qa (str "variants")) in
  let tags := as_array (prop qa (str "tags")) in
  let text :=
    trim (str "Q: " ++ toStr q ++ [10%N]
          ++ (if is_empty_list variants then []
              else [10%N] ++ str "Variantes: " ++ join_values (str " | ") variants)
          ++ [10%N]
          ++ (if is_empty_list tags then []
              else [10%N] ++ str "Tags: " ++ join_values (str ", ") tags)
          ++ [10%N; 10%N]
          ++ str "A: " ++ toStr (or_empty_str (prop qa (str "answer")))) in
  let sec := or_empty_str (js_or (js_or (prop qa (str "source_section"))
                                        (prop qa (str "source")))
                                 (prop qa (str "section"))) in
  let b0 := obj_set (idKey schema)
              (JStr (str "qa-" ++ topic topicInfo ++ str "-" ++ pad3 n)) [] in
  let b1 := obj_set (typeKey schema) (JStr (str "qa")) b0 in
  let b2 := obj_set (docKey schema) (JStr (doc topicInfo)) b1 in
  let b3 := obj_set (pageKey schema) (JStr (if truthy sec then toStr sec else [])) b2 in
  let b4 := obj_set (textKey schema) (JStr text) b3 in
  let b5 := if is_empty (tagsKey schema) then b4
            else obj_set (tagsKey schema) (JArr tags) b4 in
  JObj (obj_set (str "_qa_meta")
          (JObj [(str "topic", JStr (topic topicInfo)); (str "question", q)]) b5).

(** The capture of [(.+)$] in [/^\s*Q:\s*(.+)$/m], for the text [s] that
    follows ["Q:"].  The greedy [\s*] takes the whole white-space run when
    a character follows it; at the end of the text it gives back up to
    the last code unit of the run that is no line terminator. *)
Definition capture_after_Q (s : jsstring) : option jsstring :=
  match drop_while is_ws s with
  | c :: r => Some (take_while (fun x => negb (is_line_terminator x)) (c :: r))
  | [] =>
      match List.filter (fun x => negb (is_line_terminator x)) (rev s) with
      | c :: _ => Some [c]
      | [] => None
      end
  end.

(** An attempt of the pattern at a position where [^] holds. *)
Definition match_Q_at (s : jsstring) : option jsstring :=
  match drop_while is_ws s with
  | q :: c :: r => if N.eqb q 81 && N.eqb c 58 then capture_after_Q r else None
  | _ => None
  end.

(** The first match, scanning the positions from the left; with the [m]
    flag [^] holds at the start and after a line terminator. *)
Fixpoint match_Q_from (line_start : bool) (s : jsstring) : option jsstring :=
  match (if line_start then match_Q_at s else None) with
  | Some m => Some m
  | None =>
      match s with
      | [] => None
      | c :: r => match_Q_from (is_line_terminator c) r
      end
  end.

(** [m[1]] of [String(t).match(/^\s*Q:\s*(.+)$/m)] *)
Definition match_Q (t : jsstring) : option jsstring := match_Q_from true t.

(** The loop that fills [existingKeys]; [None] when a block is [null]
    (reading a property of it throws). *)
Fixpoint existing_keys (schema : Schema) (bl : list json) (keys : gset jsstring)
  : option (gset jsstring) :=
  match bl with
  | [] => Some keys
  | b :: r =>
      if is_null b then None
      else
        let t := or_empty_str (prop b (textKey schema)) in
        match match_Q (toStr t) with
        | Some m1 => existing_keys schema r ({[ norm (Some (JStr m1)) ]} ∪ keys)
        | None => existing_keys schema r keys
        end
  end.

Record MergeState := {
  newBlocks : list json;
  existingKeys : gset jsstring;
  added : nat;
}.

(** The inner loop, over the records of one file. *)
Fixpoint merge_records (schema : Schema) (topicInfo : TopicInfo) (qaList : list json)
    (st : MergeState) : option MergeState :=
  match qaList with
  | [] => Some st
  | qa :: r =>
      if is_null qa then None
      else
        let qkey := norm (Some (or_empty_str (prop qa (str "question")))) in
        if is_empty qkey then merge_records schema topicInfo r st
        else if bool_decide (qkey ∈ existingKeys st) then merge_records schema topicInfo r st
        else
          let block := qaToBlock qa schema topicInfo (added st + 1) in
          merge_records schema topicInfo r
            {| newBlocks := newBlocks st ++ [block];
               existingKeys := {[ qkey ]} ∪ existingKeys st;
               added := added st + 1 |}
  end.

(** The outer loop, over the paths; a file that does not hold an array is
    passed over with a warning, a file that cannot be read throws. *)
Fixpoint merge_files (fs : gmap jsstring json) (schema : Schema) (qaPaths : list jsstring)
    (st : MergeState) : option MergeState :=
  match qaPaths with
  | [] => Some st
  | qp :: r =>
      match fs !! qp with
      | None => None
      | Some (JArr qaList) =>
          match merge_records schema (topicFromFilename qp) qaList st with
          | Some st' => merge_files fs schema r st'
          | None => None
          end
      | Some _ => merge_files fs schema r st
      end
  end.

Inductive MergeOutcome :=
  | UsageExit                       (* process.exit(1) *)
  | Threw                           (* an exception ends the process *)
  | Merged (fs' : gmap jsstring json) (st : MergeState).

Definition MODE_PREFIX : jsstring := str "--mode=".

(** [modeArg ? modeArg.split("=")[1] : "append"] *)
Definition mode_of (args : list jsstring) : jsstring :=
  match List.find (starts_with MODE_PREFIX) args with
  | Some a => take_while (fun c => negb (N.eqb c 61)) (skipn 7 a)
  | None => str "append"
  end.

(** [main].  [args] is [process.argv.slice(2)], [stamp] the result of
    [nowStamp()], [fs] the files that parse as JSON. *)
Definition main (args : list jsstring) (stamp : jsstring) (fs : gmap jsstring json)
  : MergeOutcome :=
  let mode := mode_of args in
  let cleanArgs := List.filter (fun a => negb (starts_with MODE_PREFIX a)) args in
  match cleanArgs with
  | kbPath :: ((_ :: _) as qaPaths) =>
      match fs !! kbPath with
      | None => Threw
      | Some kb =>
          let container := detectContainer kb in
          let schema := buildQaBlockSchema (blocks container) in
          match existing_keys schema (blocks container) ∅ with
          | None => Threw
          | Some keys =>
              let st0 := {| newBlocks := if str_eqb mode (str "replace") then []
                                         else blocks container;
                            existingKeys := keys;
                            added := 0 |} in
              match merge_files fs schema qaPaths st0 with
              | None => Threw
              | Some st =>
                  let backupPath := kbPath ++ str ".bak_" ++ stamp in
                  let out := setBlocks container (newBlocks st) in
                  Merged (<[kbPath := out]> (<[backupPath := kb]> fs)) st
              end
          end
      end
  | _ => UsageExit
  end.
End Merger.

(** * Auxiliary definitions for the statements and proofs *)

Definition starts_lf (s : jsstring) : bool :=
  match s with c :: _ => is_lf c | [] => false end.

(** [clean bad s]: no position of [s] is [bad], where [bad c r] looks at a
    code unit and at the text that follows it. *)
Fixpoint clean (bad : N -> jsstring -> bool) (s : jsstring) : bool :=
  match s with
  | [] => true
  | c :: r => negb (bad c r) && clean bad r
  end.

Definition bad_crlf (c : N) (r : jsstring) : bool := is_cr c && starts_lf r.
Definition bad_blank_lf (c : N) (r : jsstring) : bool := is_blank c && starts_lf r.
Definition bad_3lf (c : N) (r : jsstring) : bool := is_lf c && starts_2lf r.
Definition bad_2blank (c : N) (r : jsstring) : bool := is_blank c && starts_blank r.

Definition prefix_stable (bad : N -> jsstring -> bool) : Prop :=
  forall c p w, bad c p = true -> bad c (p ++ w) = true.

Definition starts_ws (s : jsstring) : bool :=
  match s with c :: _ => is_ws c | [] => false end.

Definition no_cr (s : jsstring) : Prop := Forall (fun c => is_cr c = false) s.

(** The bound on a chunk: [chunkSize * 1.8 + overlap + 2]. *)
Definition within_bound (chunkSize overlap : nat) (t : jsstring) : Prop :=
  5 * length t <= 9 * chunkSize + 5 * (overlap + 2).

(** A vector whose components are all zero (of either sign). *)
Definition zero_entry (x : float) : Prop :=
  match x with S754_zero _ => True | _ => False end.

Definition zero_vector (a : list float) : Prop := Forall zero_entry a.

(** A component that is a number: neither NaN nor an infinity. *)
Definition finite_entry (x : float) : Prop :=
  match x with S754_zero _ | S754_finite _ _ _ => True | _ => False end.

(** The double [m * 2^e]. *)
Definition float_of_scaled (m e : Z) : float := binary_normalize 53 1024 m e false.

(** Two vectors whose squares fall among the subnormal numbers, and one
    whose square overflows. *)
Definition tiny_u : list float :=
  [float_of_scaled 1 (-538); float_of_scaled 1 (-537); float_of_scaled 1 (-537)].
Definition tiny_v : list float :=
  [float_of_scaled 9 (-540); float_of_scaled 1 (-537); float_of_scaled 1 (-537)].
Definition huge_u : list float := [float_of_scaled 1 600].

(** The overlap as the specification words it:
    [clamp(round(0.12 * chunkSizeChars), min=80, max=450)], rounding to the
    nearest integer. *)
Definition spec_overlap (chunkSizeChars : Z) : Z :=
  Z.max 80 (Z.min 450 ((12 * chunkSizeChars + 50) / 100)).

(** A host whose string functions act on ASCII letters only, with natural
    numbers for numbers; it serves to run the program on concrete ASCII
    inputs. *)
Definition after_last_slash (s : jsstring) : jsstring :=
  fold_left (fun acc c => if N.eqb c 47 then [] else acc ++ [c]) s [].

#[export] Instance ascii_host : Host := {|
  number := N;
  numToString := dec;
  num_truthy := fun n => negb (N.eqb n 0);
  toLowerCase := map ascii_lower;
  normalizeNFD := fun s => s;
  basename := after_last_slash;
|}.

(** The environment with no variable set, and a provider that returns the
    same two-dimensional vector for every text. *)
#[export] Instance default_env : Env := {|
  env_TARGET_CHUNKS := JNaN;
  env_TOP_K := JNaN;
  env_PER_DOC_CAP := JNaN;
  EMBED_MODEL := str "text-embedding-3-large";
  CHAT_MODEL := str "gpt-4o-mini";
  embedBatch := fun texts => Some (map (fun _ => [float_of_Z 1; float_of_Z 0]) texts);
|}.

(** The ceiling of [a / b] for a positive [b]. *)
Definition ceil_div (a b : Z) : Z := (- ((- a) / b))%Z.



(** [x] may stand before [y] under the comparator: it does not send [x]
    after [y], or it sends [y] after [x] (for a consistent comparator the
    two say the same). *)
Definition in_order {A} (gt : A -> A -> bool) (x y : A) : Prop :=
  gt x y = false \/ gt y x = true.

(** *** The sort of the engine *)

Section Comparator.
Context {A : Type} (cmp : A -> A -> float).

(** What the sort reads of [cmp x y]: below 0, [x] goes before [y]; above
    0, [x] goes after [y]; otherwise (0, or NaN, which the sort takes for
    0) it keeps them as they are. *)
Definition goes_before (x y : A) : bool := is_negative (cmp x y).
Definition goes_after (x y : A) : bool := is_positive (cmp x y).
Definition ties (x y : A) : bool := negb (goes_before x y) && negb (goes_after x y).

(** The conditions of the language on a consistent comparator, at three
    elements: the comparator gives a number, every element ties with
    itself, ties are symmetric and transitive, going before is the
    converse of going after, and both are transitive. *)
Definition consistent_at (a b c : A) : bool :=
  negb (is_nan (cmp a b))
  && ties a a
  && implb (ties a b) (ties b a)
  && implb (ties a b && ties b c) (ties a c)
  && implb (goes_before a b) (goes_after b a)
  && implb (goes_after a b) (goes_before b a)
  && implb (goes_before a b && goes_before b c) (goes_before a c)
  && implb (goes_after a b && goes_after b c) (goes_after a c).

(** The comparator is consistent on the elements of [l]. *)
Definition consistent_on (l : list A) : bool :=
  forallb (fun a => forallb (fun b => forallb (consistent_at a b) l) l) l.
End Comparator.

(** [x], which stood after every element of [l], moves before the
    elements it has to precede. *)
Fixpoint insert_last {A} (before : A -> A -> bool) (x : A) (l : list A) : list A :=
  match l with
  | [] => [x]
  | y :: r => if before x y then x :: l else y :: insert_last before x r
  end.

(** Along a run, every element compares with the one before it in the
    same way: it goes before it ([isDescending]), or it does not. *)
Fixpoint chain {A} (before : A -> A -> bool) (isDescending : bool) (prev : A)
    (run : list A) : Prop :=
  match run with
  | [] => True
  | cur :: r => before cur prev = isDescending /\ chain before isDescending cur r
  end.

(** What the language asks of every engine: the sort rearranges the
    elements, and for a comparator that is consistent on them it leaves
    them sorted, equal elements in their order. *)
Class SortLaws `{Engine} := {
  sort_perm : forall (A : Type) (cmp : A -> A -> float) (l : list A),
    array_sort cmp l ≡ₚ l;
  sort_consistent : forall (A : Type) (cmp : A -> A -> float) (l : list A),
    consistent_on cmp l = true -> array_sort cmp l = js_sort (goes_after cmp) l;
}.

(** The sort of V8, the engine of Node.js, on an array of fewer than 64
    elements (its [ArrayTimSort] then makes one run of the whole array):
    [CountAndMakeRun] takes the longest run at the start that is either
    strictly descending or not descending, reversing a descending one, and
    [BinaryInsertionSort] inserts the remaining elements one by one at the
    place a binary search finds.  Every test is whether the comparator
    is below 0.  Longer arrays, which V8 cuts in runs that it merges, are
    sorted here by the same insertion. *)
Section V8.
Context {A : Type} (cmp : A -> A -> float).

(** The loop of [CountAndMakeRun]: the elements that extend the run, and
    the others. *)
Fixpoint run_extend (isDescending : bool) (previousElement : A) (rest : list A)
  : list A * list A :=
  match rest with
  | [] => ([], [])
  | currentElement :: r =>
      let below := goes_before cmp currentElement previousElement in
      if (if isDescending then negb below else below) then ([], rest)
      else let (run, others) := run_extend isDescending currentElement r in
           (currentElement :: run, others)
  end.

Definition count_and_make_run (work : list A) : list A * list A :=
  match work with
  | elementHigh :: elementLow :: r =>
      let isDescending := goes_before cmp elementLow elementHigh in
      let (run, others) := run_extend isDescending elementLow r in
      let whole := elementHigh :: elementLow :: run in
      (if isDescending then rev whole else whole, others)
  | _ => (work, [])
  end.

(** The binary search of [BinaryInsertionSort], between [left] and
    [right]. *)
Fixpoint binary_search (fuel : nat) (work : list A) (pivot : A) (left right : nat) : nat :=
  match fuel with
  | 0 => left
  | S fuel' =>
      if left <? right then
        let mid := left + (right - left) / 2 in
        match work !! mid with
        | Some x =>
            if goes_before cmp pivot x then binary_search fuel' work pivot left mid
            else binary_search fuel' work pivot (mid + 1) right
        | None => left
        end
      else left
  end.

Definition insert_pivot (sorted : list A) (pivot : A) : list A :=
  let left := binary_search (length sorted) sorted pivot 0 (length sorted) in
  take left sorted ++ pivot :: drop left sorted.

Definition binary_insertion_sort (run others : list A) : list A :=
  fold_left insert_pivot others run.

Definition v8_sort (work : list A) : list A :=
  let (run, others) := count_and_make_run work in
  binary_insertion_sort run others.
End V8.

#[export] Instance v8_engine : Engine := {| array_sort := @v8_sort |}.

(** The scenario of the specification: [topK = 4], [perDocCap = 2]; the
    provider embeds every query as (1, 0). *)
Definition scenario_env : Env := {|
  env_TARGET_CHUNKS := JNaN;
  env_TOP_K := JFin (inject_Z 4);
  env_PER_DOC_CAP := JFin (inject_Z 2);
  EMBED_MODEL := str "text-embedding-3-large";
  CHAT_MODEL := str "gpt-4o-mini";
  embedBatch := fun texts => Some (map (fun _ => [float_of_Z 1; float_of_Z 0]) texts);
|}.

Definition scenario_chunk (d : string) (i : nat) (y : Z) : Chunk :=
  {| c_id := str d ++ COLONS ++ dec (N.of_nat i); c_doc := str d; c_chunkIndex := i;
     c_text := str "text"; c_embedding := Some [float_of_Z 1; float_of_Z y] |}.

(** Document A has five chunks, all closer to (1, 0) than the two chunks
    of document B. *)
Definition scenario_kb : KB :=
  {| meta := {| createdAt := []; embedModel := []; chatModel := [];
                targetChunks := 150; chunkSizeChars := 1400; overlapChars := 168;
                docCount := 2; chunkCount := 7; docsSignature := [] |};
     chunks := [ scenario_chunk "B" 0 20; scenario_chunk "A" 0 3;
                 scenario_chunk "A" 1 1; scenario_chunk "A" 2 4;
                 scenario_chunk "B" 1 10; scenario_chunk "A" 3 0;
                 scenario_chunk "A" 4 2 ] |}.

(** An index of four documents of one chunk each, where the vector stored
    for the second one has one component only, and an environment with
    [topK = 3] whose provider embeds every query as (1, 0). *)
Definition nan_env : Env := {|
  env_TARGET_CHUNKS := JNaN;
  env_TOP_K := JFin (inject_Z 3);
  env_PER_DOC_CAP := JNaN;
  EMBED_MODEL := str "text-embedding-3-large";
  CHAT_MODEL := str "gpt-4o-mini";
  embedBatch := fun texts => Some (map (fun _ => [float_of_Z 1; float_of_Z 0]) texts);
|}.

Definition short_chunk (d : string) : Chunk :=
  {| c_id := str d ++ COLONS ++ dec 0; c_doc := str d; c_chunkIndex := 0;
     c_text := str "text"; c_embedding := Some [float_of_Z 1] |}.

Definition nan_kb : KB :=
  {| meta := {| createdAt := []; embedModel := []; chatModel := [];
                targetChunks := 150; chunkSizeChars := 1400; overlapChars := 168;
                docCount := 4; chunkCount := 4; docsSignature := [] |};
     chunks := [ scenario_chunk "a" 0 2; short_chunk "b";
                 scenario_chunk "c" 0 1; scenario_chunk "d" 0 0 ] |}.

(** The map [perDoc] counts the accepted chunks of each document. *)
Definition counts_picked (perDoc : gmap jsstring nat) (picked : list Scored) : Prop :=
  forall d, default 0 (perDoc !! d) = count_doc d picked.

(** *** The merge, record by record *)

Section MergeSpec.
Context `{Host}.

(** The normalized question of a record. *)
Definition qkey (qa : json) : jsstring :=
  norm (Some (or_empty_str (prop qa (str "question")))).

(** The records of the files, in reading order, each with the topic of its
    file; [None] when a file cannot be read. *)
Fixpoint all_records (fs : gmap jsstring json) (qaPaths : list jsstring)
  : option (list (TopicInfo * json)) :=
  match qaPaths with
  | [] => Some []
  | qp :: r =>
      match fs !! qp with
      | None => None
      | Some (JArr l) =>
          match all_records fs r with
          | Some rest => Some (map (fun qa => (topicFromFilename qp, qa)) l ++ rest)
          | None => None
          end
      | Some _ => all_records fs r
      end
  end.

(** The records that become blocks: those with a non-empty normalized
    question that is neither among [keys] nor the question of an earlier
    accepted record. *)
Fixpoint accepted (keys : gset jsstring) (recs : list (TopicInfo * json))
  : list (TopicInfo * json) :=
  match recs with
  | [] => []
  | x :: r =>
      let k := qkey x.2 in
      if is_empty k then accepted keys r
      else if bool_decide (k ∈ keys) then accepted keys r
      else x :: accepted ({[ k ]} ∪ keys) r
  end.

Definition keys_after (keys : gset jsstring) (acc : list (TopicInfo * json))
  : gset jsstring :=
  list_to_set (map (fun x => qkey x.2) acc) ∪ keys.

(** The blocks of accepted records, numbered from [n + 1]. *)
Fixpoint built (schema : Schema) (n : nat) (acc : list (TopicInfo * json)) : list json :=
  match acc with
  | [] => []
  | x :: r => qaToBlock x.2 schema x.1 (n + 1) :: built schema (n + 1) r
  end.

Definition usable (x : TopicInfo * json) : Prop := is_null x.2 = false.

(** The normalized question that a block of the target shows on its first
    [Q:] line, if it has one. *)
Definition stored_key (schema : Schema) (b : json) : option jsstring :=
  match match_Q (toStr (or_empty_str (prop b (textKey schema)))) with
  | Some m1 => Some (norm (Some (JStr m1)))
  | None => None
  end.

(** The questions of the blocks of the target. *)
Definition stored_keys (schema : Schema) (bl : list json) : gset jsstring :=
  list_to_set (omap (stored_key schema) bl).
End MergeSpec.

(** Two files with one question asked twice, once in capitals and once
    with a combining acute accent. *)
Definition qa_record (q a : jsstring) : @json ascii_host :=
  JObj [(str "question", JStr q); (str "answer", JStr a)].

Definition merge_fs : gmap jsstring (@json ascii_host) :=
  {[ str "kb.json" := JArr [];
     str "estrategia_QA.json" :=
       JArr [qa_record (str "Que es ALBA?") (str "Un asistente.");
             qa_record (str "Donde esta?") (str "En Lleida.")];
     str "autores_QA.json" :=
       JArr [qa_record (str "Quien escribe?") (str "Los autores.");
             qa_record (str "QUE" ++ [769%N] ++ str " ES ALBA?") (str "Un asistente.")] ]}.

Definition merge_args : list jsstring :=
  [str "kb.json"; str "estrategia_QA.json"; str "autores_QA.json"].

(** The index of an earlier merge, holding the block of one question. *)
Definition stored_block : @json ascii_host :=
  JObj [(str "id", JStr (str "qa-estrategia_es-001"));
        (str "text", JStr (str "Q: Que es ALBA?" ++ [10; 10; 10; 10]%N ++ str "A: Un asistente."))].

Definition remerge_fs : gmap jsstring (@json ascii_host) :=
  <[ str "kb.json" := JObj [(str "blocks", JArr [stored_block])] ]> merge_fs.

(** An index that stores the block of one question, with files that ask
    that question again in capitals and with an accent. *)
Definition dedup_fs : gmap jsstring (@json ascii_host) :=
  {[ str "kb.json" := JObj [(str "blocks", JArr [stored_block])];
     str "estrategia_QA.json" :=
       JArr [qa_record (str "Donde esta?") (str "En Lleida.");
             qa_record (str "QUE" ++ [769%N] ++ str " ES ALBA?") (str "Un asistente.")];
     str "autores_QA.json" :=
       JArr [qa_record (str "Quien escribe?") (str "Los autores.")] ]}.

(** The same index, with files where the second file repeats a question of
    the first one. *)
Definition pair_fs : gmap jsstring (@json ascii_host) :=
  {[ str "kb.json" := JObj [(str "blocks", JArr [stored_block])];
     str "estrategia_QA.json" :=
       JArr [qa_record (str "Donde esta?") (str "En Lleida.");
             qa_record (str "Quien escribe?") (str "Los autores.")];
     str "autores_QA.json" :=
       JArr [qa_record (str "DO" ++ [769%N] ++ str "NDE ESTA?") (str "En Lleida.")] ]}.

(** *** Corpus signature *)

(** What the signature reads of a file. *)
Definition sig_triple `{Host} (f : DocFile) : jsstring * number * number :=
  (name f, size f, mtimeMs f).

(** [a] is not above [b] in the order of [sort()]. *)
Definition str_le (a b : jsstring) : Prop := str_gtb a b = false.

(** The text of a number has at least one character and holds neither a
    vertical bar nor a colon. *)
Definition plain (s : jsstring) : Prop := Forall (fun c => c <> 124%N /\ c <> 58%N) s.
Definition numeric (s : jsstring) : Prop := s <> [] /\ plain s.

(** What the signature needs of [Number::toString]: different numbers
    have different texts, made of digits, signs, points and letters. *)
Class NumberFormat `{Host} := {
  num_numeric : forall x, numeric (numToString x);
  num_inj : forall x y, numToString x = numToString y -> x = y;
}.

(** The part of a token after the name. *)
Definition token_tail (s m : jsstring) : jsstring := 124%N :: s ++ 124%N :: m.

Definition nobar (s : jsstring) : Prop := Forall (fun c => c <> 124%N) s.
Definition nocolon (s : jsstring) : Prop := Forall (fun c => c <> 58%N) s.

(** A token tail followed by the separator. *)
Definition tail_sep (s m : jsstring) : jsstring := token_tail s m ++ COLONS.

(** What precedes and what follows the middle part of a joined list. *)
Definition join_pre (sep : jsstring) (X : list jsstring) : jsstring :=
  if is_empty_list X then [] else join sep X ++ sep.

Definition join_post (sep : jsstring) (Z : list jsstring) : jsstring :=
  if is_empty_list Z then [] else sep ++ join sep Z.

(** Three files of a directory, and the second with another size. *)
Definition sample_file (nm : string) (sz mt : N) : @DocFile ascii_host :=
  {| name := str nm; full := DOCS_DIR ++ [47%N] ++ str nm;
     size := sz; mtimeMs := mt; ext := str ".txt" |}.

Definition sample_files : list (@DocFile ascii_host) :=
  [sample_file "b.txt" 120 1700000000000; sample_file "a|1::b.txt" 99 1700000000001;
   sample_file "c.txt" 7 1700000000002].

(** * Further definitions: what the statements about the rest of the code use *)

(** A text that [trim] leaves as it is, and that is not empty. *)
Definition trimmed (t : jsstring) : Prop := t <> [] /\ trim t = t.

(** [p] occurs in [t] as a contiguous piece. *)
Definition occurs_in (p t : jsstring) : Prop := exists a b, t = a ++ p ++ b.

(** The separator the chunker puts between two paragraphs of a buffer. *)
Definition PARA_SEP : jsstring := [10; 10]%N.

(** The buffer [cur] followed by the paragraphs [rest], as one text. *)
Definition glue (cur : jsstring) (rest : list jsstring) : jsstring :=
  if is_empty cur then join PARA_SEP rest else join PARA_SEP (cur :: rest).

(** [na] of [cosineSimilarity]: the sum of the squares of the components,
    accumulated from the left. *)
Definition sum_squares (a : list float) : float :=
  fold_left (fun acc x => fadd acc (fmul x x)) a fzero.

(** ** Staleness check ([kbIsStale], server.js)

    [kb] is the index as [loadKB] hands it over, [None] standing for a
    missing index ([kb?.meta?.docsSignature] is then undefined).  The
    signature is compared with the one of the directory as [listDocs]
    finds it; that call creates the directory when it is missing. *)
Definition kbIsStale `{Host} (kb : option KB) (fs : FS) : FS * bool :=
  match kb with
  | None => (fs, true)
  | Some k =>
      if is_empty (docsSignature (meta k)) then (fs, true)
      else (mkdir_docs fs,
            negb (str_eqb (docSignature (listDocs (mkdir_docs fs)))
                          (docsSignature (meta k))))
  end.

(** A directory with one note of a hundred characters, and no index yet. *)
Definition long_note_fs : @FS ascii_host :=
  {| docs_dir := Some [ {| e_name := str "nota.txt"; e_isFile := true;
                          e_size := 100%N; e_mtimeMs := 1700000000000%N;
                          e_text := Some (repeat 97%N 100) |} ];
     files := ∅ |}.

(** The same directory with an index of an earlier build beside it. *)
Definition rebuild_fs : @FS ascii_host :=
  {| docs_dir := docs_dir long_note_fs;
     files := {[ KB_PATH := Bytes (str "old index") ]} |}.

(** An index whose signature is the one of [long_note_fs], and the
    directory with a second note. *)
Definition note_kb : KB :=
  {| meta := {| createdAt := str "t1"; embedModel := []; chatModel := [];
                targetChunks := 150; chunkSizeChars := 800; overlapChars := 96;
                docCount := 1; chunkCount := 0;
                docsSignature := str "nota.txt|100|1700000000000" |};
     chunks := [] |}.

Definition two_notes_fs : @FS ascii_host :=
  {| docs_dir := Some [ {| e_name := str "otra.md"; e_isFile := true;
                          e_size := 7%N; e_mtimeMs := 1700000000001%N;
                          e_text := Some (str "# otra") |};
                        {| e_name := str "nota.txt"; e_isFile := true;
                          e_size := 100%N; e_mtimeMs := 1700000000000%N;
                          e_text := Some (repeat 97%N 100) |} ];
     files := ∅ |}.

(** A directory with two documents of three paragraphs each, long enough
    for several chunks per document. *)
Definition three_paragraphs : jsstring :=
  repeat 97%N 500 ++ [10; 10]%N ++ repeat 98%N 500 ++ [10; 10]%N ++ repeat 99%N 500.

Definition two_long_fs : @FS ascii_host :=
  {| docs_dir := Some [ {| e_name := str "a.txt"; e_isFile := true;
                          e_size := 1504%N; e_mtimeMs := 1700000000000%N;
                          e_text := Some three_paragraphs |};
                        {| e_name := str "b.md"; e_isFile := true;
                          e_size := 1504%N; e_mtimeMs := 1700000000001%N;
                          e_text := Some three_paragraphs |} ];
     files := ∅ |}.

(** What identifies a chunk: its document and its index in it. *)
Definition chunk_key (c : Chunk) : jsstring * nat := (c_doc c, c_chunkIndex c).

(** The number of chunks of document [d] in a list of chunks. *)
Definition doc_chunks (d : jsstring) (cs : list Chunk) : nat :=
  length (List.filter (fun c => str_eqb (c_doc c) d) cs).

(** The chunk a result was made from. *)
Definition from_chunk (s : Scored) (c : Chunk) : Prop :=
  s_doc s = c_doc c /\ s_chunkIndex s = c_chunkIndex c /\ s_text s = c_text c.

(** *** The merge tool: what a block is made of *)

Section MergeShape.
Context `{Host}.

(** The candidate names of the six keys of a block, as
    [buildQaBlockSchema] lists them. *)
Definition TEXT_KEYS : list jsstring := [str "text"; str "content"; str "chunk"; str "body"].
Definition DOC_KEYS : list jsstring :=
  [str "doc"; str "source"; str "fuente"; str "file"; str "document"].
Definition PAGE_KEYS : list jsstring := [str "p"; str "page"; str "pages"; str "pagina"].
Definition ID_KEYS : list jsstring := [str "id"; str "key"; str "uid"].
Definition TAGS_KEYS : list jsstring := [str "tags"; str "etiquetas"].
Definition TYPE_KEYS : list jsstring := [str "type"; str "kind"].

(** A schema whose keys are taken from the candidates. *)
Definition candidate_schema (s : Schema) : Prop :=
  In (textKey s) TEXT_KEYS /\ In (docKey s) DOC_KEYS /\ In (pageKey s) PAGE_KEYS
  /\ In (idKey s) ID_KEYS /\ In (tagsKey s) TAGS_KEYS /\ In (typeKey s) TYPE_KEYS.

(** [String(qa.question || "")] *)
Definition question_text (qa : json) : jsstring :=
  toStr (or_empty_str (prop qa (str "question"))).

(** The text that follows the question line in the text of a block. *)
Definition qa_rest (qa : json) : jsstring :=
  (if is_empty_list (as_array (prop qa (str "variants"))) then []
   else [10%N] ++ str "Variantes: "
        ++ join_values (str " | ") (as_array (prop qa (str "variants"))))
  ++ [10%N]
  ++ (if is_empty_list (as_array (prop qa (str "tags"))) then []
      else [10%N] ++ str "Tags: "
           ++ join_values (str ", ") (as_array (prop qa (str "tags"))))
  ++ [10%N; 10%N]
  ++ str "A: " ++ toStr (or_empty_str (prop qa (str "answer"))).

(** The text of the block [qaToBlock] makes of a record. *)
Definition qa_text (qa : json) : jsstring :=
  trim (str "Q: " ++ question_text qa ++ [10%N] ++ qa_rest qa).

(** The id of the [n]-th block of a run. *)
Definition qa_id (ti : TopicInfo) (n : nat) : jsstring :=
  str "qa-" ++ topic ti ++ str "-" ++ pad3 n.

(** A question that is not blank and, trimmed, stands on one line. *)
Definition single_line (q : jsstring) : Prop :=
  trim q <> [] /\ Forall (fun c => is_line_terminator c = false) (trim q).

(** The arguments that are no [--mode=] option. *)
Definition positional (args : list jsstring) : list jsstring :=
  List.filter (fun a => negb (starts_with MODE_PREFIX a)) args.

Definition BAK : jsstring := str ".bak_".
End MergeShape.

(** A provider that answers with one vector for each text it is given. *)
Definition one_vector_each `{Env} : Prop :=
  forall texts vs, embedBatch texts = Some vs -> length vs = length texts.

(** ** Answering ([answerWithContexts], server.js) *)

(** The chat provider behind [client.responses.create], called with the
    model, the system message and the user message: [Some (Some t)] is a
    response with [output_text = t], [Some None] a response without
    [output_text], [None] a call that throws. *)
Class Chat := {
  respond : jsstring -> jsstring -> jsstring -> option (option jsstring);
}.

Definition SYSTEM_PROMPT : jsstring :=
  join (str " ")
    [ str "Responde SOLO usando los CONTEXTOS entregados.";
      str "Si falta info, dilo expl" ++ [237%N] ++ str "citamente y sugiere qu" ++ [233%N]
        ++ str " documento revisar.";
      str "Responde con detalle (no telegr" ++ [225%N]
        ++ str "fico), usando secciones cuando ayude.";
      str "Cita siempre con el formato [Documento | chunk N] al final de oraciones/p"
        ++ [225%N] ++ str "rrafos relevantes.";
      str "No inventes." ].

(** [`### [${c.doc} | chunk ${c.chunkIndex}]\n${c.text}`] *)
Definition context_block (c : Scored) : jsstring :=
  str "### [" ++ s_doc c ++ str " | chunk " ++ dec (N.of_nat (s_chunkIndex c)) ++ str "]"
  ++ [10%N] ++ s_text c.

Definition NO_CONTEXT : jsstring := str "(vac" ++ [237%N] ++ str "o)".

Definition user_prompt (question : jsstring) (contexts : list Scored) : jsstring :=
  let ctx := join [10; 10]%N (map context_block contexts) in
  str "CONTEXTOS:" ++ [10%N] ++ (if is_empty ctx then NO_CONTEXT else ctx) ++ [10; 10]%N
  ++ str "PREGUNTA:" ++ [10%N] ++ question ++ [10; 10]%N
  ++ str "INSTRUCCI" ++ [211%N] ++ str "N:" ++ [10%N] ++ str "Responde en espa" ++ [241%N]
  ++ str "ol.".

Definition NO_ANSWER : jsstring :=
  str "No pude generar una respuesta con el material disponible.".

(** [answerWithContexts]; [None] when the provider throws. *)
Definition answerWithContexts `{Env} `{Chat} (question : jsstring) (contexts : list Scored)
  : option jsstring :=
  match respond CHAT_MODEL SYSTEM_PROMPT (user_prompt question contexts) with
  | None => None
  | Some output_text =>
      let out := trim (or_empty output_text) in
      Some (if is_empty out then NO_ANSWER else out)
  end.

(** ** The sources of an answer (the handler of [/api/chat], server.js) *)

(** [.replace(/\s+/g, " ")]: [in_run] holds inside a run of white space
    whose space has been emitted. *)
Fixpoint collapse_ws (in_run : bool) (s : jsstring) : jsstring :=
  match s with
  | [] => []
  | c :: r =>
      if is_ws c then
        if in_run then collapse_ws true r else 32%N :: collapse_ws true r
      else c :: collapse_ws false r
  end.

Definition ELLIPSIS : jsstring := [8230%N].

(** [c.text.replace(/\s+/g, " ").slice(0, 240) + (c.text.length > 240 ? "…" : "")] *)
Definition snippet (text : jsstring) : jsstring :=
  firstn 240 (collapse_ws false text) ++ (if 240 <? length text then ELLIPSIS else []).

(** A provider that repeats the user message. *)
Definition echo_chat : Chat := {| respond := fun _ _ user => Some (Some user) |}.

(** * Properties *)
(** ** Text normalizer *)

Lemma is_lf_eq c : is_lf c = true -> c = 10%N.
Proof. unfold is_lf. intros E. by apply N.eqb_eq in E. Qed.

Lemma is_cr_eq c : is_cr c = true -> c = 13%N.
Proof. unfold is_cr. intros E. by apply N.eqb_eq in E. Qed.

Lemma lf_not_blank c : is_lf c = true -> is_blank c = false.
Proof. intros E. apply is_lf_eq in E. by subst. Qed.

Lemma blank_not_lf c : is_blank c = true -> is_lf c = false.
Proof.
  intros E. destruct (is_lf c) eqn:L; [|done].
  apply lf_not_blank in L. congruence.
Qed.

Lemma lf_not_cr c : is_lf c = true -> is_cr c = false.
Proof. intros E. apply is_lf_eq in E. by subst. Qed.

Lemma blank_is_ws c : is_blank c = true -> is_ws c = true.
Proof.
  unfold is_blank. intros E. apply orb_true_iff in E.
  destruct E as [E|E]; apply N.eqb_eq in E; by subst.
Qed.

Lemma blank_not_cr c : is_blank c = true -> is_cr c = false.
Proof.
  unfold is_blank. intros E. apply orb_true_iff in E.
  destruct E as [E|E]; apply N.eqb_eq in E; by subst.
Qed.

Lemma clean_cons bad c r :
  clean bad (c :: r) = true <-> bad c r = false /\ clean bad r = true.
Proof.
  simpl. rewrite andb_true_iff, negb_true_iff. tauto.
Qed.

Lemma has_crlf_clean s : has_crlf s = negb (clean bad_crlf s).
Proof.
  induction s as [|c r IH]; [done|].
  simpl. destruct r as [|d r'].
  - unfold bad_crlf. simpl. by rewrite andb_false_r.
  - rewrite IH. unfold bad_crlf at 2. simpl starts_lf.
    by rewrite negb_andb, negb_involutive.
Qed.

(** *** Each step leaves a text without its pattern unchanged *)

Lemma replace_crlf_fix s : clean bad_crlf s = true -> replace_crlf s = s.
Proof.
  induction s as [|c r IH]; [done|].
  intros Hc. apply clean_cons in Hc as [Hb Hr].
  simpl. destruct r as [|d r']; [done|].
  unfold bad_crlf in Hb. simpl in Hb. rewrite Hb.
  f_equal. by apply IH.
Qed.

Lemma blanks_then_lf_dirty c r :
  is_blank c = true -> blanks_then_lf r = true -> clean bad_blank_lf (c :: r) = false.
Proof.
  revert c. induction r as [|d r IH]; intros c Hc Hr; [done|].
  simpl in Hr. destruct (is_lf d) eqn:Hd.
  - simpl. unfold bad_blank_lf at 1. simpl. by rewrite Hc, Hd.
  - destruct (is_blank d) eqn:Hbd; [|done].
    change (clean bad_blank_lf (c :: d :: r))
      with (negb (bad_blank_lf c (d :: r)) && clean bad_blank_lf (d :: r)).
    rewrite (IH d Hbd Hr). apply andb_false_r.
Qed.

Lemma strip_fix s : clean bad_blank_lf s = true -> strip_blanks_before_lf s = s.
Proof.
  induction s as [|c r IH]; [done|].
  intros Hc. pose proof Hc as Hc'. apply clean_cons in Hc as [Hb Hr].
  simpl. destruct (is_blank c) eqn:Bc; simpl.
  - destruct (blanks_then_lf r) eqn:Br.
    + rewrite (blanks_then_lf_dirty c r Bc Br) in Hc'. done.
    + f_equal. by apply IH.
  - f_equal. by apply IH.
Qed.

Lemma collapse_newlines_fix s : clean bad_3lf s = true -> collapse_newlines s = s.
Proof.
  induction s as [|c r IH]; [done|].
  intros Hc. apply clean_cons in Hc as [Hb Hr].
  simpl. unfold bad_3lf in Hb. rewrite Hb. f_equal. by apply IH.
Qed.

Lemma collapse_blanks_fix s : clean bad_2blank s = true -> collapse_blanks false s = s.
Proof.
  induction s as [|c r IH]; [done|].
  intros Hc. apply clean_cons in Hc as [Hb Hr].
  simpl. unfold bad_2blank in Hb.
  destruct (is_blank c); simpl in Hb.
  - rewrite Hb. f_equal. by apply IH.
  - f_equal. by apply IH.
Qed.

(** *** Each step removes its pattern *)

Lemma starts_lf_strip s :
  starts_lf (strip_blanks_before_lf s) = blanks_then_lf s.
Proof.
  induction s as [|c r IH]; [done|].
  simpl. destruct (is_lf c) eqn:Lc.
  - rewrite (lf_not_blank c Lc). simpl. done.
  - destruct (is_blank c) eqn:Bc; simpl.
    + destruct (blanks_then_lf r) eqn:Br; [by rewrite IH|]. simpl. done.
    + done.
Qed.

Lemma strip_clean s : clean bad_blank_lf (strip_blanks_before_lf s) = true.
Proof.
  induction s as [|c r IH]; [done|].
  simpl. destruct (is_blank c && blanks_then_lf r) eqn:E; [done|].
  apply clean_cons. split; [|done].
  unfold bad_blank_lf. rewrite starts_lf_strip. done.
Qed.

Lemma hd_collapse_newlines s :
  hd_error (collapse_newlines s) = hd_error s.
Proof.
  induction s as [|c r IH]; [done|].
  simpl. destruct (is_lf c && starts_2lf r) eqn:E; [|done].
  apply andb_true_iff in E as [Lc E]. rewrite IH.
  destruct r as [|a [|b r']]; try done. simpl in E.
  apply andb_true_iff in E as [La _].
  apply is_lf_eq in Lc, La. by subst.
Qed.

Lemma starts_lf_hd s s' : hd_error s = hd_error s' -> starts_lf s = starts_lf s'.
Proof. destruct s, s'; simpl; congruence. Qed.

Lemma starts_2lf_cons a s : starts_2lf (a :: s) = is_lf a && starts_lf s.
Proof. destruct s; simpl; [by rewrite andb_false_r | done]. Qed.

Lemma starts_2lf_collapse_newlines r :
  starts_2lf (collapse_newlines r) = true -> starts_2lf r = true.
Proof.
  destruct r as [|a r1]; [done|].
  simpl collapse_newlines. destruct (is_lf a && starts_2lf r1) eqn:Ea.
  - intros _. apply andb_true_iff in Ea as [La Ea].
    rewrite starts_2lf_cons, La. simpl.
    destruct r1 as [|b r2]; [done|]. rewrite starts_2lf_cons in Ea.
    apply andb_true_iff in Ea as [Lb _]. exact Lb.
  - rewrite !starts_2lf_cons.
    by rewrite (starts_lf_hd _ _ (hd_collapse_newlines r1)).
Qed.

Lemma collapse_newlines_clean s : clean bad_3lf (collapse_newlines s) = true.
Proof.
  induction s as [|c r IH]; [done|].
  simpl. destruct (is_lf c && starts_2lf r) eqn:E; [done|].
  apply clean_cons. split; [|done].
  unfold bad_3lf. destruct (is_lf c) eqn:Lc; [|done]. simpl in *.
  destruct (starts_2lf (collapse_newlines r)) eqn:E2; [|done].
  apply starts_2lf_collapse_newlines in E2. congruence.
Qed.

Lemma collapse_blanks_true_head s :
  starts_blank (collapse_blanks true s) = false.
Proof.
  induction s as [|c r IH]; [done|].
  simpl. destruct (is_blank c) eqn:Bc; [done|]. simpl. done.
Qed.

Lemma collapse_blanks_clean b s : clean bad_2blank (collapse_blanks b s) = true.
Proof.
  revert b. induction s as [|c r IH]; intros b; [done|].
  simpl. destruct (is_blank c) eqn:Bc.
  - destruct b; [done|].
    destruct (starts_blank r) eqn:Sr.
    + apply clean_cons. split; [|done].
      unfold bad_2blank. rewrite collapse_blanks_true_head. apply andb_false_r.
    + apply clean_cons. split; [|done].
      unfold bad_2blank. destruct r as [|d r']; [by rewrite andb_false_r|].
      simpl in Sr. simpl. rewrite Sr. simpl. by rewrite Sr, andb_false_r.
  - apply clean_cons. split; [|done]. unfold bad_2blank. by rewrite Bc.
Qed.

(** *** The later steps keep the earlier patterns away *)

Lemma collapse_newlines_keeps_blank_lf s :
  clean bad_blank_lf s = true -> clean bad_blank_lf (collapse_newlines s) = true.
Proof.
  induction s as [|c r IH]; [done|].
  intros Hc. apply clean_cons in Hc as [Hb Hr].
  simpl. destruct (is_lf c && starts_2lf r); [by apply IH|].
  apply clean_cons. split; [|by apply IH].
  unfold bad_blank_lf in *.
  by rewrite (starts_lf_hd _ _ (hd_collapse_newlines r)).
Qed.

Lemma starts_lf_collapse_blanks r :
  starts_lf (collapse_blanks false r) = starts_lf r.
Proof.
  destruct r as [|d r']; [done|].
  simpl. destruct (is_blank d) eqn:Bd; [|done].
  rewrite (blank_not_lf d Bd).
  destruct (starts_blank r'); simpl; [done|apply (blank_not_lf d Bd)].
Qed.

Lemma blank_then_collapse_blanks c r b :
  is_blank c = true -> clean bad_blank_lf (c :: r) = true ->
  starts_lf (collapse_blanks b r) = false.
Proof.
  revert c b. induction r as [|d r IH]; intros c b Bc Hc; [done|].
  apply clean_cons in Hc as [Hb Hr].
  unfold bad_blank_lf in Hb. rewrite Bc in Hb. simpl in Hb.
  simpl. destruct (is_blank d) eqn:Bd; [|done].
  destruct b; [by apply (IH d)|].
  by destruct (starts_blank r).
Qed.

Lemma collapse_blanks_keeps_blank_lf b s :
  clean bad_blank_lf s = true -> clean bad_blank_lf (collapse_blanks b s) = true.
Proof.
  revert b. induction s as [|c r IH]; intros b Hc; [done|].
  pose proof Hc as Hc'. apply clean_cons in Hc as [Hb Hr].
  simpl. destruct (is_blank c) eqn:Bc.
  - destruct b; [by apply IH|].
    destruct (starts_blank r).
    + apply clean_cons. split; [|by apply IH].
      unfold bad_blank_lf. by rewrite (blank_then_collapse_blanks c r true Bc Hc').
    + apply clean_cons. split; [|by apply IH].
      unfold bad_blank_lf. rewrite (blank_then_collapse_blanks c r false Bc Hc').
      apply andb_false_r.
  - apply clean_cons. split; [|by apply IH]. unfold bad_blank_lf. by rewrite Bc.
Qed.

Lemma collapse_blanks_keeps_3lf b s :
  clean bad_3lf s = true -> clean bad_3lf (collapse_blanks b s) = true.
Proof.
  revert b. induction s as [|c r IH]; intros b Hc; [done|].
  apply clean_cons in Hc as [Hb Hr].
  simpl. destruct (is_blank c) eqn:Bc.
  - destruct b; [by apply IH|].
    destruct (starts_blank r).
    + apply clean_cons. split; [done|by apply IH].
    + apply clean_cons. split; [|by apply IH].
      unfold bad_3lf. by rewrite (blank_not_lf c Bc).
  - apply clean_cons. split; [|by apply IH].
    unfold bad_3lf in *. destruct (is_lf c); [|done]. simpl in *.
    destruct r as [|a r1]; [done|].
    rewrite starts_2lf_cons in Hb. simpl.
    destruct (is_blank a) eqn:Ba.
    + destruct (starts_blank r1); rewrite starts_2lf_cons; [done|].
      by rewrite (blank_not_lf a Ba).
    + rewrite starts_2lf_cons, starts_lf_collapse_blanks. done.
Qed.

(** *** Trimming *)

Lemma clean_drop_while bad f s :
  clean bad s = true -> clean bad (drop_while f s) = true.
Proof.
  induction s as [|c r IH]; [done|].
  intros Hc. simpl. destruct (f c); [|done].
  apply clean_cons in Hc as [_ Hr]. by apply IH.
Qed.

Lemma trim_end_prefix s : exists w, s = trim_end s ++ w.
Proof.
  induction s as [|c r [w IH]]; [by exists []|].
  simpl. destruct (trim_end r) as [|d r'] eqn:E.
  - destruct (is_ws c).
    + by exists (c :: r).
    + exists r. done.
  - exists w. simpl. by rewrite IH at 1.
Qed.

Lemma clean_prefix bad p w :
  prefix_stable bad -> clean bad (p ++ w) = true -> clean bad p = true.
Proof.
  intros Hs. induction p as [|c p IH]; [done|].
  simpl app. intros Hc. apply clean_cons in Hc as [Hb Hr].
  apply clean_cons. split; [|by apply IH].
  destruct (bad c p) eqn:E; [|done].
  by rewrite (Hs c p w E) in Hb.
Qed.

Lemma blank_lf_stable : prefix_stable bad_blank_lf.
Proof.
  intros c p w. unfold bad_blank_lf. destruct (is_blank c); [|done].
  by destruct p.
Qed.

Lemma three_lf_stable : prefix_stable bad_3lf.
Proof.
  intros c p w. unfold bad_3lf. destruct (is_lf c); [|done].
  by destruct p as [|a [|b p]].
Qed.

Lemma two_blank_stable : prefix_stable bad_2blank.
Proof.
  intros c p w. unfold bad_2blank. destruct (is_blank c); [|done].
  by destruct p.
Qed.

Lemma clean_trim bad s :
  prefix_stable bad -> clean bad s = true -> clean bad (trim s) = true.
Proof.
  intros Hs Hc. unfold trim, trim_start.
  destruct (trim_end_prefix (drop_while is_ws s)) as [w Hw].
  apply (clean_prefix bad _ w Hs). rewrite <- Hw.
  by apply clean_drop_while.
Qed.

Lemma trim_end_idem s : trim_end (trim_end s) = trim_end s.
Proof.
  induction s as [|c r IH]; [done|].
  simpl. destruct (trim_end r) as [|d r'] eqn:E.
  - destruct (is_ws c) eqn:W; [done|]. simpl. by rewrite W.
  - change (trim_end (c :: d :: r'))
      with (match trim_end (d :: r') with
            | [] => if is_ws c then [] else [c]
            | x :: y => c :: x :: y
            end).
    by rewrite IH.
Qed.

Lemma drop_while_ws_head s : starts_ws (drop_while is_ws s) = false.
Proof.
  induction s as [|c r IH]; [done|].
  simpl. by destruct (is_ws c) eqn:W; simpl.
Qed.

Lemma trim_end_head s : starts_ws s = false -> starts_ws (trim_end s) = false.
Proof.
  destruct s as [|c r]; [done|].
  simpl. intros W. destruct (trim_end r); [by rewrite W|done].
Qed.

Lemma drop_while_ws_fix s : starts_ws s = false -> drop_while is_ws s = s.
Proof. destruct s as [|c r]; [done|]. simpl. by intros ->. Qed.

Lemma trim_idem s : trim (trim s) = trim s.
Proof.
  unfold trim, trim_start.
  rewrite (drop_while_ws_fix (trim_end (drop_while is_ws s))).
  - apply trim_end_idem.
  - apply trim_end_head, drop_while_ws_head.
Qed.

(** *** No step lengthens the text *)

Lemma replace_crlf_length_aux n :
  forall s, length s <= n ->
    length (replace_crlf s) <= length s
    /\ (has_crlf s = true -> length (replace_crlf s) < length s).
Proof.
  induction n as [|n IH]; intros s Hn.
  - destruct s; [split; [done|discriminate]|simpl in Hn; lia].
  - destruct s as [|c [|d r']]; [split; [done|discriminate]|split; [done|discriminate]|].
    simpl in Hn.
    change (replace_crlf (c :: d :: r'))
      with (if is_cr c && is_lf d then 10%N :: replace_crlf r'
            else c :: replace_crlf (d :: r')).
    change (has_crlf (c :: d :: r'))
      with ((is_cr c && is_lf d) || has_crlf (d :: r')).
    destruct (is_cr c && is_lf d).
    + destruct (IH r') as [H1 _]; [lia|]. simpl. split; [lia|intros _; lia].
    + destruct (IH (d :: r')) as [H1 H2]; [simpl; lia|].
      simpl orb. simpl length in *. split; [lia|]. intros E. specialize (H2 E). lia.
Qed.

Lemma strip_length s : length (strip_blanks_before_lf s) <= length s.
Proof.
  induction s as [|c r IH]; [done|].
  simpl. destruct (is_blank c && blanks_then_lf r); simpl; lia.
Qed.

Lemma collapse_newlines_length s : length (collapse_newlines s) <= length s.
Proof.
  induction s as [|c r IH]; [done|].
  simpl. destruct (is_lf c && starts_2lf r); simpl; lia.
Qed.

Lemma collapse_blanks_length b s : length (collapse_blanks b s) <= length s.
Proof.
  revert b. induction s as [|c r IH]; intros b; [done|].
  simpl. pose proof (IH true). pose proof (IH false).
  destruct (is_blank c), b, (starts_blank r); simpl; lia.
Qed.

Lemma drop_while_length f s : length (drop_while f s) <= length s.
Proof.
  induction s as [|c r IH]; [done|].
  simpl. destruct (f c); simpl; lia.
Qed.

Lemma trim_length s : length (trim s) <= length s.
Proof.
  unfold trim, trim_start.
  destruct (trim_end_prefix (drop_while is_ws s)) as [w Hw].
  pose proof (drop_while_length is_ws s) as Hd.
  rewrite Hw in Hd at 1. rewrite length_app in Hd. lia.
Qed.

(** *** Carriage returns *)

Lemma replace_crlf_no_cr_aux n :
  forall s, length s <= n -> cr_paired s = true -> no_cr (replace_crlf s).
Proof.
  induction n as [|n IH]; intros s Hn Hp.
  - destruct s; [constructor|simpl in Hn; lia].
  - destruct s as [|c [|d r']]; [constructor| |].
    + simpl in Hp. destruct (is_cr c) eqn:C; [done|]. by repeat constructor.
    + simpl in Hn.
      change (replace_crlf (c :: d :: r'))
        with (if is_cr c && is_lf d then 10%N :: replace_crlf r'
              else c :: replace_crlf (d :: r')).
      change (cr_paired (c :: d :: r'))
        with (if is_cr c then is_lf d && cr_paired r' else cr_paired (d :: r')) in Hp.
      destruct (is_cr c) eqn:C.
      * apply andb_true_iff in Hp as [Ld Hp]. rewrite Ld. cbn [andb].
        constructor; [done|]. apply IH; [lia|done].
      * cbn [andb]. constructor; [done|]. apply IH; [simpl; lia|done].
Qed.

Lemma strip_no_cr s : no_cr s -> no_cr (strip_blanks_before_lf s).
Proof.
  induction 1 as [|c r Hc Hr IH]; [constructor|].
  simpl. destruct (is_blank c && blanks_then_lf r); [done|by constructor].
Qed.

Lemma collapse_newlines_no_cr s : no_cr s -> no_cr (collapse_newlines s).
Proof.
  induction 1 as [|c r Hc Hr IH]; [constructor|].
  simpl. destruct (is_lf c && starts_2lf r); [done|by constructor].
Qed.

Lemma collapse_blanks_no_cr b s : no_cr s -> no_cr (collapse_blanks b s).
Proof.
  intros Hs. revert b. induction Hs as [|c r Hc Hr IH]; intros b; [constructor|].
  simpl. destruct (is_blank c), b, (starts_blank r);
    first [apply IH | constructor; [done|apply IH]].
Qed.

Lemma trim_no_cr s : no_cr s -> no_cr (trim s).
Proof.
  intros Hs. unfold trim, trim_start.
  assert (Hd : no_cr (drop_while is_ws s)).
  { induction Hs as [|c r Hc Hr IH]; [constructor|].
    simpl. destruct (is_ws c); [done|by constructor]. }
  destruct (trim_end_prefix (drop_while is_ws s)) as [w Hw].
  rewrite Hw in Hd. unfold no_cr in *. by apply Forall_app in Hd as [Hd _].
Qed.

Lemma no_cr_no_crlf s : no_cr s -> has_crlf s = false.
Proof.
  induction 1 as [|c r Hc Hr IH]; [done|].
  simpl. destruct r; [done|]. by rewrite Hc, IH.
Qed.

(** *** The normal form *)

Lemma normalize_clean v :
  let u := normalizeWhitespace v in
  clean bad_blank_lf u = true /\ clean bad_3lf u = true /\ clean bad_2blank u = true.
Proof.
  unfold normalizeWhitespace.
  set (t := replace_crlf (or_empty v)).
  repeat split.
  - apply clean_trim; [apply blank_lf_stable|].
    apply collapse_blanks_keeps_blank_lf, collapse_newlines_keeps_blank_lf, strip_clean.
  - apply clean_trim; [apply three_lf_stable|].
    apply collapse_blanks_keeps_3lf, collapse_newlines_clean.
  - apply clean_trim; [apply two_blank_stable|].
    apply collapse_blanks_clean.
Qed.

Lemma normalize_trimmed v : trim (normalizeWhitespace v) = normalizeWhitespace v.
Proof. unfold normalizeWhitespace. apply trim_idem. Qed.

Lemma normalize_fix v :
  has_crlf (normalizeWhitespace v) = false ->
  normalizeWhitespace (Some (normalizeWhitespace v)) = normalizeWhitespace v.
Proof.
  intros Hc. destruct (normalize_clean v) as (H2 & H3 & H4).
  unfold normalizeWhitespace at 1. simpl or_empty.
  rewrite replace_crlf_fix; [|by rewrite has_crlf_clean, negb_false_iff in Hc].
  rewrite strip_fix, collapse_newlines_fix, collapse_blanks_fix by done.
  apply normalize_trimmed.
Qed.

Lemma normalize_shrinks s :
  has_crlf s = true -> length (normalizeWhitespace (Some s)) < length s.
Proof.
  intros Hc. unfold normalizeWhitespace. simpl or_empty.
  destruct (replace_crlf_length_aux (length s) s (le_n _)) as [_ H1].
  specialize (H1 Hc).
  pose proof (strip_length (replace_crlf s)).
  pose proof (collapse_newlines_length (strip_blanks_before_lf (replace_crlf s))).
  pose proof (collapse_blanks_length false
                (collapse_newlines (strip_blanks_before_lf (replace_crlf s)))).
  pose proof (trim_length (collapse_blanks false
                (collapse_newlines (strip_blanks_before_lf (replace_crlf s))))).
  lia.
Qed.

Lemma normalize_paired_no_crlf s :
  cr_paired s = true -> has_crlf (normalizeWhitespace (Some s)) = false.
Proof.
  intros Hp. apply no_cr_no_crlf. unfold normalizeWhitespace. simpl or_empty.
  apply trim_no_cr, collapse_blanks_no_cr, collapse_newlines_no_cr, strip_no_cr.
  by apply (replace_crlf_no_cr_aux (length s)).
Qed.

(** C5, as stated, fails: a carriage return in front of a CR LF pair
    survives the first pass and forms a new pair, which the second pass
    rewrites.  ["a\r\r\nb"] normalizes to ["a\r\nb"], and that to
    ["a\nb"]. *)
Lemma C5_counterexample :
  normalizeWhitespace (Some (normalizeWhitespace (Some [97; 13; 13; 10; 98]%N)))
  <> normalizeWhitespace (Some [97; 13; 13; 10; 98]%N).
Proof. vm_compute. discriminate. Qed.

(** C5 (amended): normalizing twice gives the same text as normalizing once
    exactly when the normalized text holds no carriage return immediately
    followed by a line feed; this is so for every text whose carriage
    returns are all part of CR LF pairs (mixed LF and CR LF line endings,
    trailing blanks included); [undefined] and the empty string normalize
    to the empty string. *)
Theorem C5_normalize_idempotent :
  (forall v, normalizeWhitespace (Some (normalizeWhitespace v)) = normalizeWhitespace v
             <-> has_crlf (normalizeWhitespace v) = false)
  /\ (forall s, cr_paired s = true ->
        normalizeWhitespace (Some (normalizeWhitespace (Some s)))
        = normalizeWhitespace (Some s))
  /\ normalizeWhitespace None = []
  /\ normalizeWhitespace (Some []) = [].
Proof.
  split; [|split; [|split; reflexivity]].
  - intros v. split; [|apply normalize_fix].
    intros Heq. destruct (has_crlf (normalizeWhitespace v)) eqn:Hc; [|done].
    apply normalize_shrinks in Hc. rewrite Heq in Hc. lia.
  - intros s Hp. by apply normalize_fix, normalize_paired_no_crlf.
Qed.

Lemma C5_witness :
  normalizeWhitespace
    (Some (normalizeWhitespace (Some [32; 97; 32; 32; 13; 10; 10; 10; 10; 98; 9; 10]%N)))
  = normalizeWhitespace (Some [32; 97; 32; 32; 13; 10; 10; 10; 10; 98; 9; 10]%N).
Proof.
  apply (proj1 (proj2 C5_normalize_idempotent)). reflexivity.
Defined.

(** ** Chunker *)

(** The exact comparison in [oversized] is the comparison of the source on
    binary64 numbers: for a chunk size up to 3200, the largest the builder
    passes, [p.length > chunkSizeChars * 1.8] holds exactly when [p.length]
    exceeds the integer part of the rounded product. *)
Lemma oversized_binary64 (c : nat) (p : jsstring) :
  1 <= c <= 3200 ->
  exists t, float_floor (fmul (float_of_Z (Z.of_nat c)) d1_8) = Some t
            /\ oversized p c = (t <? Z.of_nat (length p))%Z.
Proof.
  intros Hc.
  assert (Hall : forallb (fun n =>
            match float_floor (fmul (float_of_Z (Z.of_nat n)) d1_8) with
            | Some t => (t =? 9 * Z.of_nat n / 5)%Z
            | None => false
            end) (seq 1 3200) = true) by (vm_compute; reflexivity).
  rewrite forallb_forall in Hall.
  specialize (Hall c). rewrite in_seq in Hall. specialize (Hall ltac:(lia)).
  destruct (float_floor _) as [t|]; [|done].
  apply Z.eqb_eq in Hall. exists t. split; [done|].
  unfold oversized. subst t.
  destruct (Nat.ltb_spec (9 * c) (5 * length p)) as [H|H];
    symmetry; [apply Z.ltb_lt|apply Z.ltb_ge].
  - apply Z.div_lt_upper_bound; lia.
  - apply Z.div_le_lower_bound; lia.
Qed.

Lemma trim_end_length s : length (trim_end s) <= length s.
Proof.
  destruct (trim_end_prefix s) as [w Hw].
  rewrite Hw at 2. rewrite length_app. lia.
Qed.

Section ChunkBound.
Variables chunkSize overlap : nat.
Local Abbreviation wb := (within_bound chunkSize overlap).

Lemma push_bound chunks t :
  Forall wb chunks -> wb t -> Forall wb (push chunks t).
Proof.
  intros Hc Ht. unfold push.
  destruct (is_empty (trim t)); [done|].
  apply Forall_app. split; [done|]. constructor; [|constructor].
  unfold within_bound in *. pose proof (trim_length t). lia.
Qed.

Lemma hard_slices_bound fuel p :
  Forall (fun t => length t <= chunkSize) (hard_slices fuel chunkSize p).
Proof.
  revert p. induction fuel as [|f IH]; intros p; [constructor|].
  simpl. destruct p as [|x p']; [constructor|].
  constructor; [|apply IH]. rewrite length_firstn. lia.
Qed.

Lemma fold_push_bound sl chunks :
  Forall wb chunks -> Forall wb sl ->
  Forall wb (fold_left push sl chunks).
Proof.
  revert chunks. induction sl as [|t sl IH]; intros chunks Hc Hs; [done|].
  inversion Hs; subst. simpl. apply IH; [by apply push_bound|done].
Qed.

Lemma chunk_loop_bound parts :
  0 < chunkSize ->
  forall chunks cur,
    Forall wb chunks -> wb cur ->
    exists ch, chunk_loop chunkSize overlap parts chunks cur = Some ch
               /\ Forall wb ch.
Proof.
  intros Hpos. induction parts as [|p rest IH]; intros chunks cur Hc Hcur.
  - simpl. eexists. split; [done|]. by apply push_bound.
  - simpl. destruct (oversized p chunkSize) eqn:Ho.
    + destruct (Nat.eqb_spec chunkSize 0) as [->|_]; [lia|].
      apply IH.
      * apply fold_push_bound.
        -- destruct (negb (is_empty (trim cur))); [by apply push_bound|done].
        -- eapply Forall_impl; [apply hard_slices_bound|].
           intros t Ht. simpl in Ht. unfold within_bound. lia.
      * destruct (negb (is_empty (trim cur))); [|done].
        unfold within_bound. simpl. lia.
    + unfold oversized in Ho. apply Nat.ltb_ge in Ho.
      destruct (Nat.leb_spec (length cur + length p + 2) chunkSize) as [Hfit|Hfit].
      * apply IH; [done|].
        unfold within_bound. rewrite !length_app.
        destruct (is_empty cur); simpl; lia.
      * apply IH; [by apply push_bound|].
        unfold within_bound. rewrite length_app.
        pose proof (length_skipn (length cur - overlap) cur) as Hs.
        destruct (is_empty (skipn (length cur - overlap) cur));
          [simpl; lia|rewrite length_app; simpl; lia].
Qed.
End ChunkBound.

(** C2, as stated, fails.  With chunk size 10 and overlap 5, the text of
    two paragraphs of 8 and 18 characters has no oversized paragraph (18 is
    not above 10 * 1.8), so no hard split takes place; the second chunk is
    the last 5 characters of the first, the separator and the second
    paragraph: 25 characters. *)
Lemma C2_counterexample :
  let text := repeat 97%N 8 ++ [10; 10]%N ++ repeat 98%N 18 in
  paragraphs text = [repeat 97%N 8; repeat 98%N 18]
  /\ Forall (fun p => oversized p 10 = false) (paragraphs text)
  /\ chunkByParagraphs text 10 5
     = Some [repeat 97%N 8; repeat 97%N 5 ++ [10; 10]%N ++ repeat 98%N 18]
  /\ ~ (forall ch t, chunkByParagraphs text 10 5 = Some ch -> In t ch ->
          5 * length t <= 9 * 10).
Proof.
  cbv zeta.
  assert (Hp : paragraphs (repeat 97%N 8 ++ [10; 10]%N ++ repeat 98%N 18)
               = [repeat 97%N 8; repeat 98%N 18]) by (vm_compute; reflexivity).
  assert (Hc : chunkByParagraphs (repeat 97%N 8 ++ [10; 10]%N ++ repeat 98%N 18) 10 5
               = Some [repeat 97%N 8; repeat 97%N 5 ++ [10; 10]%N ++ repeat 98%N 18])
    by (vm_compute; reflexivity).
  split; [exact Hp|]. split.
  { rewrite Hp. repeat constructor. }
  split; [exact Hc|].
  intros Hall.
  specialize (Hall _ (repeat 97%N 5 ++ [10; 10]%N ++ repeat 98%N 18) Hc).
  assert (Hlen : length (repeat 97%N 5 ++ [10; 10]%N ++ repeat 98%N 18) = 25)
    by (vm_compute; reflexivity).
  rewrite Hlen in Hall.
  assert (Hin : In (repeat 97%N 5 ++ [10; 10]%N ++ repeat 98%N 18)
                  [repeat 97%N 8; repeat 97%N 5 ++ [10; 10]%N ++ repeat 98%N 18])
    by (right; left; reflexivity).
  specialize (Hall Hin). lia.
Qed.

(** C2 (amended): for a positive chunk size the chunker returns, and every
    chunk it produces, hard-split slice or not, has at most
    [chunkSizeChars * 1.8 + overlapChars + 2] characters: a buffer can hold
    the overlap tail of the flushed buffer, the two-character separator and
    a paragraph of up to [chunkSizeChars * 1.8] characters. *)
Theorem C2_chunk_length_bound (text : jsstring) (chunkSize overlap : nat) :
  0 < chunkSize ->
  exists ch, chunkByParagraphs text chunkSize overlap = Some ch
             /\ Forall (fun t => 5 * length t <= 9 * chunkSize + 5 * (overlap + 2)) ch.
Proof.
  intros Hpos. unfold chunkByParagraphs.
  apply (chunk_loop_bound chunkSize overlap (paragraphs text) Hpos [] []).
  - constructor.
  - unfold within_bound. simpl. lia.
Qed.

Lemma C2_witness :
  exists ch, chunkByParagraphs (repeat 97%N 8 ++ [10; 10]%N ++ repeat 98%N 18) 10 5 = Some ch
             /\ Forall (fun t => 5 * length t <= 9 * 10 + 5 * (5 + 2)) ch.
Proof. apply C2_chunk_length_bound. apply Nat.lt_0_succ. Defined.

(** ** Cosine similarity *)

Lemma cosine_sums_na_zero a :
  zero_vector a ->
  forall b dot nb, (cosine_sums a b dot fzero nb).1.2 = fzero.
Proof.
  induction 1 as [|x a Hx Ha IH]; intros b dot nb; [done|].
  destruct x as [[|]| | |]; try done; simpl; apply IH.
Qed.

Lemma cosine_sums_nb_zero a :
  forall b dot na,
    zero_vector b -> length a <= length b ->
    (cosine_sums a b dot na fzero).2 = fzero.
Proof.
  induction a as [|x a IH]; intros b dot na Hb Hlen; [done|].
  destruct Hb as [|y b Hy Hb]; [simpl in Hlen; lia|].
  destruct y as [[|]| | |]; try done; simpl; (apply IH; [done|simpl in Hlen; lia]).
Qed.

(** C7, as stated, fails on binary64 numbers: the similarity of (1, 1, 1)
    with itself is 3 / (sqrt 3 * sqrt 3), where the rounded product is
    2.9999999999999996 and the rounded quotient 1.0000000000000002
    (4503599627370497 * 2^-52), above 1. *)
Lemma C7_counterexample :
  let v := [float_of_Z 1; float_of_Z 1; float_of_Z 1] in
  cosineSimilarity v v = S754_finite false 4503599627370497 (-52)
  /\ SFltb (float_of_Z 1) (cosineSimilarity v v) = true.
Proof. vm_compute. split; reflexivity. Qed.

(** With vectors of different lengths a zero vector need not give 0: the
    missing components are NaN. *)
Lemma cosine_length_mismatch :
  cosineSimilarity [float_of_Z 1; float_of_Z 1] [fzero] = fNaN.
Proof. vm_compute. reflexivity. Qed.

(** C7 (amended): the cosine similarity is a total function (it never
    raises); it returns exactly 0 whenever one of the two accumulated
    squared norms is zero, in particular when the first vector is a zero
    vector, or the second one is and has at least the length of the first;
    otherwise it is the binary64 quotient of the accumulated dot product by
    the product of the square roots of the accumulated squares, as
    computed and not clamped.  That quotient is not confined to [-1, 1],
    even for finite vectors of equal length: it is 1.5 for two vectors
    whose squares fall among the subnormal numbers, and NaN for a vector
    whose square overflows. *)
Theorem C7_cosine_zero_norm (a b : list float) :
  (zero_vector a -> cosineSimilarity a b = fzero)
  /\ (zero_vector b -> length a <= length b -> cosineSimilarity a b = fzero)
  /\ (forall dot na nb,
        cosine_sums a b fzero fzero fzero = (dot, na, nb) ->
        cosineSimilarity a b
        = if is_zero na || is_zero nb then fzero
          else fdiv dot (fmul (fsqrt na) (fsqrt nb)))
  /\ (Forall finite_entry tiny_u /\ Forall finite_entry tiny_v
      /\ length tiny_u = length tiny_v
      /\ cosineSimilarity tiny_u tiny_v = float_of_scaled 3 (-1))
  /\ (Forall finite_entry huge_u /\ cosineSimilarity huge_u huge_u = fNaN).
Proof.
  split; [|split; [|split; [|split]]].
  - intros Ha. pose proof (cosine_sums_na_zero a Ha b fzero fzero) as Hna.
    unfold cosineSimilarity.
    destruct (cosine_sums a b fzero fzero fzero) as [[dot na] nb].
    simpl in Hna. subst na. done.
  - intros Hb Hlen.
    pose proof (cosine_sums_nb_zero a b fzero fzero Hb Hlen) as Hnb.
    unfold cosineSimilarity.
    destruct (cosine_sums a b fzero fzero fzero) as [[dot na] nb].
    simpl in Hnb. subst nb. by rewrite orb_true_r.
  - intros dot na nb E. unfold cosineSimilarity. by rewrite E.
  - split; [vm_compute; by repeat constructor|].
    split; [vm_compute; by repeat constructor|].
    split; [done|]. vm_compute. reflexivity.
  - split; [vm_compute; by repeat constructor|]. vm_compute. reflexivity.
Qed.

Lemma C7_witness :
  cosineSimilarity [S754_zero true; fzero] [float_of_Z 1; float_of_Z 2] = fzero
  /\ cosineSimilarity [float_of_Z 1; float_of_Z 2] [fzero; S754_zero true; fzero] = fzero.
Proof.
  split.
  - apply (proj1 (C7_cosine_zero_norm _ _)). by repeat constructor.
  - apply (proj1 (proj2 (C7_cosine_zero_norm _ _))); [by repeat constructor|].
    simpl. lia.
Defined.

(** ** Adaptive chunk sizing *)

Lemma clampInt_range v def lo hi :
  (lo <= def <= hi)%Z -> (lo <= clampInt v def lo hi <= hi)%Z.
Proof. intros Hd. destruct v; simpl; lia. Qed.

Lemma Qtrunc_inject_Z z : Qtrunc (inject_Z z) = z.
Proof. unfold Qtrunc. simpl. apply Z.quot_1_r. Qed.

Lemma clampInt_integer z def lo hi :
  clampInt (JFin (inject_Z z)) def lo hi = Z.max lo (Z.min hi z).
Proof. unfold clampInt. by rewrite Qtrunc_inject_Z. Qed.

Lemma TARGET_CHUNKS_range `{Env} : (30 <= TARGET_CHUNKS <= 800)%Z.
Proof. apply clampInt_range. lia. Qed.

Lemma TOP_K_range `{Env} : (3 <= TOP_K <= 20)%Z.
Proof. apply clampInt_range. lia. Qed.

Lemma PER_DOC_CAP_range `{Env} : (1 <= PER_DOC_CAP <= 10)%Z.
Proof. apply clampInt_range. lia. Qed.

Lemma Qceiling_div a b :
  (0 < b)%Z -> Qceiling (Qdiv (inject_Z a) (inject_Z b)) = ceil_div a b.
Proof.
  intros Hb. destruct b as [|p|p]; try lia.
  unfold ceil_div, Qceiling, Qfloor, Qdiv, Qmult, Qinv, Qopp, inject_Z. simpl.
  by rewrite Z.mul_1_r.
Qed.

Lemma ceil_div_rounds_up a b : (0 < b)%Z -> ceil_div a b = ((a + b - 1) / b)%Z.
Proof.
  intros Hb. unfold ceil_div.
  pose proof (Z.div_mod (- a) b ltac:(lia)) as Hdm.
  pose proof (Z.mod_pos_bound (- a) b Hb) as Hm.
  apply (Z.div_unique_pos _ _ _ (b - 1 - (- a) mod b)%Z); nia.
Qed.

Lemma chunk_size_exact `{Env} total :
  chunk_size total = Z.max 800 (Z.min 3200 (ceil_div total TARGET_CHUNKS)).
Proof.
  pose proof TARGET_CHUNKS_range as Ht.
  unfold chunk_size, js_div.
  destruct (Z.eqb_spec TARGET_CHUNKS 0) as [E|_]; [lia|].
  unfold Math_ceil. rewrite clampInt_integer, Qceiling_div by lia. done.
Qed.

Lemma overlap_exact c :
  overlap_of c = Z.max 80 (Z.min 450 (12 * c / 100)).
Proof.
  unfold overlap_of, Math_floor. rewrite clampInt_integer.
  unfold Qfloor, Qmult, inject_Z. simpl Qnum. simpl Qden.
  by rewrite (Z.mul_comm c 12).
Qed.

Lemma chunk_size_range `{Env} total : (800 <= chunk_size total <= 3200)%Z.
Proof. apply clampInt_range. lia. Qed.

Lemma overlap_range c : (80 <= overlap_of c <= 450)%Z.
Proof. apply clampInt_range. lia. Qed.

(** The exact product in [overlap_of] is the product of the source on
    binary64 numbers, for every chunk size the builder can compute. *)
Lemma overlap_binary64 c :
  (800 <= c <= 3200)%Z ->
  float_floor (fmul (float_of_Z c) d0_12) = Some (12 * c / 100)%Z.
Proof.
  intros Hc.
  assert (Hall : forallb (fun n =>
            let z := (800 + Z.of_nat n)%Z in
            match float_floor (fmul (float_of_Z z) d0_12) with
            | Some t => (t =? 12 * z / 100)%Z
            | None => false
            end) (seq 0 2401) = true) by (vm_compute; reflexivity).
  rewrite forallb_forall in Hall.
  specialize (Hall (Z.to_nat (c - 800))). rewrite in_seq in Hall.
  specialize (Hall ltac:(lia)). cbv zeta in Hall.
  replace (800 + Z.of_nat (Z.to_nat (c - 800)))%Z with c in Hall by lia.
  destruct (float_floor _) as [t|]; [|done].
  apply Z.eqb_eq in Hall. by subst.
Qed.

(** The exact ceiling in [chunk_size] is the ceiling of the binary64
    quotient at the totals where it changes, for the default target of 150
    chunks. *)
Lemma chunk_size_binary64 k :
  (0 <= k <= 3300)%Z ->
  float_ceil (fdiv (float_of_Z (150 * k)) (float_of_Z 150)) = Some k
  /\ float_ceil (fdiv (float_of_Z (150 * k + 1)) (float_of_Z 150)) = Some (k + 1)%Z.
Proof.
  intros Hk.
  assert (Hall : forallb (fun n =>
            let z := Z.of_nat n in
            match float_ceil (fdiv (float_of_Z (150 * z)) (float_of_Z 150)),
                  float_ceil (fdiv (float_of_Z (150 * z + 1)) (float_of_Z 150)) with
            | Some t, Some u => (t =? z)%Z && (u =? z + 1)%Z
            | _, _ => false
            end) (seq 0 3301) = true) by (vm_compute; reflexivity).
  rewrite forallb_forall in Hall.
  specialize (Hall (Z.to_nat k)). rewrite in_seq in Hall.
  specialize (Hall ltac:(lia)). cbv zeta in Hall.
  rewrite Z2Nat.id in Hall by lia.
  destruct (float_ceil (fdiv (float_of_Z (150 * k)) _)) as [t|]; [|done].
  destruct (float_ceil (fdiv (float_of_Z (150 * k + 1)) _)) as [u|]; [|done].
  apply andb_true_iff in Hall as [Ht Hu].
  apply Z.eqb_eq in Ht, Hu. by subst.
Qed.

(** C4, as stated, fails on the overlap.  With no variable set the target
    is 150 chunks; a corpus of 120750 characters gives a chunk size of 805,
    and 0.12 * 805 = 96.6: the code takes the floor, 96, where rounding
    gives 97. *)
Lemma C4_counterexample :
  @chunk_size default_env 120750 = 805%Z
  /\ overlap_of 805 = 96%Z
  /\ spec_overlap 805 = 97%Z
  /\ overlap_of (@chunk_size default_env 120750)
     <> spec_overlap (@chunk_size default_env 120750).
Proof. vm_compute. repeat split; discriminate. Qed.

(** The chunk size is the ceiling of the quotient, not its integer part:
    150001 characters for 150 chunks give 1001. *)
Lemma chunk_size_rounds_up :
  @chunk_size default_env 150001 = 1001%Z /\ (150001 / 150 = 1000)%Z.
Proof. vm_compute. split; reflexivity. Qed.

(** C4 (amended): the chunk size is the ceiling of
    [totalCorpusChars / targetChunkCount] clamped to [800, 3200]; the
    overlap is the floor of [0.12 * chunkSizeChars], which lies in
    [96, 384], so that the clamp to [80, 450] never acts; the defaults 1400
    and 180 stand for a non-finite argument, which the quotient by a target
    of at least 30 never is. *)
Theorem C4_adaptive_sizing `{Env} (total : Z) :
  chunk_size total = Z.max 800 (Z.min 3200 (ceil_div total TARGET_CHUNKS))
  /\ ceil_div total TARGET_CHUNKS = ((total + TARGET_CHUNKS - 1) / TARGET_CHUNKS)%Z
  /\ overlap_of (chunk_size total) = (12 * chunk_size total / 100)%Z
  /\ (96 <= overlap_of (chunk_size total) <= 384)%Z
  /\ (exists q, js_div total TARGET_CHUNKS = JFin q)
  /\ clampInt JNaN 1400 800 3200 = 1400%Z
  /\ clampInt JNaN 180 80 450 = 180%Z.
Proof.
  pose proof TARGET_CHUNKS_range as Ht.
  pose proof (chunk_size_range total) as Hc.
  split; [apply chunk_size_exact|].
  split; [apply ceil_div_rounds_up; lia|].
  rewrite overlap_exact.
  assert (Hb : (96 <= 12 * chunk_size total / 100 <= 384)%Z).
  { split; [apply Z.div_le_lower_bound|apply Z.div_le_upper_bound]; lia. }
  split; [lia|]. split; [lia|].
  split; [|split; reflexivity].
  unfold js_div. destruct (Z.eqb_spec TARGET_CHUNKS 0); [lia|eauto].
Qed.

(** ** The chunker calls of the builder *)

Lemma chunker_calls_args size overlap docs :
  Forall (fun call => call.1.2 = size /\ call.2 = overlap)
    (chunker_calls size overlap docs).
Proof.
  unfold chunker_calls. induction docs as [|d docs IH]; simpl; by constructor.
Qed.

(** The second loop of the builder runs the chunker on exactly these
    calls. *)
Lemma chunk_docs_calls size overlap docs cs :
  chunk_docs size overlap docs = Some cs ->
  Forall (fun call => is_Some (chunkByParagraphs call.1.1 call.1.2 call.2))
    (chunker_calls size overlap docs).
Proof.
  revert cs. induction docs as [|d docs IH]; intros cs; [by constructor|].
  simpl. destruct (chunkByParagraphs (d_text d) size overlap) eqn:E; [|done].
  destruct (chunk_docs size overlap docs) eqn:E2; [|done].
  intros _. constructor; [simpl; rewrite E; by eexists|by eapply IH].
Qed.

(** C10: whatever the corpus and the environment, the builder computes a
    chunk size in [800, 3200] and an overlap in [80, 450] (the defaults
    1400 and 180 of [clampInt] lie in these ranges too), so that every call
    of the chunker it makes has a positive overlap below its chunk size. *)
Theorem C10_chunker_precondition `{Env} (docs : list Doc) :
  let size := chunk_size (Z.of_nat (total_chars docs)) in
  let overlap := overlap_of size in
  (800 <= size <= 3200)%Z
  /\ (80 <= overlap <= 450)%Z
  /\ (overlap < size)%Z
  /\ Forall (fun call => 0 < call.2 /\ call.2 < call.1.2)
       (chunker_calls (Z.to_nat size) (Z.to_nat overlap) docs)
  /\ (forall v, (800 <= clampInt v 1400 800 3200 <= 3200)%Z
                /\ (80 <= clampInt v 180 80 450 <= 450)%Z).
Proof.
  intros size overlap.
  pose proof (chunk_size_range (Z.of_nat (total_chars docs))) as Hs.
  pose proof (overlap_range size) as Ho.
  fold size in Hs. fold overlap in Ho.
  repeat split; try lia.
  - eapply Forall_impl; [apply chunker_calls_args|].
    intros call [-> ->]. lia.
  - apply clampInt_range; lia.
  - apply clampInt_range; lia.
  - apply clampInt_range; lia.
  - apply clampInt_range; lia.
Qed.

(** ** Knowledge-base builder *)










(** ** Retriever *)

Section InsertionSort.
Context {A : Type} (gt : A -> A -> bool).

Lemma insert_sorted_perm x l : insert_sorted gt x l ≡ₚ x :: l.
Proof.
  induction l as [|y r IH]; [done|].
  simpl. destruct (gt x y); [|done].
  rewrite IH. apply Permutation_swap.
Qed.

Lemma js_sort_perm l : js_sort gt l ≡ₚ l.
Proof.
  induction l as [|x l IH]; [done|].
  simpl. rewrite insert_sorted_perm. by rewrite IH.
Qed.

Lemma insert_sorted_HdRel (R : relation A) x y l :
  R y x -> HdRel R y l -> HdRel R y (insert_sorted gt x l).
Proof.
  intros Hx Hl. destruct l as [|z r]; simpl; [by constructor|].
  destruct (gt x z); constructor; [by inversion Hl|done].
Qed.

Lemma insert_sorted_sorted x l :
  Sorted (in_order gt) l -> Sorted (in_order gt) (insert_sorted gt x l).
Proof.
  induction 1 as [|y r Hr IH Hy]; simpl; [by repeat constructor|].
  destruct (gt x y) eqn:E.
  - constructor; [done|]. apply insert_sorted_HdRel; [by right|done].
  - constructor; [by constructor|]. constructor. by left.
Qed.

Lemma js_sort_sorted l : Sorted (in_order gt) (js_sort gt l).
Proof.
  induction l as [|x l IH]; [constructor|].
  simpl. by apply insert_sorted_sorted.
Qed.

(** The place the inserted element takes. *)
Lemma insert_sorted_split x l :
  exists l1 l2, l = l1 ++ l2 /\ insert_sorted gt x l = l1 ++ x :: l2.
Proof.
  induction l as [|y r (l1 & l2 & E1 & E2)]; [by exists [], []|].
  simpl. destruct (gt x y).
  - exists (y :: l1), l2. simpl. by rewrite E1 at 1; rewrite E2.
  - by exists [], (y :: r).
Qed.
End InsertionSort.

(** ** The sort of the engine *)

Section SortFacts.
Context {A : Type} (cmp : A -> A -> float).

Abbreviation lt := (goes_before cmp).
Abbreviation gt := (goes_after cmp).

(** *** The sort of V8 rearranges *)

Lemma run_extend_app desc prev rest :
  (run_extend cmp desc prev rest).1 ++ (run_extend cmp desc prev rest).2 = rest.
Proof.
  revert prev. induction rest as [|cur r IH]; intros prev; [done|].
  cbn [run_extend].
  destruct (if desc then negb (lt cur prev) else lt cur prev); [done|].
  specialize (IH cur). destruct (run_extend cmp desc cur r) as [run others].
  simpl in *. by rewrite IH.
Qed.

Lemma run_extend_chain desc prev rest :
  chain lt desc prev (run_extend cmp desc prev rest).1.
Proof.
  revert prev. induction rest as [|cur r IH]; intros prev; [done|].
  cbn [run_extend].
  destruct (if desc then negb (lt cur prev) else lt cur prev) eqn:E; [done|].
  specialize (IH cur). destruct (run_extend cmp desc cur r) as [run others].
  simpl in *. split; [|done].
  destruct desc, (lt cur prev); done.
Qed.

(** What [CountAndMakeRun] finds: a chain at the start of the array. *)
Lemma count_and_make_run_shape x0 x1 r :
  exists run others,
    r = run ++ others
    /\ chain lt (lt x1 x0) x1 run
    /\ count_and_make_run cmp (x0 :: x1 :: r)
       = (if lt x1 x0 then rev (x0 :: x1 :: run) else x0 :: x1 :: run, others).
Proof.
  exists (run_extend cmp (lt x1 x0) x1 r).1, (run_extend cmp (lt x1 x0) x1 r).2.
  split; [by rewrite run_extend_app|]. split; [apply run_extend_chain|].
  unfold count_and_make_run. by destruct (run_extend cmp (lt x1 x0) x1 r).
Qed.

Lemma insert_pivot_perm sorted pivot : insert_pivot cmp sorted pivot ≡ₚ pivot :: sorted.
Proof.
  unfold insert_pivot.
  rewrite <- Permutation_middle. by rewrite take_drop.
Qed.

Lemma binary_insertion_sort_perm others :
  forall run, binary_insertion_sort cmp run others ≡ₚ run ++ others.
Proof.
  unfold binary_insertion_sort.
  induction others as [|x r IH]; intros run; simpl; [by rewrite app_nil_r|].
  rewrite IH, insert_pivot_perm. by rewrite <- Permutation_middle.
Qed.

Lemma v8_sort_perm l : v8_sort cmp l ≡ₚ l.
Proof.
  unfold v8_sort. destruct l as [|x0 [|x1 r]]; [done..|].
  destruct (count_and_make_run_shape x0 x1 r) as (run & others & -> & _ & ->).
  rewrite binary_insertion_sort_perm.
  destruct (lt x1 x0); [|done].
  change (x0 :: x1 :: run ++ others) with ((x0 :: x1 :: run) ++ others).
  apply Permutation_app_tail. symmetry. apply Permutation_rev.
Qed.

(** *** A consistent comparator *)

Section Consistent.
Variable l : list A.
Hypothesis Hc : consistent_on cmp l = true.

Abbreviation within L := (Forall (fun y => In y l) L).

Lemma consistent_on_at a b c :
  In a l -> In b l -> In c l -> consistent_at cmp a b c = true.
Proof.
  intros Ha Hb Hcc. unfold consistent_on in Hc.
  rewrite forallb_forall in Hc. specialize (Hc a Ha).
  rewrite forallb_forall in Hc. specialize (Hc b Hb).
  rewrite forallb_forall in Hc. by apply Hc.
Qed.

Lemma lt_irrefl a : In a l -> lt a a = false.
Proof.
  intros Ha. pose proof (consistent_on_at a a a Ha Ha Ha) as H.
  unfold consistent_at, ties in H. by destruct (lt a a), (gt a a), (is_nan _).
Qed.

Lemma lt_trans a b c :
  In a l -> In b l -> In c l -> lt a b = true -> lt b c = true -> lt a c = true.
Proof.
  intros Ha Hb Hcc Hab Hbc. pose proof (consistent_on_at a b c Ha Hb Hcc) as H.
  unfold consistent_at in H. rewrite Hab, Hbc in H.
  rewrite !andb_true_iff in H. destruct H as [[_ H] _].
  by destruct (lt a c).
Qed.

Lemma gt_lt a b : In a l -> In b l -> gt a b = lt b a.
Proof.
  intros Ha Hb.
  pose proof (consistent_on_at a b a Ha Hb Ha) as H1.
  pose proof (consistent_on_at b a b Hb Ha Hb) as H2.
  unfold consistent_at in H1, H2. rewrite !andb_true_iff in H1, H2.
  destruct H1 as [[[[_ _] H1] _] _]. destruct H2 as [[[[_ H2] _] _] _].
  by destruct (gt a b), (lt b a).
Qed.

Lemma lt_asym a b : In a l -> In b l -> lt a b = true -> lt b a = false.
Proof.
  intros Ha Hb Hab. destruct (lt b a) eqn:Hba; [|done].
  by rewrite <- (lt_irrefl a Ha), <- (lt_trans a b a Ha Hb Ha Hab Hba).
Qed.

Lemma ties_trans a b c :
  In a l -> In b l -> In c l ->
  ties cmp a b = true -> ties cmp b c = true -> ties cmp a c = true.
Proof.
  intros Ha Hb Hcc Hab Hbc. pose proof (consistent_on_at a b c Ha Hb Hcc) as H.
  unfold consistent_at in H. rewrite Hab, Hbc in H.
  rewrite !andb_true_iff in H. destruct H as [[[[[_ H] _] _] _] _].
  by destruct (ties cmp a c).
Qed.

(** [a] is not after [b], [b] is not after [c]: [a] is not after [c]. *)
Lemma le_trans a b c :
  In a l -> In b l -> In c l -> lt b a = false -> lt c b = false -> lt c a = false.
Proof.
  intros Ha Hb Hcc Hba Hcb. destruct (lt c a) eqn:Hca; [|done].
  destruct (lt a b) eqn:Hab.
  - by rewrite <- Hcb, (lt_trans c a b Hcc Ha Hb Hca Hab).
  - destruct (lt b c) eqn:Hbc.
    + by rewrite <- Hba, (lt_trans b c a Hb Hcc Ha Hbc Hca).
    + assert (ties cmp a c = true) as Ht.
      { apply (ties_trans a b c Ha Hb Hcc); unfold ties.
        * by rewrite Hab, (gt_lt a b Ha Hb), Hba.
        * by rewrite Hbc, (gt_lt b c Hb Hcc), Hcb. }
      unfold ties in Ht. rewrite (gt_lt a c Ha Hcc), Hca in Ht.
      by destruct (lt a c).
Qed.

(** *** Inserting from the left and from the right *)

Lemma insert_commute a x L :
  In a l -> In x l -> within L ->
  insert_sorted gt a (insert_last lt x L) = insert_last lt x (insert_sorted gt a L).
Proof.
  intros Ha Hx HL. induction HL as [|y r Hy Hr IH]; simpl.
  - rewrite (gt_lt a x Ha Hx). by destruct (lt x a).
  - destruct (lt x y) eqn:Hxy; destruct (gt a y) eqn:Hay; simpl.
    + rewrite Hxy, Hay. rewrite (gt_lt a x Ha Hx).
      destruct (lt x a) eqn:Hxa; [done|].
      rewrite (gt_lt a y Ha Hy) in Hay.
      pose proof (lt_trans x y a Hx Hy Ha Hxy Hay). congruence.
    + rewrite Hay. rewrite (gt_lt a x Ha Hx).
      destruct (lt x a) eqn:Hxa; [done|]. by rewrite Hxy.
    + rewrite Hay, Hxy. by rewrite IH.
    + rewrite Hay. rewrite (gt_lt a y Ha Hy) in Hay.
      rewrite (le_trans a y x Ha Hy Hx Hay Hxy). by rewrite Hxy.
Qed.

Lemma js_sort_within L : within L -> within (js_sort gt L).
Proof. intros HL. by rewrite (js_sort_perm gt L). Qed.

Lemma js_sort_snoc L x :
  within L -> In x l -> js_sort gt (L ++ [x]) = insert_last lt x (js_sort gt L).
Proof.
  intros HL Hx. induction HL as [|a r Ha Hr IH]; [done|].
  simpl. rewrite IH. apply insert_commute; [done..|]. by apply js_sort_within.
Qed.

(** *** The sorted arrangement *)

Abbreviation le := (fun u v => lt v u = false).

Lemma insert_sorted_strongly x L :
  In x l -> within L ->
  StronglySorted le L -> StronglySorted le (insert_sorted gt x L).
Proof.
  intros Hx HL HS. induction HS as [|y r Hr IH Hy]; simpl.
  - by repeat constructor.
  - inversion HL as [|? ? Hyl Hrl]; subst.
    destruct (gt x y) eqn:Hxy.
    + rewrite (gt_lt x y Hx Hyl) in Hxy.
      constructor; [by apply IH|].
      rewrite (insert_sorted_perm gt x r). constructor; [|done].
      by apply lt_asym.
    + rewrite (gt_lt x y Hx Hyl) in Hxy.
      constructor; [by constructor|]. constructor; [done|].
      rewrite List.Forall_forall in Hy, Hrl |- *. intros z Hz.
      apply (le_trans x y z); auto.
Qed.

Lemma js_sort_strongly L : within L -> StronglySorted le (js_sort gt L).
Proof.
  intros HL. induction HL as [|x r Hx Hr IH]; [constructor|].
  simpl. apply insert_sorted_strongly; [done| |done]. by apply js_sort_within.
Qed.

(** In a sorted list, the elements [x] goes before come last. *)
Lemma sorted_mono x L :
  In x l -> within L -> StronglySorted le L ->
  forall i j u v,
    i <= j -> L !! i = Some u -> L !! j = Some v ->
    lt x u = true -> lt x v = true.
Proof.
  intros Hx HL HS. induction HS as [|y r Hr IH Hy]; intros i j u v Hij Hi Hj Hxu.
  - done.
  - inversion HL as [|? ? Hyl Hrl]; subst.
    destruct i as [|i]; destruct j as [|j]; simpl in *; try lia.
    + congruence.
    + injection Hi as ->.
      assert (In v l) as Hv.
      { rewrite List.Forall_forall in Hrl. apply Hrl.
        apply list_elem_of_In. by eapply list_elem_of_lookup_2. }
      assert (lt v u = false) as Huv.
      { rewrite List.Forall_forall in Hy. apply Hy.
        apply list_elem_of_In. by eapply list_elem_of_lookup_2. }
      destruct (lt x v) eqn:Hxv; [done|].
      by rewrite <- Hxu, (le_trans u v x Hyl Hv Hx Huv Hxv).
    + apply (IH Hrl i j u v); [lia|done..].
Qed.

Lemma binary_search_spec L x :
  (forall i j u v, i <= j -> L !! i = Some u -> L !! j = Some v ->
                   lt x u = true -> lt x v = true) ->
  forall fuel left right,
    right - left <= fuel -> left <= right -> right <= length L ->
    (forall i y, i < left -> L !! i = Some y -> lt x y = false) ->
    (forall i y, right <= i -> L !! i = Some y -> lt x y = true) ->
    let k := binary_search cmp fuel L x left right in
    k <= length L
    /\ (forall i y, i < k -> L !! i = Some y -> lt x y = false)
    /\ (forall i y, k <= i -> L !! i = Some y -> lt x y = true).
Proof.
  intros Hmono. induction fuel as [|fuel IH]; intros left right Hf Hlr Hr Hlo Hhi.
  - simpl. assert (left = right) as -> by lia. done.
  - cbn [binary_search]. destruct (Nat.ltb_spec left right) as [Hlt|Hge].
    2:{ assert (left = right) as -> by lia. done. }
    set (mid := left + (right - left) / 2).
    assert (left <= mid < right) as Hmid.
    { pose proof (Nat.div_lt (right - left) 2 ltac:(lia) ltac:(lia)).
      unfold mid. lia. }
    destruct (L !! mid) as [y|] eqn:Hy.
    2:{ apply lookup_ge_None in Hy. lia. }
    destruct (lt x y) eqn:Hxy.
    + apply IH; [lia|lia|lia|done|].
      intros i z Hi Hz. by apply (Hmono mid i y z).
    + apply IH; [lia|lia|lia| |done].
      intros i z Hi Hz. destruct (lt x z) eqn:Hxz; [|done].
      by rewrite <- Hxy, (Hmono i mid z y ltac:(lia) Hz Hy Hxz).
Qed.

Lemma insert_last_at x L :
  forall k,
    k <= length L ->
    (forall i y, i < k -> L !! i = Some y -> lt x y = false) ->
    (forall i y, k <= i -> L !! i = Some y -> lt x y = true) ->
    insert_last lt x L = take k L ++ x :: drop k L.
Proof.
  induction L as [|y r IH]; intros k Hk Hlo Hhi.
  - by destruct k.
  - destruct k as [|k]; simpl.
    + by rewrite (Hhi 0 y).
    + rewrite (Hlo 0 y) by (done || lia). f_equal.
      apply IH; [simpl in Hk; lia| |].
      * intros i z Hi Hz. apply (Hlo (S i) z); [lia|done].
      * intros i z Hi Hz. apply (Hhi (S i) z); [lia|done].
Qed.

(** On a sorted list the binary search finds the place of [insert_last]. *)
Lemma insert_pivot_last x L :
  In x l -> within L -> StronglySorted le L ->
  insert_pivot cmp L x = insert_last lt x L.
Proof.
  intros Hx HL HS. unfold insert_pivot. symmetry.
  destruct (binary_search_spec L x (sorted_mono x L Hx HL HS)
              (length L) 0 (length L)) as (Hk & Hlo & Hhi); [lia..| | |].
  - intros i y Hi. lia.
  - intros i y Hi Hy. apply lookup_lt_Some in Hy. lia.
  - by apply insert_last_at.
Qed.

Lemma binary_insertion_sort_sorted others :
  forall pre,
    within pre -> within others ->
    binary_insertion_sort cmp (js_sort gt pre) others = js_sort gt (pre ++ others).
Proof.
  unfold binary_insertion_sort.
  induction others as [|x r IH]; intros pre Hp Ho; simpl; [by rewrite app_nil_r|].
  inversion Ho as [|? ? Hx Hr]; subst.
  rewrite insert_pivot_last; [|done|by apply js_sort_within|by apply js_sort_strongly].
  rewrite <- js_sort_snoc by done.
  rewrite IH; [|apply Forall_app; by split; [|repeat constructor]|done].
  by rewrite <- app_assoc.
Qed.

(** *** Runs *)

Lemma js_sort_ascending run :
  forall prev,
    In prev l -> within run -> chain lt false prev run ->
    js_sort gt (prev :: run) = prev :: run.
Proof.
  induction run as [|cur r IH]; intros prev Hp Hr Hch; [done|].
  inversion Hr as [|? ? Hcur Hrl]; subst. destruct Hch as [Hlt Hch].
  change (js_sort gt (prev :: cur :: r))
    with (insert_sorted gt prev (js_sort gt (cur :: r))).
  rewrite (IH cur Hcur Hrl Hch). simpl.
  by rewrite (gt_lt prev cur Hp Hcur), Hlt.
Qed.

Lemma chain_descending_all run :
  forall prev,
    In prev l -> within run -> chain lt true prev run ->
    Forall (fun y => lt y prev = true) run.
Proof.
  induction run as [|cur r IH]; intros prev Hp Hr Hch; [constructor|].
  inversion Hr as [|? ? Hcur Hrl]; subst. destruct Hch as [Hlt Hch].
  constructor; [done|].
  pose proof (IH cur Hcur Hrl Hch) as Hall.
  rewrite List.Forall_forall in Hall, Hrl |- *. intros y Hy.
  apply (lt_trans y cur prev); auto.
Qed.

Lemma insert_sorted_end x L :
  Forall (fun y => gt x y = true) L -> insert_sorted gt x L = L ++ [x].
Proof.
  induction 1 as [|y r Hy Hr IH]; [done|]. simpl. by rewrite Hy, IH.
Qed.

Lemma js_sort_descending run :
  forall prev,
    In prev l -> within run -> chain lt true prev run ->
    js_sort gt (prev :: run) = rev (prev :: run).
Proof.
  induction run as [|cur r IH]; intros prev Hp Hr Hch; [done|].
  pose proof (chain_descending_all _ prev Hp Hr Hch) as Hall.
  inversion Hr as [|? ? Hcur Hrl]; subst. destruct Hch as [Hlt Hch].
  change (js_sort gt (prev :: cur :: r))
    with (insert_sorted gt prev (js_sort gt (cur :: r))).
  rewrite (IH cur Hcur Hrl Hch).
  change (rev (prev :: cur :: r)) with (rev (cur :: r) ++ [prev]).
  apply insert_sorted_end. apply Forall_rev.
  rewrite List.Forall_forall in Hall, Hr |- *. intros y Hy.
  rewrite (gt_lt prev y Hp (Hr y Hy)). by apply Hall.
Qed.

Lemma v8_sort_within w : within w -> v8_sort cmp w = js_sort gt w.
Proof.
  intros Hl. unfold v8_sort. destruct w as [|x0 [|x1 r]]; [done..|].
  destruct (count_and_make_run_shape x0 x1 r) as (run & others & -> & Hch & ->).
  change (x0 :: x1 :: run ++ others) with ((x0 :: x1 :: run) ++ others) in *.
  apply Forall_app in Hl as [Hw Ho].
  inversion Hw as [|? ? H0 Hw1]; subst. inversion Hw1 as [|? ? H1 Hrun]; subst.
  replace (if lt x1 x0 then rev (x0 :: x1 :: run) else x0 :: x1 :: run)
    with (js_sort gt (x0 :: x1 :: run)).
  - by rewrite binary_insertion_sort_sorted.
  - destruct (lt x1 x0) eqn:E.
    + by apply js_sort_descending.
    + by apply js_sort_ascending.
Qed.

(** For a consistent comparator the sort of V8 gives the sorted
    arrangement that keeps equal elements in their order. *)
Lemma v8_sort_consistent : v8_sort cmp l = js_sort gt l.
Proof. apply v8_sort_within. apply List.Forall_forall. auto. Qed.
End Consistent.
End SortFacts.

#[export] Instance v8_sort_laws : @SortLaws v8_engine.
Proof.
  split.
  - intros A cmp l. apply v8_sort_perm.
  - intros A cmp l Hc. by apply v8_sort_consistent.
Qed.

Lemma count_doc_app d l1 l2 : count_doc d (l1 ++ l2) = count_doc d l1 + count_doc d l2.
Proof. unfold count_doc. by rewrite List.filter_app, length_app. Qed.

Lemma count_doc_single d s :
  count_doc d [s] = if bool_decide (s_doc s = d) then 1 else 0.
Proof. unfold count_doc, str_eqb. simpl. by destruct (bool_decide _). Qed.

Section Selection.
Variables topK cap : nat.

Lemma greedy_select_full l acc :
  topK <= length acc -> greedy_select topK cap l acc = acc.
Proof.
  intros Hf. destruct l as [|s rest]; [done|].
  simpl. by destruct (Nat.leb_spec topK (length acc)); [|lia].
Qed.

Lemma greedy_select_cap l :
  forall acc,
    (forall d, count_doc d acc <= cap) ->
    forall d, count_doc d (greedy_select topK cap l acc) <= cap.
Proof.
  induction l as [|s rest IH]; intros acc Hacc d; [apply Hacc|].
  simpl. destruct (topK <=? length acc); [apply Hacc|].
  destruct (Nat.leb_spec cap (count_doc (s_doc s) acc)) as [Hc|Hc].
  - by apply IH.
  - apply IH. intros d'. rewrite count_doc_app, count_doc_single.
    case_bool_decide as Hd; [subst d'; lia|]. specialize (Hacc d'). lia.
Qed.

Lemma greedy_select_length l :
  forall acc, length (greedy_select topK cap l acc) <= Nat.max topK (length acc).
Proof.
  induction l as [|s rest IH]; intros acc; simpl; [lia|].
  destruct (Nat.leb_spec topK (length acc)) as [Hf|Hf]; [lia|].
  destruct (cap <=? count_doc (s_doc s) acc).
  - apply IH.
  - etrans; [apply IH|]. rewrite length_app. simpl. lia.
Qed.

Lemma greedy_select_sublist l :
  forall acc, exists l', greedy_select topK cap l acc = acc ++ l' /\ sublist l' l.
Proof.
  induction l as [|s rest IH]; intros acc; simpl.
  - exists []. by rewrite app_nil_r.
  - destruct (topK <=? length acc).
    + exists []. rewrite app_nil_r. split; [done|apply sublist_nil_l].
    + destruct (cap <=? count_doc (s_doc s) acc).
      * destruct (IH acc) as (l' & E & Hs). exists l'. split; [done|].
        by apply sublist_cons.
      * destruct (IH (acc ++ [s])) as (l' & E & Hs). exists (s :: l').
        split; [by rewrite E, <- app_assoc|]. by apply sublist_skip.
Qed.
End Selection.

(** The loop of the source, with its map and its [break], computes the
    selection the specification words. *)
Lemma pick_greedy (topK cap : Z) l :
  forall picked perDoc,
    counts_picked perDoc picked ->
    (Z.of_nat (length picked) < topK)%Z ->
    pick topK cap l picked perDoc
    = greedy_select (Z.to_nat topK) (Z.to_nat cap) l picked.
Proof.
  induction l as [|s rest IH]; intros picked perDoc Hinv Hlen; [done|].
  simpl.
  destruct (Nat.leb_spec (Z.to_nat topK) (length picked)) as [Hf|_]; [lia|].
  rewrite (Hinv (s_doc s)).
  destruct (Z.leb_spec cap (Z.of_nat (count_doc (s_doc s) picked))) as [Hc|Hc];
    destruct (Nat.leb_spec (Z.to_nat cap) (count_doc (s_doc s) picked)) as [Hc'|Hc'];
    try lia.
  - by apply IH.
  - destruct (Z.leb_spec topK (Z.of_nat (length (picked ++ [s])))) as [Ht|Ht].
    + symmetry. apply greedy_select_full. lia.
    + apply IH; [|done].
      intros d. rewrite count_doc_app, count_doc_single.
      destruct (decide (s_doc s = d)) as [->|Hne].
      * rewrite lookup_insert_eq, bool_decide_true by done. done.
      * rewrite lookup_insert_ne, bool_decide_false by done.
        rewrite (Hinv d). lia.
Qed.

(** The scenario of the specification: the two best chunks of A, then the
    two chunks of B, although A holds the five highest ranks. *)
Lemma retrieve_scenario :
  option_map (map (fun s => (s_doc s, s_chunkIndex s)))
    (@retrieve scenario_env v8_engine scenario_kb (str "question"))
  = Some [(str "A", 3); (str "A", 1); (str "B", 1); (str "B", 0)].
Proof. vm_compute. reflexivity. Qed.

(** With scores 0.316, 0.447, NaN, 0.707 and 1 in this order, the sort of
    V8 leaves the chunk of score NaN last. *)
Lemma ranked_with_nan :
  option_map (map s_doc)
    (@ranked v8_engine (Some [float_of_Z 1; float_of_Z 0])
       {| meta := meta nan_kb;
          chunks := [ scenario_chunk "D0" 0 3; scenario_chunk "D1" 0 2; short_chunk "D2";
                      scenario_chunk "D3" 0 1; scenario_chunk "D4" 0 0 ] |})
  = Some [str "D4"; str "D3"; str "D1"; str "D0"; str "D2"].
Proof. vm_compute. reflexivity. Qed.

(** The vector stored for document b is shorter than the query vector, so
    its score is NaN and the comparator is not consistent.  Under the sort
    of V8 the chunk of document c, of score 0.707, stays behind the chunks
    of a (0.447) and b (NaN) and before none of them: with [topK = 3] the
    retrieval returns a, b and d and leaves c out, although every
    document has one chunk only. *)
Lemma C3_counterexample :
  exists sa sb sc sd,
    score_all (Some [float_of_Z 1; float_of_Z 0]) (chunks nan_kb) = Some [sa; sb; sc; sd]
    /\ map s_doc [sa; sb; sc; sd] = [str "a"; str "b"; str "c"; str "d"]
    /\ s_score sb = fNaN
    /\ SFltb (s_score sa) (s_score sc) = true
    /\ consistent_on score_compare [sa; sb; sc; sd] = false
    /\ @retrieve nan_env v8_engine nan_kb (str "question") = Some [sa; sb; sd]
    /\ @TOP_K nan_env = 3%Z.
Proof.
  eexists _, _, _, _. split; [vm_compute; reflexivity|].
  repeat split; vm_compute; reflexivity.
Qed.

(** C3 (amended): the result of a retrieval is the greedy selection over
    the scored chunks of the index in the order in which
    [Array.prototype.sort] leaves them under the comparator of the source:
    it takes the chunks in that order, skipping those of a document that
    already has [PER_DOC_CAP] accepted chunks, until [TOP_K] are accepted
    or the list is exhausted; no document has more than [PER_DOC_CAP]
    entries in it, wherever its chunks rank, and it has at most [TOP_K]
    entries.  The order is a rearrangement of the scored chunks; when the
    comparator is consistent on them (which asks that no difference of
    two scores is NaN) it is the stable descending order of the scores:
    no chunk stands before a chunk of a higher score. *)
Theorem C3_diversity_cap `{Env} `{SortLaws} (kb : KB) (query : jsstring)
    (res : list Scored) :
  retrieve kb query = Some res ->
  exists resp scored rk,
    embedBatch [query] = Some resp
    /\ score_all (hd_error resp) (chunks kb) = Some scored
    /\ rk = array_sort score_compare scored
    /\ rk ≡ₚ scored
    /\ (consistent_on score_compare scored = true ->
        rk = js_sort score_after scored
        /\ StronglySorted (fun a b => is_negative (fsub (s_score a) (s_score b)) = false) rk)
    /\ res = greedy_select (Z.to_nat TOP_K) (Z.to_nat PER_DOC_CAP) rk []
    /\ sublist res rk
    /\ (forall d, (Z.of_nat (count_doc d res) <= PER_DOC_CAP)%Z)
    /\ (Z.of_nat (length res) <= TOP_K)%Z.
Proof.
  pose proof TOP_K_range as Hk. pose proof PER_DOC_CAP_range as Hc.
  unfold retrieve, ranked.
  destruct (embedBatch [query]) as [resp|] eqn:Er; [|done].
  destruct (score_all (hd_error resp) (chunks kb)) as [scored|] eqn:Es; [|done].
  intros [= <-]. exists resp, scored, (array_sort score_compare scored).
  rewrite pick_greedy by (done || simpl; lia).
  split; [done|]. split; [done|]. split; [done|].
  split; [apply sort_perm|]. split; [|repeat split].
  - intros Hcons. rewrite (sort_consistent _ _ _ Hcons). split; [done|].
    apply (js_sort_strongly score_compare scored Hcons).
    apply List.Forall_forall. auto.
  - destruct (greedy_select_sublist (Z.to_nat TOP_K) (Z.to_nat PER_DOC_CAP)
                (array_sort score_compare scored) []) as (l' & -> & Hs). done.
  - intros d.
    pose proof (greedy_select_cap (Z.to_nat TOP_K) (Z.to_nat PER_DOC_CAP)
                  (array_sort score_compare scored) [] (fun _ => Nat.le_0_l _) d). lia.
  - pose proof (greedy_select_length (Z.to_nat TOP_K) (Z.to_nat PER_DOC_CAP)
                  (array_sort score_compare scored) []). simpl in *. lia.
Qed.

Lemma C3_witness :
  exists res rk,
    @retrieve scenario_env v8_engine scenario_kb (str "question") = Some res
    /\ sublist res rk
    /\ StronglySorted (fun a b => is_negative (fsub (s_score a) (s_score b)) = false) rk
    /\ (forall d, (Z.of_nat (count_doc d res) <= @PER_DOC_CAP scenario_env)%Z).
Proof.
  destruct (@retrieve scenario_env v8_engine scenario_kb (str "question")) as [res|] eqn:E;
    [|vm_compute in E; discriminate].
  destruct (@C3_diversity_cap scenario_env v8_engine v8_sort_laws scenario_kb
              (str "question") res E)
    as (resp & scored & rk & Hr & Hs & _ & _ & Hord & _ & Hsub & Hcap & _).
  exists res, rk. split; [reflexivity|]. split; [exact Hsub|]. split; [|exact Hcap].
  apply Hord.
  vm_compute in Hr. injection Hr as <-.
  vm_compute in Hs. injection Hs as <-.
  vm_compute. reflexivity.
Defined.

(** ** QA merger *)

Section MergeFacts.
Context {host : Host}.

Lemma keys_after_nil keys : keys_after keys [] = keys.
Proof. unfold keys_after. simpl. set_solver. Qed.

Lemma keys_after_cons keys x acc :
  keys_after ({[ qkey x.2 ]} ∪ keys) acc = keys_after keys (x :: acc).
Proof. unfold keys_after. simpl. set_solver. Qed.

Lemma keys_after_app keys a1 a2 :
  keys_after (keys_after keys a1) a2 = keys_after keys (a1 ++ a2).
Proof. unfold keys_after. rewrite map_app, list_to_set_app_L. set_solver. Qed.

Lemma accepted_app keys l1 l2 :
  accepted keys (l1 ++ l2)
  = accepted keys l1 ++ accepted (keys_after keys (accepted keys l1)) l2.
Proof.
  revert keys. induction l1 as [|x r IH]; intros keys; simpl.
  - by rewrite keys_after_nil.
  - destruct (is_empty (qkey x.2)); [apply IH|].
    case_bool_decide; [apply IH|].
    simpl. by rewrite IH, keys_after_cons.
Qed.

Lemma built_app schema n l1 l2 :
  built schema n (l1 ++ l2) = built schema n l1 ++ built schema (n + length l1) l2.
Proof.
  revert n. induction l1 as [|x r IH]; intros n; simpl.
  - by rewrite Nat.add_0_r.
  - rewrite IH. do 3 f_equal. lia.
Qed.

Lemma built_length schema n l : length (built schema n l) = length l.
Proof. revert n. induction l as [|x r IH]; intros n; simpl; [done|by rewrite IH]. Qed.

(** No accepted record repeats a key of [keys]. *)
Lemma accepted_fresh keys recs :
  Forall (fun x => (qkey x.2 ∉ keys) /\ qkey x.2 <> []) (accepted keys recs).
Proof.
  revert keys. induction recs as [|x r IH]; intros keys; simpl; [constructor|].
  destruct (qkey x.2) as [|c k] eqn:Ek; [apply IH|]. simpl.
  case_bool_decide as Hin; [apply IH|].
  constructor; [by rewrite Ek|].
  eapply Forall_impl; [apply IH|]. simpl. intros y [Hy Hne].
  split; [set_solver|done].
Qed.

(** The inner loop accepts exactly the records of [accepted]. *)
Lemma merge_records_run schema ti qaList :
  forall st,
    Forall (fun qa => is_null qa = false) qaList ->
    let acc := accepted (existingKeys st) (map (fun qa => (ti, qa)) qaList) in
    merge_records schema ti qaList st
    = Some {| newBlocks := newBlocks st ++ built schema (added st) acc;
              existingKeys := keys_after (existingKeys st) acc;
              added := added st + length acc |}.
Proof.
  induction qaList as [|qa r IH]; intros st Hn; simpl.
  - destruct st as [nb ek ad]. simpl.
    by rewrite app_nil_r, Nat.add_0_r, keys_after_nil.
  - inversion Hn as [|? ? Hqa Hr]; subst. rewrite Hqa.
    fold (qkey qa).
    destruct (is_empty (qkey qa)); [by apply IH|].
    case_bool_decide; [by apply IH|].
    rewrite IH by done. simpl.
    rewrite <- app_assoc. simpl.
    rewrite (keys_after_cons (existingKeys st) (ti, qa)).
    do 2 f_equal. lia.
Qed.

Lemma merge_records_null schema ti qaList st :
  merge_records schema ti qaList st <> None ->
  Forall (fun qa => is_null qa = false) qaList.
Proof.
  revert st. induction qaList as [|qa r IH]; intros st; simpl; [constructor|].
  destruct (is_null qa) eqn:Hq; [done|].
  intros Hr. constructor; [done|].
  destruct (is_empty _); [by eapply IH|].
  destruct (bool_decide _); by eapply IH.
Qed.

(** The outer loop accepts exactly the records of [accepted], over the
    records of all the files. *)
Lemma merge_files_run fs schema qaPaths :
  forall st recs,
    all_records fs qaPaths = Some recs ->
    Forall usable recs ->
    let acc := accepted (existingKeys st) recs in
    merge_files fs schema qaPaths st
    = Some {| newBlocks := newBlocks st ++ built schema (added st) acc;
              existingKeys := keys_after (existingKeys st) acc;
              added := added st + length acc |}.
Proof.
  induction qaPaths as [|qp r IH]; intros st recs Hrecs Hu; simpl in *.
  - injection Hrecs as <-. destruct st as [nb ek ad]. simpl.
    by rewrite app_nil_r, Nat.add_0_r, keys_after_nil.
  - destruct (fs !! qp) as [v|]; [|done].
    destruct v as [| | | |l|]; try by apply IH.
    destruct (all_records fs r) as [rest|] eqn:Er; [|done].
    injection Hrecs as <-. apply Forall_app in Hu as [Hl Hrest].
    rewrite merge_records_run.
    2:{ clear -Hl. induction l as [|qa l IH]; [constructor|].
        inversion Hl; subst. constructor; [done|by apply IH]. }
    rewrite (IH _ rest eq_refl Hrest). simpl.
    rewrite accepted_app, built_app, length_app, keys_after_app.
    rewrite <- app_assoc. do 2 f_equal. lia.
Qed.

(** A merge that returns has read every file and met no [null] record. *)
Lemma merge_files_inv fs schema qaPaths :
  forall st,
    merge_files fs schema qaPaths st <> None ->
    exists recs, all_records fs qaPaths = Some recs /\ Forall usable recs.
Proof.
  induction qaPaths as [|qp r IH]; intros st; simpl.
  - intros _. exists []. by split; [|constructor].
  - destruct (fs !! qp) as [v|]; [|done].
    destruct v as [| | | |l|]; try by apply IH.
    destruct (merge_records schema (topicFromFilename qp) l st) as [st'|] eqn:Em; [|done].
    intros Hr. destruct (IH st' Hr) as (rest & -> & Hrest).
    eexists. split; [done|]. apply Forall_app. split; [|done].
    assert (Hl : Forall (fun qa => is_null qa = false) l).
    { apply (merge_records_null schema (topicFromFilename qp) l st). by rewrite Em. }
    clear -Hl. induction Hl; simpl; by constructor.
Qed.

(** The number of accepted records is the number of distinct new keys. *)
Lemma accepted_length keys recs :
  Forall (fun x => qkey x.2 <> []) recs ->
  length (accepted keys recs)
  = base.size ((list_to_set (map (fun x => qkey x.2) recs) : gset jsstring) ∖ keys).
Proof.
  intros Hne. revert keys. induction Hne as [|x r Hx Hr IH]; intros keys; simpl.
  - by rewrite difference_disjoint_L, size_empty by set_solver.
  - destruct (qkey x.2) as [|c k] eqn:Ek; [done|]. simpl.
    case_bool_decide as Hin.
    + rewrite IH. f_equal. set_solver.
    + simpl. rewrite IH.
      replace (({[c :: k]} ∪ list_to_set (map (fun x => qkey x.2) r)) ∖ keys)
        with (({[c :: k]} : gset jsstring) ∪
              (list_to_set (map (fun x => qkey x.2) r) ∖ ({[c :: k]} ∪ keys))).
      * set (D := list_to_set (map (fun x => qkey x.2) r) ∖ ({[c :: k]} ∪ keys)).
        rewrite (size_union ({[c :: k]} : gset jsstring) D) by set_solver.
        by rewrite size_singleton.
      * apply set_eq. intros y. rewrite !elem_of_union, !elem_of_difference,
          !elem_of_union, !elem_of_singleton.
        destruct (decide (y = c :: k)) as [->|Hy]; [tauto|tauto].
Qed.

(** One question asked twice: one record less. *)
Lemma accepted_one_duplicate r1 a r2 b r3 :
  let recs := r1 ++ a :: r2 ++ b :: r3 in
  Forall (fun x => qkey x.2 <> []) recs ->
  qkey a.2 = qkey b.2 ->
  NoDup (map (fun x => qkey x.2) (r1 ++ a :: r2 ++ r3)) ->
  length (accepted ∅ recs) = length recs - 1.
Proof.
  intros recs Hne Hab Hnd. rewrite accepted_length by done.
  rewrite difference_empty_L.
  replace (list_to_set (map (fun x => qkey x.2) recs) : gset jsstring)
    with (list_to_set (map (fun x => qkey x.2) (r1 ++ a :: r2 ++ r3)) : gset jsstring).
  - rewrite size_list_to_set by done. unfold recs.
    rewrite length_map, !length_app. simpl. rewrite !length_app. simpl. lia.
  - unfold recs. rewrite !map_app. simpl. rewrite !map_app. simpl.
    rewrite !list_to_set_app_L. simpl. rewrite !list_to_set_app_L. simpl.
    rewrite <- Hab. set_solver.
Qed.

(** [main] once the arguments are sorted out. *)
Lemma main_clean_args args stamp fs kbPath q qs :
  List.filter (fun a => negb (starts_with MODE_PREFIX a)) args = kbPath :: q :: qs ->
  main args stamp fs
  = match fs !! kbPath with
    | None => Threw
    | Some kb =>
        let container := detectContainer kb in
        let schema := buildQaBlockSchema (blocks container) in
        match existing_keys schema (blocks container) ∅ with
        | None => Threw
        | Some keys =>
            match merge_files fs schema (q :: qs)
                    {| newBlocks := if str_eqb (mode_of args) (str "replace") then []
                                    else blocks container;
                       existingKeys := keys; added := 0 |} with
            | None => Threw
            | Some st =>
                Merged (<[kbPath := setBlocks container (newBlocks st)]>
                          (<[kbPath ++ str ".bak_" ++ stamp := kb]> fs)) st
            end
        end
    end.
Proof. intros Hc. unfold main. by rewrite Hc. Qed.

(** What a merge that returns has done. *)
Lemma main_merged_inv args stamp fs fs' st :
  main args stamp fs = Merged fs' st ->
  exists kbPath q qs kb keys recs,
    List.filter (fun a => negb (starts_with MODE_PREFIX a)) args = kbPath :: q :: qs
    /\ fs !! kbPath = Some kb
    /\ existing_keys (buildQaBlockSchema (blocks (detectContainer kb)))
         (blocks (detectContainer kb)) ∅ = Some keys
    /\ all_records fs (q :: qs) = Some recs
    /\ Forall usable recs
    /\ newBlocks st
       = (if str_eqb (mode_of args) (str "replace") then []
          else blocks (detectContainer kb))
         ++ built (buildQaBlockSchema (blocks (detectContainer kb))) 0 (accepted keys recs)
    /\ added st = length (accepted keys recs)
    /\ existingKeys st = keys_after keys (accepted keys recs)
    /\ fs' = <[kbPath := setBlocks (detectContainer kb) (newBlocks st)]>
               (<[kbPath ++ str ".bak_" ++ stamp := kb]> fs).
Proof.
  destruct (List.filter (fun a => negb (starts_with MODE_PREFIX a)) args)
    as [|kbPath [|q qs]] eqn:Hc; try (unfold main; rewrite Hc; discriminate).
  rewrite (main_clean_args args stamp fs kbPath q qs Hc).
  destruct (fs !! kbPath) as [kb|] eqn:Hkb; [|done]. cbv zeta.
  destruct (existing_keys _ _ ∅) as [keys|] eqn:Hk; [|done].
  match goal with |- context [merge_files fs ?sc ?ps ?s0] =>
    destruct (merge_files fs sc ps s0) as [st1|] eqn:Hm; [|done];
    destruct (merge_files_inv fs sc ps s0) as (recs & Hrecs & Hu); [by rewrite Hm|];
    rewrite (merge_files_run fs sc ps s0 recs Hrecs Hu) in Hm
  end.
  injection Hm as <-. intros [= <- <-].
  exists kbPath, q, qs, kb, keys, recs. simpl. by repeat split.
Qed.




Lemma or_empty_str_idem x : or_empty_str (Some (or_empty_str x)) = or_empty_str x.
Proof.
  destruct x as [v|]; [|done]. simpl.
  destruct (truthy v) eqn:Hv; simpl; [by rewrite Hv|done].
Qed.

Lemma stored_keys_cons schema b r :
  stored_keys schema (b :: r)
  = match stored_key schema b with
    | Some k => {[ k ]} ∪ stored_keys schema r
    | None => stored_keys schema r
    end.
Proof. unfold stored_keys. simpl. by destruct (stored_key schema b). Qed.

(** The loop over the blocks of the target collects their questions. *)
Lemma existing_keys_stored schema bl K :
  Forall (fun b => is_null b = false) bl ->
  existing_keys schema bl K = Some (stored_keys schema bl ∪ K).
Proof.
  intros Hn. revert K. induction Hn as [|b r Hb Hr IH]; intros K.
  - unfold stored_keys. simpl. f_equal. set_solver.
  - cbn [existing_keys]. rewrite Hb. cbv zeta.
    rewrite stored_keys_cons. unfold stored_key.
    destruct (match_Q _) as [m1|]; rewrite IH; f_equal.
    set_solver.
Qed.

Lemma existing_keys_nonnull schema bl K keys :
  existing_keys schema bl K = Some keys ->
  Forall (fun b => is_null b = false) bl.
Proof.
  revert K. induction bl as [|b r IH]; intros K; [constructor|].
  cbn [existing_keys]. destruct (is_null b) eqn:Hb; [done|]. cbv zeta.
  intros Hk. constructor; [done|].
  destruct (match_Q _); by eapply IH.
Qed.

Lemma stored_key_elem schema bl b k :
  b ∈ bl -> stored_key schema b = Some k -> k ∈ stored_keys schema bl.
Proof.
  intros Hb Hk. unfold stored_keys. apply elem_of_list_to_set.
  apply list_elem_of_omap. by exists b.
Qed.

(** One question asked twice, none of them stored: one record less. *)
Lemma accepted_pair keys r1 a r2 b r3 :
  let recs := r1 ++ a :: r2 ++ b :: r3 in
  Forall (fun x => qkey x.2 <> []) recs ->
  Forall (fun x => qkey x.2 ∉ keys) recs ->
  qkey a.2 = qkey b.2 ->
  NoDup (map (fun x => qkey x.2) (r1 ++ a :: r2 ++ r3)) ->
  length (accepted keys recs) = length recs - 1.
Proof.
  intros recs Hne Hk Hab Hnd. rewrite accepted_length by done.
  rewrite difference_disjoint_L.
  2:{ intros k Hin Hin'. apply elem_of_list_to_set, list_elem_of_fmap in Hin
        as (x & -> & Hx).
      rewrite List.Forall_forall in Hk. apply (Hk x); [|done].
      by apply list_elem_of_In. }
  replace (list_to_set (map (fun x => qkey x.2) recs) : gset jsstring)
    with (list_to_set (map (fun x => qkey x.2) (r1 ++ a :: r2 ++ r3)) : gset jsstring).
  - rewrite size_list_to_set by done. unfold recs.
    rewrite length_map, !length_app. simpl. rewrite !length_app. simpl. lia.
  - unfold recs. rewrite !map_app. simpl. rewrite !map_app. simpl.
    rewrite !list_to_set_app_L. simpl. rewrite !list_to_set_app_L. simpl.
    rewrite <- Hab. set_solver.
Qed.

(** One question that is stored already, the others new and distinct: one
    record less. *)
Lemma accepted_stored keys r1 a r2 :
  let recs := r1 ++ a :: r2 in
  Forall (fun x => qkey x.2 <> []) recs ->
  NoDup (map (fun x => qkey x.2) recs) ->
  qkey a.2 ∈ keys ->
  Forall (fun x => qkey x.2 ∉ keys) (r1 ++ r2) ->
  length (accepted keys recs) = length recs - 1.
Proof.
  intros recs Hne Hnd Ha Hk. rewrite accepted_length by done.
  replace ((list_to_set (map (fun x => qkey x.2) recs) : gset jsstring) ∖ keys)
    with (list_to_set (map (fun x => qkey x.2) (r1 ++ r2)) : gset jsstring).
  - rewrite size_list_to_set.
    + unfold recs. rewrite length_map, !length_app. simpl. lia.
    + unfold recs in Hnd. rewrite map_app in Hnd. simpl in Hnd.
      apply NoDup_app in Hnd as (H1 & H2 & H3). apply NoDup_cons in H3 as [_ H3].
      rewrite map_app. apply NoDup_app. split; [done|]. split; [|done].
      intros k Hk1 Hk2. apply (H2 k Hk1). by right.
  - apply set_eq. intros k. unfold recs.
    rewrite elem_of_difference, !elem_of_list_to_set, !map_app. simpl.
    rewrite !elem_of_app, elem_of_cons.
    assert (Hout : forall x, x ∈ r1 ++ r2 -> qkey x.2 ∉ keys).
    { intros x Hx. rewrite List.Forall_forall in Hk. apply Hk.
      by apply list_elem_of_In. }
    split.
    + intros Hin. split; [tauto|]. intros Hkk.
      assert (Hin' : k ∈ map (fun x => qkey x.2) (r1 ++ r2)).
      { rewrite map_app, elem_of_app. tauto. }
      apply list_elem_of_fmap in Hin' as (x & -> & Hx). by apply (Hout x).
    + intros [[Hin|[->|Hin]] Hkk]; [tauto|done|tauto].
Qed.

(** C8: the question of a record is normalized by trimming, lower-casing,
    canonical decomposition and removal of the combining marks.  A merge
    that returns has read the target and the records of the files, and has
    added one block for each record whose normalized question is not
    empty, not the question on the [Q:] line of a block stored in the
    target, and not the question of an earlier record; no block is built
    for a question that a stored block shows.  So, when the records have
    non-empty questions that no stored block shows, all distinct after
    normalization but for one pair, the merge adds the number of records
    minus one (on a target without blocks this is the merged block count);
    and when the records are distinct and one of them asks the question of
    a stored block, the merge adds the number of records minus one as
    well. *)
Theorem C8_merge_dedup (args : list jsstring) (stamp : jsstring)
    (fs : gmap jsstring json) :
  (forall x, qkey x
     = strip_marks (normalizeNFD (toLowerCase
         (trim (toStr (or_empty_str (prop x (str "question"))))))))
  /\ (forall fs' st, main args stamp fs = Merged fs' st ->
        exists kbPath q qs kb recs,
          List.filter (fun a => negb (starts_with MODE_PREFIX a)) args = kbPath :: q :: qs
          /\ fs !! kbPath = Some kb
          /\ all_records fs (q :: qs) = Some recs
          /\ let bl := blocks (detectContainer kb) in
             let schema := buildQaBlockSchema bl in
             let acc := accepted (stored_keys schema bl) recs in
             newBlocks st
             = (if str_eqb (mode_of args) (str "replace") then [] else bl)
               ++ built schema 0 acc
             /\ added st = length acc
             /\ length (newBlocks st)
                = (if str_eqb (mode_of args) (str "replace") then 0 else length bl)
                  + added st
             /\ Forall (fun x => qkey x.2 <> []
                                 /\ forall b, b ∈ bl ->
                                      stored_key schema b <> Some (qkey x.2)) acc)
  /\ (forall kbPath q qs kb r1 a r2 b r3,
        let bl := blocks (detectContainer kb) in
        let schema := buildQaBlockSchema bl in
        let recs := r1 ++ a :: r2 ++ b :: r3 in
        List.filter (fun a => negb (starts_with MODE_PREFIX a)) args = kbPath :: q :: qs ->
        fs !! kbPath = Some kb ->
        Forall (fun b => is_null b = false) bl ->
        all_records fs (q :: qs) = Some recs ->
        Forall (fun x => is_null x.2 = false /\ qkey x.2 <> []) recs ->
        Forall (fun x => qkey x.2 ∉ stored_keys schema bl) recs ->
        qkey a.2 = qkey b.2 ->
        NoDup (map (fun x => qkey x.2) (r1 ++ a :: r2 ++ r3)) ->
        exists fs' st,
          main args stamp fs = Merged fs' st
          /\ added st = length recs - 1
          /\ length (newBlocks st)
             = (if str_eqb (mode_of args) (str "replace") then 0 else length bl)
               + (length recs - 1)
          /\ fs' !! kbPath = Some (setBlocks (detectContainer kb) (newBlocks st)))
  /\ (forall kbPath q qs kb r1 a r2,
        let bl := blocks (detectContainer kb) in
        let schema := buildQaBlockSchema bl in
        let recs := r1 ++ a :: r2 in
        List.filter (fun a => negb (starts_with MODE_PREFIX a)) args = kbPath :: q :: qs ->
        fs !! kbPath = Some kb ->
        Forall (fun b => is_null b = false) bl ->
        all_records fs (q :: qs) = Some recs ->
        Forall (fun x => is_null x.2 = false /\ qkey x.2 <> []) recs ->
        NoDup (map (fun x => qkey x.2) recs) ->
        (exists b, b ∈ bl /\ stored_key schema b = Some (qkey a.2)) ->
        Forall (fun x => qkey x.2 ∉ stored_keys schema bl) (r1 ++ r2) ->
        exists fs' st,
          main args stamp fs = Merged fs' st
          /\ added st = length recs - 1
          /\ length (newBlocks st)
             = (if str_eqb (mode_of args) (str "replace") then 0 else length bl)
               + (length recs - 1)
          /\ fs' !! kbPath = Some (setBlocks (detectContainer kb) (newBlocks st))).
Proof.
  split; [intros x; unfold qkey, norm; by rewrite or_empty_str_idem|].
  split; [|split].
  - intros fs' st Hm.
    destruct (main_merged_inv args stamp fs fs' st Hm)
      as (kbPath & q & qs & kb & keys & recs & Hc & Hkb & Hk & Hrecs & _ & Hnb & Had & _ & _).
    pose proof (existing_keys_nonnull _ _ _ _ Hk) as Hnn.
    rewrite (existing_keys_stored _ _ ∅ Hnn) in Hk.
    rewrite union_empty_r_L in Hk. injection Hk as <-.
    exists kbPath, q, qs, kb, recs.
    split; [done|]. split; [done|]. split; [done|]. cbv zeta.
    split; [done|]. split; [done|]. split.
    + rewrite Hnb, length_app, built_length, Had.
      by destruct (str_eqb _ _).
    + eapply Forall_impl; [apply accepted_fresh|]. simpl.
      intros x [Hx Hne]. split; [done|].
      intros b Hb Hs. apply Hx. by eapply stored_key_elem.
  - intros kbPath q qs kb r1 a r2 b r3 bl schema recs Hc Hkb Hnn Hrecs Hall Hst Hab Hnd.
    rewrite (main_clean_args args stamp fs kbPath q qs Hc), Hkb. cbv zeta.
    fold bl. fold schema.
    rewrite (existing_keys_stored schema bl ∅ Hnn), union_empty_r_L.
    assert (Hu : Forall usable recs).
    { eapply Forall_impl; [exact Hall|]. by intros x [Hx _]. }
    assert (Hne : Forall (fun x => qkey x.2 <> []) recs).
    { eapply Forall_impl; [exact Hall|]. by intros x [_ Hx]. }
    rewrite (merge_files_run fs _ (q :: qs) _ _ Hrecs Hu). simpl.
    do 2 eexists. split; [reflexivity|]. simpl.
    pose proof (accepted_pair (stored_keys schema bl) r1 a r2 b r3 Hne Hst Hab Hnd)
      as Hlen.
    cbv zeta in Hlen. fold recs in Hlen.
    split; [done|]. split; [|by rewrite lookup_insert_eq].
    rewrite length_app, built_length, Hlen. by destruct (str_eqb _ _).
  - intros kbPath q qs kb r1 a r2 bl schema recs Hc Hkb Hnn Hrecs Hall Hnd
      (b & Hb & Hsb) Hst.
    rewrite (main_clean_args args stamp fs kbPath q qs Hc), Hkb. cbv zeta.
    fold bl. fold schema.
    rewrite (existing_keys_stored schema bl ∅ Hnn), union_empty_r_L.
    assert (Hu : Forall usable recs).
    { eapply Forall_impl; [exact Hall|]. by intros x [Hx _]. }
    assert (Hne : Forall (fun x => qkey x.2 <> []) recs).
    { eapply Forall_impl; [exact Hall|]. by intros x [_ Hx]. }
    rewrite (merge_files_run fs _ (q :: qs) _ _ Hrecs Hu). simpl.
    do 2 eexists. split; [reflexivity|]. simpl.
    pose proof (accepted_stored (stored_keys schema bl) r1 a r2 Hne Hnd
                  (stored_key_elem schema bl b _ Hb Hsb) Hst) as Hlen.
    cbv zeta in Hlen. fold recs in Hlen.
    split; [done|]. split; [|by rewrite lookup_insert_eq].
    rewrite length_app, built_length, Hlen. by destruct (str_eqb _ _).
Qed.

End MergeFacts.

(** Two files of two records each, where the last record asks the first
    question again in capitals and with an accent: three blocks. *)
Lemma merge_example :
  match main merge_args (str "20260101_000000") merge_fs with
  | Merged _ st => length (newBlocks st) = 3 /\ added st = 3
  | _ => False
  end.
Proof. vm_compute. split; reflexivity. Qed.

(** The same files merged in replace mode into an index that stores the
    block of the first question: both records of that question are left
    out, and so is the stored block. *)
Lemma replace_example :
  match main (str "--mode=replace" :: merge_args) (str "20260101_000000") remerge_fs with
  | Merged _ st =>
      map (fun b => prop b (str "id")) (newBlocks st)
      = [Some (JStr (str "qa-estrategia_es-001")); Some (JStr (str "qa-autores_vs_objetivos-002"))]
  | _ => False
  end.
Proof. vm_compute. reflexivity. Qed.

Lemma C8_witness :
  (exists fs' st,
     main merge_args (str "20260101_000000") pair_fs = Merged fs' st
     /\ added st = 3 - 1 /\ length (newBlocks st) = 1 + (3 - 1))
  /\ (exists fs' st,
        main merge_args (str "20260101_000000") dedup_fs = Merged fs' st
        /\ added st = 3 - 1 /\ length (newBlocks st) = 1 + (3 - 1)).
Proof.
  pose (ti1 := topicFromFilename (str "estrategia_QA.json")).
  pose (ti2 := topicFromFilename (str "autores_QA.json")).
  split.
  - destruct (proj1 (proj2 (proj2 (C8_merge_dedup merge_args (str "20260101_000000") pair_fs)))
                (str "kb.json") (str "estrategia_QA.json") [str "autores_QA.json"]
                (JObj [(str "blocks", JArr [stored_block])])
                []
                (ti1, qa_record (str "Donde esta?") (str "En Lleida."))
                [(ti1, qa_record (str "Quien escribe?") (str "Los autores."))]
                (ti2, qa_record (str "DO" ++ [769%N] ++ str "NDE ESTA?") (str "En Lleida."))
                [])
      as (fs' & st & Hm & Had & Hlen & _).
    + vm_compute. reflexivity.
    + vm_compute. reflexivity.
    + repeat constructor.
    + vm_compute. reflexivity.
    + repeat constructor; vm_compute; discriminate.
    + repeat constructor; apply (bool_decide_unpack _); vm_compute; exact I.
    + vm_compute. reflexivity.
    + apply (bool_decide_unpack _). vm_compute. exact I.
    + exists fs', st. split; [exact Hm|]. split; [exact Had|exact Hlen].
  - destruct (proj2 (proj2 (proj2 (C8_merge_dedup merge_args (str "20260101_000000") dedup_fs)))
                (str "kb.json") (str "estrategia_QA.json") [str "autores_QA.json"]
                (JObj [(str "blocks", JArr [stored_block])])
                [(ti1, qa_record (str "Donde esta?") (str "En Lleida."))]
                (ti1, qa_record (str "QUE" ++ [769%N] ++ str " ES ALBA?") (str "Un asistente."))
                [(ti2, qa_record (str "Quien escribe?") (str "Los autores."))])
      as (fs' & st & Hm & Had & Hlen & _).
    + vm_compute. reflexivity.
    + vm_compute. reflexivity.
    + repeat constructor.
    + vm_compute. reflexivity.
    + repeat constructor; vm_compute; discriminate.
    + apply (bool_decide_unpack _). vm_compute. exact I.
    + exists stored_block. split; [apply list_elem_of_here|]. vm_compute. reflexivity.
    + repeat constructor; apply (bool_decide_unpack _); vm_compute; exact I.
    + exists fs', st. split; [exact Hm|]. split; [exact Had|exact Hlen].
Defined.


(** ** Corpus signature *)

(** *** The order of [sort()] *)

Lemma str_ltb_irrefl a : str_ltb a a = false.
Proof. induction a as [|x a IH]; [done|]. simpl. by rewrite N.ltb_irrefl. Qed.

Lemma str_ltb_asym a b : str_ltb a b = true -> str_ltb b a = false.
Proof.
  revert b. induction a as [|x a IH]; intros [|y b]; simpl; try done.
  destruct (N.ltb_spec x y), (N.ltb_spec y x); try done; try lia.
  apply IH.
Qed.

Lemma str_ltb_total a b : str_ltb a b = false -> str_ltb b a = false -> a = b.
Proof.
  revert b. induction a as [|x a IH]; intros [|y b]; simpl; try done.
  destruct (N.ltb_spec x y), (N.ltb_spec y x); try done.
  intros Hab Hba. assert (x = y) as -> by lia. f_equal. by apply IH.
Qed.

Lemma str_ltb_trans a b c :
  str_ltb a b = true -> str_ltb b c = true -> str_ltb a c = true.
Proof.
  revert b c. induction a as [|x a IH]; intros [|y b] [|z c]; simpl; try done.
  destruct (N.ltb_spec x y), (N.ltb_spec y x), (N.ltb_spec y z), (N.ltb_spec z y),
    (N.ltb_spec x z), (N.ltb_spec z x); try done; try lia.
  apply IH.
Qed.

#[local] Instance str_le_trans : Transitive str_le.
Proof.
  intros a b c Hab Hbc. unfold str_le, str_gtb in *.
  destruct (str_ltb c a) eqn:Hca; [|done].
  destruct (str_ltb a b) eqn:Hlt.
  - by rewrite (str_ltb_trans c a b Hca Hlt) in Hbc.
  - assert (a = b) as -> by by apply str_ltb_total. congruence.
Qed.

#[local] Instance str_le_antisym : AntiSymm (=) str_le.
Proof. intros a b Hab Hba. by apply str_ltb_total. Qed.

Lemma Sorted_weaken {A} (R R' : relation A) l :
  (forall x y, R x y -> R' x y) -> Sorted R l -> Sorted R' l.
Proof.
  intros Hi. induction 1 as [|x l Hl IH Hx]; constructor; [done|].
  destruct Hx; constructor. by apply Hi.
Qed.

Lemma js_sort_str_sorted l : Sorted str_le (js_sort str_gtb l).
Proof.
  apply (Sorted_weaken (in_order str_gtb)); [|apply js_sort_sorted].
  intros x y [Hxy|Hyx]; [done|]. by apply str_ltb_asym.
Qed.

(** The sorted tokens depend on the tokens only, not on their order. *)
Lemma js_sort_str_perm l l' :
  l ≡ₚ l' -> js_sort str_gtb l = js_sort str_gtb l'.
Proof.
  intros Hp. apply (Sorted_unique str_le); try apply js_sort_str_sorted.
  by rewrite !js_sort_perm.
Qed.

(** *** Joining *)

Lemma join_cons sep x r :
  r <> [] -> join sep (x :: r) = x ++ sep ++ join sep r.
Proof. by destruct r. Qed.

Lemma join_app sep l1 l2 :
  l1 <> [] -> l2 <> [] -> join sep (l1 ++ l2) = join sep l1 ++ sep ++ join sep l2.
Proof.
  intros H1 H2. induction l1 as [|x r IH]; [done|].
  destruct r as [|y r].
  - simpl app. by rewrite join_cons.
  - change ((x :: y :: r) ++ l2) with (x :: (y :: r) ++ l2).
    rewrite !join_cons by done. rewrite IH by done. by rewrite <- !app_assoc.
Qed.

Lemma join_length sep l :
  length (join sep l) = list_sum (map length l) + length sep * pred (length l).
Proof.
  induction l as [|x r IH]; [simpl; lia|].
  destruct r as [|y r]; [simpl; rewrite app_nil_r || idtac; simpl; lia|].
  rewrite join_cons by done. rewrite !length_app, IH. simpl. lia.
Qed.

Lemma insert_sorted_sum {A} (gt : A -> A -> bool) (f : A -> nat) x l :
  list_sum (map f (insert_sorted gt x l)) = f x + list_sum (map f l)
  /\ length (insert_sorted gt x l) = S (length l).
Proof.
  induction l as [|y r [IH1 IH2]]; [done|].
  simpl. destruct (gt x y); simpl; [|done]. rewrite IH1, IH2. lia.
Qed.

Lemma js_sort_sum {A} (gt : A -> A -> bool) (f : A -> nat) l :
  list_sum (map f (js_sort gt l)) = list_sum (map f l)
  /\ length (js_sort gt l) = length l.
Proof.
  induction l as [|x l [IH1 IH2]]; [done|].
  simpl. destruct (insert_sorted_sum gt f x (js_sort gt l)) as [-> ->]. lia.
Qed.

Section Signature.
Context {host : Host}.

Lemma docSignature_length files :
  length (docSignature files)
  = list_sum (map (fun f => length (sig_token f)) files) + 2 * pred (length files).
Proof.
  unfold docSignature. rewrite join_length.
  destruct (js_sort_sum str_gtb length (map sig_token files)) as [-> ->].
  by rewrite map_map, length_map.
Qed.

Lemma sig_token_length f : 2 <= length (sig_token f).
Proof. unfold sig_token, PIPE. rewrite !length_app. simpl. lia. Qed.

Lemma sig_token_triple f f' : sig_triple f = sig_triple f' -> sig_token f = sig_token f'.
Proof. unfold sig_triple, sig_token. by intros [= -> -> ->]. Qed.

Lemma sig_tokens_perm files files' :
  map sig_triple files ≡ₚ map sig_triple files' ->
  map sig_token files ≡ₚ map sig_token files'.
Proof.
  intros Hp.
  pose (tok := fun t : jsstring * number * number =>
                 t.1.1 ++ PIPE ++ numToString t.1.2 ++ PIPE ++ numToString t.2).
  assert (Ht : forall l, map sig_token l = map tok (map sig_triple l)).
  { intros l. rewrite map_map. by apply map_ext. }
  rewrite !Ht. by apply Permutation_map.
Qed.

(** The signature does not depend on the listing order. *)
Lemma docSignature_perm files files' :
  map sig_triple files ≡ₚ map sig_triple files' ->
  docSignature files = docSignature files'.
Proof.
  intros Hp. unfold docSignature. f_equal.
  by apply js_sort_str_perm, sig_tokens_perm.
Qed.

(** One file more makes the signature longer. *)
Lemma docSignature_add f files :
  length (docSignature files) < length (docSignature (f :: files)).
Proof.
  rewrite !docSignature_length. simpl.
  pose proof (sig_token_length f). destruct files; simpl; lia.
Qed.
End Signature.

(** *** Words: a token cannot change and keep the joined text *)

Ltac flatten_app := repeat first [rewrite <- app_assoc | progress simpl].

Lemma app_eq_len_le {A} (a b c d : list A) :
  a ++ b = c ++ d -> length a <= length c -> exists l, c = a ++ l /\ b = l ++ d.
Proof.
  revert c. induction a as [|x a IH]; intros c Heq Hlen.
  - exists c. by simpl in *.
  - destruct c as [|y c]; [simpl in Hlen; lia|].
    simpl in Heq. injection Heq as <- Heq.
    destruct (IH c Heq) as (l & -> & ->); [simpl in Hlen; lia|]. by exists l.
Qed.

Lemma plain_nobar s : plain s -> nobar s.
Proof. intros Hs. eapply Forall_impl; [exact Hs|]. by intros c [Hc _]. Qed.

Lemma plain_nocolon s : plain s -> nocolon s.
Proof. intros Hs. eapply Forall_impl; [exact Hs|]. by intros c [_ Hc]. Qed.

Lemma token_tail_nocolon s m : plain s -> plain m -> nocolon (token_tail s m).
Proof.
  intros Hs Hm. unfold token_tail, nocolon.
  constructor; [done|]. apply Forall_app. split; [by apply plain_nocolon|].
  constructor; [done|by apply plain_nocolon].
Qed.

(** A colon after plain text cannot face a bar after plain text. *)
Lemma plain_clash x y r1 r2 :
  plain x -> plain y -> x ++ 58%N :: r1 = y ++ 124%N :: r2 -> False.
Proof.
  intros Hx. revert y. induction Hx as [|a x [Ha1 Ha2] Hx IH]; intros y Hy Heq.
  - destruct Hy as [|b y [Hb1 Hb2] Hy]; simpl in Heq; [done|].
    injection Heq as Hb _. by subst.
  - destruct Hy as [|b y Hb Hy]; simpl in Heq.
    + injection Heq as Hb _. by subst.
    + injection Heq as _ Heq. by eapply IH.
Qed.

(** The one bar of a text is where it is. *)
Lemma bar_split x v g w :
  nobar x -> nobar v -> x ++ 124%N :: v = g ++ 124%N :: w -> g = x /\ w = v.
Proof.
  intros Hx Hv. revert g. induction Hx as [|a x Ha Hx IH]; intros g Heq.
  - destruct g as [|c g]; simpl in Heq.
    + by injection Heq as <-.
    + injection Heq as <- Heq. subst v. apply Forall_app in Hv as [_ Hv].
      by inversion Hv.
  - destruct g as [|c g]; simpl in Heq.
    + injection Heq as Ha' _. congruence.
    + injection Heq as <- Heq. destruct (IH g Heq) as [-> ->]. done.
Qed.

(** The text of a number does not end with a colon. *)
Lemma no_colon_end u m v : numeric m -> u ++ m = v ++ [58%N] -> False.
Proof.
  intros [Hne Hm] Heq.
  destruct (exists_last Hne) as (m' & z & ->).
  rewrite app_assoc in Heq. apply app_inj_tail in Heq as [_ ->].
  apply Forall_app in Hm as [_ Hm]. inversion Hm as [|? ? [_ Hz] _]. done.
Qed.

Lemma tail_sep_unfold s m :
  tail_sep s m = 124%N :: s ++ 124%N :: m ++ [58%N; 58%N].
Proof. unfold tail_sep, token_tail, COLONS. simpl. by rewrite <- app_assoc. Qed.

Lemma tail_sep_length s m : 2 <= length (tail_sep s m).
Proof. unfold tail_sep, token_tail. rewrite length_app. simpl. lia. Qed.

Section Descent.
Variable n : nat.
Hypothesis IH :
  forall A B s1 m1 s2 m2,
    length A + length B <= n ->
    plain s1 -> plain m1 -> plain s2 -> plain m2 ->
    A ++ tail_sep s1 m1 ++ B = B ++ tail_sep s2 m2 ++ A ->
    tail_sep s1 m1 = tail_sep s2 m2.

Lemma descent_lt A B s1 m1 s2 m2 :
  length A + length B <= S n -> length A < length B ->
  plain s1 -> plain m1 -> plain s2 -> plain m2 ->
  A ++ tail_sep s1 m1 ++ B = B ++ tail_sep s2 m2 ++ A ->
  tail_sep s1 m1 = tail_sep s2 m2.
Proof.
  intros Hn Hlt Hs1 Hm1 Hs2 Hm2 Heq.
  destruct (app_eq_len_le _ _ _ _ Heq ltac:(lia)) as (G & -> & Heq1).
  rewrite length_app in Hn, Hlt.
  destruct (Nat.le_gt_cases (length (tail_sep s1 m1)) (length G)) as [Hle|Hgt].
  - (* the gap holds the whole tail: one step down *)
    destruct (app_eq_len_le _ _ _ _ Heq1 Hle) as (D & -> & Heq2).
    rewrite length_app in Hn. pose proof (tail_sep_length s1 m1).
    apply (IH A D s1 m1 s2 m2); [lia|done..].
  - (* the gap ends inside the tail *)
    symmetry in Heq1.
    destruct (app_eq_len_le _ _ _ _ Heq1 ltac:(lia)) as (W & HQ & Heq2).
    destruct G as [|g0 g]; [simpl in Hlt; lia|].
    destruct W as [|w0 W'].
    { rewrite app_nil_r in HQ. rewrite HQ in Hgt. lia. }
    rewrite tail_sep_unfold in HQ. simpl in HQ. injection HQ as <- HQ.
    rewrite tail_sep_unfold in Heq2.
    simpl in Heq2. injection Heq2 as Hw0 Heq2. subst w0.
    destruct (bar_split s1 (m1 ++ [58%N; 58%N]) g W') as [-> ->].
    + by apply plain_nobar.
    + apply Forall_app. split; [by apply plain_nobar|by repeat constructor].
    + done.
    + exfalso. rewrite <- !app_assoc in Heq2. simpl in Heq2. symmetry in Heq2.
      by apply (plain_clash m1 s2 _ _ Hm1 Hs2 Heq2).
Qed.
End Descent.

(** Two texts that pass each other around a token tail force the same
    tail on both sides. *)
Lemma descent n :
  forall A B s1 m1 s2 m2,
    length A + length B <= n ->
    plain s1 -> plain m1 -> plain s2 -> plain m2 ->
    A ++ tail_sep s1 m1 ++ B = B ++ tail_sep s2 m2 ++ A ->
    tail_sep s1 m1 = tail_sep s2 m2.
Proof.
  induction n as [|n IH]; intros A B s1 m1 s2 m2 Hn Hs1 Hm1 Hs2 Hm2 Heq.
  - destruct A, B; simpl in Hn; try lia.
    simpl in Heq. by rewrite !app_nil_r in Heq.
  - destruct (lt_eq_lt_dec (length A) (length B)) as [[Hlt|Hlen]|Hgt].
    + by apply (descent_lt n IH A B).
    + apply app_inj_1 in Heq as [-> Heq]; [|done]. by apply app_inv_tail in Heq.
    + symmetry. apply (descent_lt n IH B A); try done; lia.
Qed.

Lemma token_tail_inj s1 m1 s2 m2 :
  plain s1 -> plain m1 -> token_tail s1 m1 = token_tail s2 m2 -> s2 = s1 /\ m2 = m1.
Proof.
  intros Hs1 Hm1 Heq. unfold token_tail in Heq. injection Heq as Heq.
  by apply bar_split; [apply plain_nobar..|].
Qed.

(** A text ending in a colon-free tail, cut after a colon: the tail lies
    after the cut. *)
Lemma tail_after_colon N0 P u l2 :
  nocolon P -> N0 ++ P = (u ++ [58%N]) ++ l2 ->
  exists w, l2 = w ++ P /\ N0 = (u ++ [58%N]) ++ w.
Proof.
  intros HP Heq. apply app_eq_app in Heq as [l [[-> ->]|[Hu ->]]].
  - by exists l.
  - destruct l as [|z l];
      [rewrite app_nil_r in Hu; subst; exists []; split; [done|by rewrite app_nil_r]|].
    exfalso. destruct (exists_last (l := z :: l) ltac:(done)) as (l' & y & El).
    rewrite El in *. rewrite app_assoc in Hu. apply app_inj_tail in Hu as [_ <-].
    rewrite <- app_assoc in HP. apply Forall_app in HP as [_ HP].
    apply Forall_app in HP as [HP _]. by inversion HP.
Qed.

(** The word equation behind a token that changes place in the sorted
    list: [t], the separator and a text [y], read as [y], the separator and
    [t']. *)
Lemma rotate n :
  forall y N0 s1 m1 s2 m2,
    length y <= n ->
    numeric s1 -> numeric m1 -> numeric s2 -> numeric m2 ->
    (N0 ++ token_tail s1 m1) ++ COLONS ++ y = y ++ COLONS ++ (N0 ++ token_tail s2 m2) ->
    token_tail s1 m1 = token_tail s2 m2.
Proof.
  induction n as [n IH] using lt_wf_ind.
  intros y N0 s1 m1 s2 m2 Hn Hs1 Hm1 Hs2 Hm2 Heq.
  set (t := N0 ++ token_tail s1 m1) in *. set (t' := N0 ++ token_tail s2 m2) in *.
  assert (Hlen : length t = length t').
  { apply (f_equal length) in Heq. rewrite !length_app in Heq. lia. }
  destruct (Nat.le_gt_cases (length t + 2) (length y)) as [Hbig|Hsmall].
  - (* [y] starts with [t] and the separator *)
    destruct (app_eq_len_le _ _ _ _ Heq ltac:(lia)) as (l & Hy & Heq1).
    assert (Hl : 2 <= length l).
    { rewrite Hy, length_app in Hbig. lia. }
    destruct (app_eq_len_le _ _ _ _ Heq1 ltac:(simpl; lia)) as (y1 & -> & Hy1).
    assert (Hy1len : length y1 < length y).
    { rewrite Hy, !length_app. simpl. lia. }
    apply (IH (length y1) ltac:(lia) y1 N0 s1 m1 s2 m2); [lia|done..|].
    fold t t'. by rewrite <- Hy, Hy1.
  - destruct (Nat.le_gt_cases (length y) (length t)) as [Hle|Hgt].
    + (* [t] starts with [y] *)
      symmetry in Heq.
      destruct (app_eq_len_le _ _ _ _ Heq Hle) as (l & Ht & Heq1).
      destruct l as [|x1 [|x2 l2]].
      * rewrite app_nil_r in Ht. simpl in Heq1. injection Heq1 as Heq1.
        subst t t'. rewrite <- Heq1 in Ht. by apply app_inv_head in Ht.
      * exfalso. simpl in Heq1. injection Heq1 as <- Heq1.
        unfold t, token_tail in Ht.
        apply (no_colon_end (N0 ++ 124%N :: s1 ++ [124%N]) m1 y Hm1).
        rewrite <- Ht. by flatten_app.
      * simpl in Heq1. injection Heq1 as <- <- Heq1.
        (* t = y :: l2 and t' = l2 :: y *)
        destruct Hs1 as [_ Hs1], Hs2 as [_ Hs2].
        destruct (tail_after_colon N0 (token_tail s1 m1) (y ++ [58%N]) l2)
          as (w4 & -> & HN1).
        { by apply token_tail_nocolon; [|destruct Hm1]. }
        { fold t. rewrite Ht. by flatten_app. }
        destruct (tail_after_colon N0 (token_tail s2 m2)
                    ((w4 ++ token_tail s1 m1) ++ [58%N]) y)
          as (y4 & -> & HN2).
        { by apply token_tail_nocolon; [|destruct Hm2]. }
        { fold t'. rewrite Heq1. by flatten_app. }
        assert (Hd : tail_sep s2 m2 = tail_sep s1 m1).
        { apply (descent (length y4 + length w4) y4 w4 s2 m2 s1 m1);
            [done|done|by destruct Hm2|done|by destruct Hm1|].
          unfold tail_sep, COLONS. rewrite HN1 in HN2.
          revert HN2. flatten_app. by intros ->. }
        unfold tail_sep in Hd. by apply app_inv_tail in Hd.
    + (* [y] is [t] and one colon *)
      exfalso.
      destruct (app_eq_len_le _ _ _ _ Heq ltac:(lia)) as (l & Hy & Heq1).
      destruct l as [|x [|x' l]];
        [rewrite Hy, app_nil_r in Hgt; lia| |rewrite Hy, length_app in Hsmall; simpl in Hsmall; lia].
      simpl in Heq1. injection Heq1 as Hx Heq1. subst x.
      unfold t', token_tail in Heq1.
      apply (no_colon_end (58%N :: N0 ++ 124%N :: s2 ++ [124%N]) m2 t Hm2).
      rewrite <- Hy, Heq1. by flatten_app.
Qed.

(** *** From the joined text back to the tokens *)

Lemma join_mid sep X M Z :
  M <> [] -> join sep (X ++ M ++ Z) = join_pre sep X ++ join sep M ++ join_post sep Z.
Proof.
  intros HM. unfold join_pre, join_post.
  destruct X as [|x X], Z as [|z Z]; simpl is_empty_list; cbv iota.
  - by rewrite !app_nil_r.
  - rewrite !app_nil_l. apply join_app; done.
  - rewrite !app_nil_r. rewrite join_app by done. by rewrite <- app_assoc.
  - rewrite join_app; [|done|by destruct M].
    rewrite (join_app sep M (z :: Z)) by done. by rewrite <- !app_assoc.
Qed.

(** A token that moves to another place of the list, and changes on the
    way, changes the joined text. *)
Lemma move_token X Y Z N0 s1 m1 s2 m2 :
  numeric s1 -> numeric m1 -> numeric s2 -> numeric m2 ->
  join COLONS (X ++ (N0 ++ token_tail s1 m1) :: Y ++ Z)
  = join COLONS (X ++ Y ++ (N0 ++ token_tail s2 m2) :: Z) ->
  token_tail s1 m1 = token_tail s2 m2.
Proof.
  intros Hs1 Hm1 Hs2 Hm2 Heq.
  set (t := N0 ++ token_tail s1 m1) in *. set (t' := N0 ++ token_tail s2 m2) in *.
  change (X ++ t :: Y ++ Z) with (X ++ (t :: Y) ++ Z) in Heq.
  replace (X ++ Y ++ t' :: Z) with (X ++ (Y ++ [t']) ++ Z) in Heq
    by (by rewrite <- (app_assoc Y)).
  rewrite !join_mid in Heq by (done || by destruct Y).
  apply app_inv_head, app_inv_tail in Heq.
  destruct Y as [|y0 Y].
  - simpl in Heq. subst t t'. by apply app_inv_head in Heq.
  - rewrite join_cons, join_app in Heq by done. simpl join at 2 in Heq.
    by apply (rotate (length (join COLONS (y0 :: Y))) (join COLONS (y0 :: Y)) N0).
Qed.

Lemma sort_middle l1 t l2 :
  exists A1 A2,
    js_sort str_gtb (l1 ++ l2) = A1 ++ A2
    /\ js_sort str_gtb (l1 ++ t :: l2) = A1 ++ t :: A2.
Proof.
  rewrite (js_sort_str_perm (l1 ++ t :: l2) (t :: l1 ++ l2))
    by (symmetry; apply Permutation_middle).
  simpl. destruct (insert_sorted_split str_gtb t (js_sort str_gtb (l1 ++ l2)))
    as (A1 & A2 & E1 & E2).
  by exists A1, A2.
Qed.

(** A token that changes in the list changes the sorted and joined text. *)
Lemma sorted_join_change l1 l2 N0 s1 m1 s2 m2 :
  numeric s1 -> numeric m1 -> numeric s2 -> numeric m2 ->
  join COLONS (js_sort str_gtb (l1 ++ (N0 ++ token_tail s1 m1) :: l2))
  = join COLONS (js_sort str_gtb (l1 ++ (N0 ++ token_tail s2 m2) :: l2)) ->
  token_tail s1 m1 = token_tail s2 m2.
Proof.
  intros Hs1 Hm1 Hs2 Hm2.
  destruct (sort_middle l1 (N0 ++ token_tail s1 m1) l2) as (A1 & A2 & EA & ->).
  destruct (sort_middle l1 (N0 ++ token_tail s2 m2) l2) as (B1 & B2 & EB & ->).
  rewrite EA in EB. apply app_eq_app in EB as [Y [[-> ->]|[-> ->]]]; intros Heq.
  - symmetry. rewrite <- app_assoc in Heq. symmetry in Heq.
    by apply (move_token B1 Y A2 N0 s2 m2 s1 m1).
  - rewrite <- app_assoc in Heq.
    by apply (move_token A1 Y B2 N0 s1 m1 s2 m2).
Qed.

Section SignatureChange.
Context {host : Host} {fmt : NumberFormat}.

Lemma sig_token_tail f :
  sig_token f = name f ++ token_tail (numToString (size f)) (numToString (mtimeMs f)).
Proof. done. Qed.

(** A change of size or of timestamp changes the signature. *)
Lemma docSignature_change l1 f f' l2 :
  name f' = name f ->
  size f' <> size f \/ mtimeMs f' <> mtimeMs f ->
  docSignature (l1 ++ f' :: l2) <> docSignature (l1 ++ f :: l2).
Proof.
  intros Hname Hdiff Heq. unfold docSignature in Heq.
  rewrite !map_app in Heq. simpl map in Heq.
  rewrite !sig_token_tail, Hname in Heq.
  apply sorted_join_change in Heq; try apply num_numeric.
  apply token_tail_inj in Heq as [Hs Hm]; try apply num_numeric.
  apply num_inj in Hs, Hm. destruct Hdiff; congruence.
Qed.
End SignatureChange.

(** *** Decimal numbers as the host's numbers *)

Lemma uint_codes_plain d : plain (uint_codes d).
Proof. induction d; simpl; constructor; done. Qed.

Lemma uint_codes_inj d d' : uint_codes d = uint_codes d' -> d = d'.
Proof.
  revert d'. induction d as [|d IH|d IH|d IH|d IH|d IH|d IH|d IH|d IH|d IH|d IH];
    intros [|d'|d'|d'|d'|d'|d'|d'|d'|d'|d']; simpl; try discriminate; try done;
    intros [= E]; f_equal; by apply IH.
Qed.

Lemma dec_numeric n : numeric (dec n).
Proof.
  split; [|apply uint_codes_plain].
  unfold dec. destruct n as [|p]; [done|]. simpl.
  pose proof (DecimalPos.Unsigned.to_uint_nonnil p) as Hn.
  by destruct (Pos.to_uint p).
Qed.

#[export] Instance ascii_number_format : @NumberFormat ascii_host.
Proof.
  split.
  - apply dec_numeric.
  - intros x y Heq. by apply DecimalN.Unsigned.to_uint_inj, uint_codes_inj.
Qed.

(** A name may hold bars and colons: the signature of the sample
    directory, for the record. *)
Lemma docSignature_sample :
  docSignature sample_files
  = str "a|1::b.txt|99|1700000000001::b.txt|120|1700000000000::c.txt|7|1700000000002".
Proof. vm_compute. reflexivity. Qed.

(** C6: the signature is the same for two listings with the same
    (name, size, mtime) triples in any order; a listing with one file more
    (or one file less) has another signature; and, [Number::toString]
    giving different numbers different texts without bar or colon, so has
    a listing where one file has another size or another timestamp. *)
Theorem C6_signature `{Host} :
  (forall files files',
     map sig_triple files ≡ₚ map sig_triple files' ->
     docSignature files = docSignature files')
  /\ (forall f files files',
        map sig_triple files' ≡ₚ map sig_triple (f :: files) ->
        docSignature files' <> docSignature files
        /\ docSignature files <> docSignature files')
  /\ (NumberFormat ->
      forall l1 f f' l2,
        name f' = name f ->
        size f' <> size f \/ mtimeMs f' <> mtimeMs f ->
        docSignature (l1 ++ f' :: l2) <> docSignature (l1 ++ f :: l2)).
Proof.
  split; [apply docSignature_perm|]. split.
  - intros f files files' Hp.
    pose proof (docSignature_add f files) as Hlt.
    rewrite <- (docSignature_perm files' (f :: files) Hp) in Hlt.
    split; intros Heq; rewrite Heq in Hlt; lia.
  - intros fmt. apply docSignature_change.
Qed.

Lemma C6_witness :
  docSignature [sample_file "b.txt" 120 1700000000000;
                sample_file "a|1::b.txt" 100 1700000000001;
                sample_file "c.txt" 7 1700000000002]
  <> docSignature sample_files.
Proof.
  apply (proj2 (proj2 (@C6_signature ascii_host)) ascii_number_format
           [sample_file "b.txt" 120 1700000000000]
           (sample_file "a|1::b.txt" 99 1700000000001)
           (sample_file "a|1::b.txt" 100 1700000000001)
           [sample_file "c.txt" 7 1700000000002]).
  - reflexivity.
  - left. discriminate.
Defined.

(** * Further properties of the code *)

(** ** The normalizer and the chunker, beyond the specification *)

Lemma starts_with_cons c pre d s :
  starts_with (c :: pre) (d :: s) = bool_decide (d = c) && starts_with pre s.
Proof.
  unfold starts_with, str_eqb. simpl.
  destruct (bool_decide_reflect (d = c)) as [->|Hn]; simpl.
  - apply bool_decide_ext. split; [by intros [= ->]|by intros ->].
  - apply bool_decide_eq_false. by intros [= ? ?].
Qed.

Lemma starts_with_nil_r c pre : starts_with (c :: pre) [] = false.
Proof. done. Qed.

Lemma includes_cons needle c s :
  includes needle (c :: s) = starts_with needle (c :: s) || includes needle s.
Proof. done. Qed.

Lemma clean_no_3lf u : clean bad_3lf u = true -> includes [10; 10; 10]%N u = false.
Proof.
  induction u as [|c r IH]; [done|].
  intros [Hb Hc]%clean_cons. rewrite includes_cons, (IH Hc), orb_false_r.
  rewrite starts_with_cons. destruct (bool_decide_reflect (c = 10%N)) as [->|]; [|done].
  simpl. unfold bad_3lf in Hb. simpl in Hb.
  destruct r as [|d r]; [done|]. rewrite starts_with_cons.
  destruct (bool_decide_reflect (d = 10%N)) as [->|]; [|done].
  destruct r as [|e r]; [done|]. rewrite starts_with_cons.
  destruct (bool_decide_reflect (e = 10%N)) as [->|]; [|done].
  done.
Qed.

Lemma clean_no_blank_lf u c :
  is_blank c = true -> clean bad_blank_lf u = true -> includes [c; 10%N] u = false.
Proof.
  intros Hbl. induction u as [|x r IH]; [done|].
  intros [Hb Hc]%clean_cons. rewrite includes_cons, (IH Hc), orb_false_r.
  rewrite starts_with_cons. destruct (bool_decide_reflect (x = c)) as [->|]; [|done].
  simpl. unfold bad_blank_lf in Hb. rewrite Hbl in Hb. simpl in Hb.
  destruct r as [|d r]; [done|]. rewrite starts_with_cons.
  destruct (bool_decide_reflect (d = 10%N)) as [->|]; [|done]. done.
Qed.

Lemma clean_no_2blank u c d :
  is_blank c = true -> is_blank d = true -> clean bad_2blank u = true ->
  includes [c; d] u = false.
Proof.
  intros Hc Hd. induction u as [|x r IH]; [done|].
  intros [Hb Hcl]%clean_cons. rewrite includes_cons, (IH Hcl), orb_false_r.
  rewrite starts_with_cons. destruct (bool_decide_reflect (x = c)) as [->|]; [|done].
  simpl. unfold bad_2blank in Hb. rewrite Hc in Hb. simpl in Hb.
  destruct r as [|y r]; [done|]. rewrite starts_with_cons.
  destruct (bool_decide_reflect (y = d)) as [->|]; [|done].
  simpl in Hb. congruence.
Qed.

Lemma normalize_length v : length (normalizeWhitespace v) <= length (or_empty v).
Proof.
  unfold normalizeWhitespace.
  pose proof (trim_length (collapse_blanks false (collapse_newlines
     (strip_blanks_before_lf (replace_crlf (or_empty v)))))).
  pose proof (collapse_blanks_length false (collapse_newlines
     (strip_blanks_before_lf (replace_crlf (or_empty v))))).
  pose proof (collapse_newlines_length (strip_blanks_before_lf (replace_crlf (or_empty v)))).
  pose proof (strip_length (replace_crlf (or_empty v))).
  pose proof (replace_crlf_length_aux (length (or_empty v)) (or_empty v) (le_n _)) as [? _].
  lia.
Qed.

(** X1: whatever the input, the normalized text has no white space at
    either end, no run of three line feeds, no space or tab right before a
    line feed and no two adjacent spaces or tabs, and it is not longer than
    the input. *)
Theorem X1_normalize_shape (v : option jsstring) :
  trim (normalizeWhitespace v) = normalizeWhitespace v
  /\ includes [10; 10; 10]%N (normalizeWhitespace v) = false
  /\ includes [32; 10]%N (normalizeWhitespace v) = false
  /\ includes [9; 10]%N (normalizeWhitespace v) = false
  /\ includes [32; 32]%N (normalizeWhitespace v) = false
  /\ includes [32; 9]%N (normalizeWhitespace v) = false
  /\ includes [9; 32]%N (normalizeWhitespace v) = false
  /\ includes [9; 9]%N (normalizeWhitespace v) = false
  /\ length (normalizeWhitespace v) <= length (or_empty v).
Proof.
  destruct (normalize_clean v) as (H1 & H2 & H3). cbv zeta in *.
  split; [apply normalize_trimmed|].
  split; [by apply clean_no_3lf|].
  split; [by apply clean_no_blank_lf|].
  split; [by apply clean_no_blank_lf|].
  split; [by apply clean_no_2blank|].
  split; [by apply clean_no_2blank|].
  split; [by apply clean_no_2blank|].
  split; [by apply clean_no_2blank|].
  apply normalize_length.
Qed.

(** *** Trimmed texts *)

Lemma drop_while_suffix f s : exists w, s = w ++ drop_while f s.
Proof.
  induction s as [|c r [w IH]]; [by exists []|].
  simpl. destruct (f c); [|by exists []].
  exists (c :: w). simpl. by rewrite <- IH.
Qed.

Lemma trimmed_parts t : trimmed t -> drop_while is_ws t = t /\ trim_end t = t.
Proof.
  intros [Hne Ht]. unfold trim, trim_start in Ht.
  destruct (drop_while_suffix is_ws t) as [w Hw].
  pose proof (trim_end_length (drop_while is_ws t)) as Hl.
  assert (length w = 0) as Hw0.
  { apply (f_equal length) in Hw. rewrite length_app in Hw.
    rewrite Ht in Hl. lia. }
  destruct w; [|done]. simpl in Hw. rewrite <- Hw in *. done.
Qed.

Lemma trimmed_head t : trimmed t -> starts_ws t = false.
Proof.
  intros Ht. destruct (trimmed_parts t Ht) as [Hd _].
  rewrite <- Hd. apply drop_while_ws_head.
Qed.

Lemma drop_while_app_keep s w :
  drop_while is_ws s <> [] -> drop_while is_ws (s ++ w) = drop_while is_ws s ++ w.
Proof.
  induction s as [|c r IH]; [done|]. simpl. destruct (is_ws c); [apply IH|done].
Qed.

Lemma drop_while_app_all s w :
  drop_while is_ws s = [] -> drop_while is_ws (s ++ w) = drop_while is_ws w.
Proof.
  induction s as [|c r IH]; [done|]. simpl. destruct (is_ws c); [apply IH|done].
Qed.

Lemma trim_end_app_keep s w :
  trim_end w <> [] -> trim_end (s ++ w) = s ++ trim_end w.
Proof.
  intros Hw. induction s as [|c r IH]; [done|].
  simpl. rewrite IH. destruct (r ++ trim_end w) eqn:E; [|done].
  by apply app_eq_nil in E as [_ ?].
Qed.

Lemma trim_end_nil_iff s : trim_end s = [] <-> forallb is_ws s = true.
Proof.
  induction s as [|c r IH]; [done|]. simpl.
  destruct (trim_end r) as [|d r'] eqn:E.
  - destruct (is_ws c); simpl; [|done]. split; [intros _; by apply IH|done].
  - split; [done|]. intros [_ Hr]%andb_true_iff. apply IH in Hr. done.
Qed.

Lemma drop_while_nil_iff s : drop_while is_ws s = [] <-> forallb is_ws s = true.
Proof.
  induction s as [|c r IH]; [done|]. simpl. destruct (is_ws c); simpl; [done|].
  split; done.
Qed.

Lemma trim_nil_iff s : trim s = [] <-> forallb is_ws s = true.
Proof.
  unfold trim, trim_start. rewrite trim_end_nil_iff.
  split.
  - intros H. destruct (drop_while is_ws s) as [|c r] eqn:E.
    + by apply drop_while_nil_iff.
    + pose proof (drop_while_ws_head s) as Hh. rewrite E in Hh. simpl in *.
      rewrite Hh in H. done.
  - intros H. apply drop_while_nil_iff in H. by rewrite H.
Qed.

(** Trimming a text that ends with a trimmed piece keeps the piece. *)
Lemma trim_app_trimmed x p :
  trimmed p ->
  trim (x ++ p) = drop_while is_ws x ++ p.
Proof.
  intros Hp. destruct (trimmed_parts p Hp) as [Hd He]. destruct Hp as [Hne _].
  unfold trim, trim_start.
  destruct (drop_while is_ws x) as [|c r] eqn:E.
  - rewrite drop_while_app_all by done. rewrite Hd. simpl. done.
  - rewrite drop_while_app_keep by (by rewrite E). rewrite E.
    rewrite trim_end_app_keep by (by rewrite He). by rewrite He.
Qed.

Lemma trim_start_of_trim x : exists w, drop_while is_ws x = trim x ++ w.
Proof. unfold trim, trim_start. apply trim_end_prefix. Qed.

Lemma occurs_in_trim_app x s p q :
  trimmed p -> q <> [] -> occurs_in q (trim x) -> occurs_in q (trim (x ++ s ++ p)).
Proof.
  intros Hp Hq (a & b & Hx).
  rewrite app_assoc, (trim_app_trimmed (x ++ s) p Hp).
  assert (drop_while is_ws x <> []) as Hne.
  { destruct (trim_start_of_trim x) as [w Hw]. rewrite Hw, Hx.
    destruct a; simpl; [|done]. destruct q; done. }
  rewrite drop_while_app_keep by done.
  destruct (trim_start_of_trim x) as [w ->]. rewrite Hx.
  exists a, (b ++ w ++ s ++ p). by rewrite <- !app_assoc.
Qed.

Lemma occurs_in_trim_last x p : trimmed p -> occurs_in p (trim (x ++ p)).
Proof.
  intros Hp. rewrite (trim_app_trimmed x p Hp).
  exists (drop_while is_ws x), []. by rewrite app_nil_r.
Qed.

Lemma paragraphs_trimmed text : Forall trimmed (paragraphs text).
Proof.
  unfold paragraphs. apply List.Forall_forall. intros p Hin.
  apply filter_In in Hin as [Hin Hne]. apply in_map_iff in Hin as (s & <- & _).
  split; [by destruct (trim s)|apply trim_idem].
Qed.

(** *** What [push] keeps *)

Lemma push_incl chunks t x : In x chunks -> In x (push chunks t).
Proof.
  unfold push. destruct (is_empty (trim t)); [done|]. intros H. apply in_or_app. by left.
Qed.

Lemma push_In chunks t : trim t <> [] -> In (trim t) (push chunks t).
Proof.
  intros H. unfold push. destruct (trim t); [done|]. simpl.
  apply in_or_app. right. by left.
Qed.

Lemma fold_push_incl sl chunks x : In x chunks -> In x (fold_left push sl chunks).
Proof.
  revert chunks. induction sl as [|s sl IH]; intros chunks H; [done|].
  simpl. apply IH. by apply push_incl.
Qed.

Lemma push_trimmed chunks t : Forall trimmed chunks -> Forall trimmed (push chunks t).
Proof.
  intros H. unfold push. destruct (trim t) eqn:E; [done|]. simpl.
  apply Forall_app. split; [done|]. constructor; [|constructor].
  split; [done|]. rewrite <- E. apply trim_idem.
Qed.

Lemma fold_push_trimmed sl chunks :
  Forall trimmed chunks -> Forall trimmed (fold_left push sl chunks).
Proof.
  revert chunks. induction sl as [|s sl IH]; intros chunks H; [done|].
  simpl. apply IH. by apply push_trimmed.
Qed.

Lemma chunk_loop_trimmed c o parts : forall chunks cur ch,
  Forall trimmed chunks ->
  chunk_loop c o parts chunks cur = Some ch -> Forall trimmed ch.
Proof.
  induction parts as [|p rest IH]; intros chunks cur ch Hc; simpl.
  - intros [= <-]. by apply push_trimmed.
  - destruct (oversized p c).
    + destruct (c =? 0); [done|]. apply IH. apply fold_push_trimmed.
      destruct (negb (is_empty (trim cur))); [by apply push_trimmed|done].
    + destruct (length cur + length p + 2 <=? c); apply IH; [done|].
      by apply push_trimmed.
Qed.

(** X2: every chunk the chunker returns is non-empty and has no white
    space at either end. *)
Theorem X2_chunks_trimmed (text : jsstring) (chunkSize overlap : nat) :
  match chunkByParagraphs text chunkSize overlap with
  | Some ch => Forall (fun t => t <> [] /\ trim t = t) ch
  | None => True
  end.
Proof.
  destruct (chunkByParagraphs text chunkSize overlap) as [ch|] eqn:E; [|done].
  by apply (chunk_loop_trimmed chunkSize overlap (paragraphs text) [] [] ch).
Qed.

(** *** A document that fits in one chunk *)

Lemma trimmed_join sep ps : ps <> [] -> Forall trimmed ps -> trimmed (join sep ps).
Proof.
  induction ps as [|p r IH]; [done|]. intros _ Hall.
  apply Forall_cons in Hall as [Hp Hr].
  destruct r as [|q r]; [done|]. rewrite join_cons by done.
  specialize (IH ltac:(done) Hr).
  split.
  - destruct Hp as [Hne _]. by destruct p.
  - rewrite app_assoc, (trim_app_trimmed _ _ IH).
    rewrite drop_while_app_keep; destruct (trimmed_parts p Hp) as [-> _].
    + by rewrite <- app_assoc.
    + by destruct Hp.
Qed.

Lemma glue_step cur p rest :
  p <> [] ->
  glue (cur ++ (if is_empty cur then [] else PARA_SEP) ++ p) rest = glue cur (p :: rest).
Proof.
  intros Hp. unfold glue. destruct cur as [|c cur].
  - simpl. destruct p; [done|]. done.
  - cbn [is_empty]. destruct ((c :: cur) ++ PARA_SEP ++ p) eqn:E; [done|].
    rewrite <- E. cbn [is_empty].
    rewrite (join_cons PARA_SEP (c :: cur) (p :: rest)) by done.
    destruct rest as [|q rest].
    + done.
    + rewrite (join_cons PARA_SEP p (q :: rest)) by done.
      rewrite (join_cons PARA_SEP _ (q :: rest)) by done.
      by rewrite <- !app_assoc.
Qed.

Lemma glue_length cur p rest :
  length cur + (if is_empty cur then 0 else 2) + length p <= length (glue cur (p :: rest)).
Proof.
  assert (length p <= length (join PARA_SEP (p :: rest))) as Hp.
  { destruct rest; [simpl; lia|]. rewrite join_cons by done. rewrite length_app. lia. }
  unfold glue. destruct cur as [|c cur]; cbn [is_empty].
  - change (length (@nil N)) with 0. lia.
  - rewrite (join_cons PARA_SEP (c :: cur)) by done. rewrite !length_app.
    change (length PARA_SEP) with 2. lia.
Qed.

Lemma chunk_loop_fits c o rest : forall cur,
  Forall trimmed rest ->
  length (glue cur rest) + 2 <= c ->
  chunk_loop c o rest [] cur = Some (push [] (glue cur rest)).
Proof.
  induction rest as [|p rest IH]; intros cur Hall Hlen.
  - simpl. unfold glue. by destruct cur.
  - apply Forall_cons in Hall as [Hp Hall].
    pose proof (glue_length cur p rest) as Hg.
    simpl chunk_loop. unfold oversized.
    destruct (Nat.ltb_spec (9 * c) (5 * length p)) as [Hlt|_]; [lia|].
    destruct (Nat.leb_spec (length cur + length p + 2) c) as [_|Hgt];
      [|destruct cur; simpl in *; lia].
    rewrite IH; [|done|]; rewrite glue_step by (by destruct Hp); done.
Qed.

(** X3: a document whose paragraphs, joined by blank lines, are at least
    two characters shorter than the chunk size gives exactly one chunk:
    those paragraphs joined by blank lines. *)
Theorem X3_one_chunk (text : jsstring) (chunkSize overlap : nat) :
  paragraphs text <> [] ->
  length (join PARA_SEP (paragraphs text)) + 2 <= chunkSize ->
  chunkByParagraphs text chunkSize overlap = Some [join PARA_SEP (paragraphs text)].
Proof.
  intros Hne Hlen. unfold chunkByParagraphs.
  rewrite chunk_loop_fits; [|apply paragraphs_trimmed|done].
  change (glue [] (paragraphs text)) with (join PARA_SEP (paragraphs text)).
  destruct (trimmed_join PARA_SEP (paragraphs text) Hne (paragraphs_trimmed text)) as [H1 H2].
  unfold push. rewrite H2. by destruct (join PARA_SEP (paragraphs text)).
Qed.

Lemma X3_witness :
  chunkByParagraphs (str "uno  dos" ++ [13; 10; 10; 10; 10]%N ++ str " tres ") 20 5
  = Some [str "uno dos" ++ [10; 10]%N ++ str "tres"].
Proof.
  assert (paragraphs (str "uno  dos" ++ [13; 10; 10; 10; 10]%N ++ str " tres ")
          = [str "uno dos"; str "tres"]) as Hp by (vm_compute; reflexivity).
  pose proof (X3_one_chunk (str "uno  dos" ++ [13; 10; 10; 10; 10]%N ++ str " tres ") 20 5)
    as H.
  rewrite Hp in H. apply H; [discriminate|vm_compute; lia].
Defined.

(** *** No paragraph is lost *)

Lemma occurs_in_nil_l q : q <> [] -> ~ occurs_in q [].
Proof. intros Hq (a & b & H). destruct a; [destruct q|]; done. Qed.

Lemma chunk_loop_keeps c o parts : forall chunks cur ch,
  Forall trimmed parts ->
  chunk_loop c o parts chunks cur = Some ch ->
  (forall t, In t chunks -> In t ch)
  /\ (forall q, q <> [] -> occurs_in q (trim cur) -> exists t, In t ch /\ occurs_in q t)
  /\ (forall p, In p parts -> oversized p c = false -> exists t, In t ch /\ occurs_in p t).
Proof.
  induction parts as [|p rest IH]; intros chunks cur ch Hall; simpl chunk_loop.
  - intros [= <-]. split; [intros t; apply push_incl|]. split; [|done].
    intros q Hq Hocc. exists (trim cur). split; [|done].
    apply push_In. intros E. rewrite E in Hocc. by apply (occurs_in_nil_l q).
  - apply Forall_cons in Hall as [Hp Hall].
    destruct (oversized p c) eqn:Eo.
    + destruct (c =? 0); [done|]. intros Hch.
      destruct (IH _ _ _ Hall Hch) as (I1 & I2 & I3).
      split; [|split].
      * intros t Ht. apply I1, fold_push_incl.
        destruct (negb (is_empty (trim cur))); [by apply push_incl|done].
      * intros q Hq Hocc.
        destruct (trim cur) as [|x r] eqn:E; [by destruct (occurs_in_nil_l q Hq)|].
        exists (trim cur). rewrite E. split; [|done]. rewrite <- E.
        apply I1, fold_push_incl. rewrite E. cbn [is_empty negb]. rewrite <- E.
        apply push_In. by rewrite E.
      * intros p' [<-|Hin] Hov; [congruence|]. by apply I3.
    + destruct (length cur + length p + 2 <=? c).
      * intros Hch. destruct (IH _ _ _ Hall Hch) as (I1 & I2 & I3).
        split; [done|]. split.
        -- intros q Hq Hocc. apply I2; [done|]. by apply occurs_in_trim_app.
        -- intros p' [<-|Hin] Hov; [|by apply I3].
           apply I2; [by destruct Hp|]. rewrite app_assoc. by apply occurs_in_trim_last.
      * intros Hch. destruct (IH _ _ _ Hall Hch) as (I1 & I2 & I3).
        split; [|split].
        -- intros t Ht. by apply I1, push_incl.
        -- intros q Hq Hocc. exists (trim cur). split; [|done].
           apply I1, push_In. intros E. rewrite E in Hocc. by apply (occurs_in_nil_l q).
        -- intros p' [<-|Hin] Hov; [|by apply I3].
           apply I2; [by destruct Hp|]. by apply occurs_in_trim_last.
Qed.

(** X4: the chunker drops no paragraph: every paragraph of the text that
    is not hard-split (its length is at most 1.8 times the chunk size)
    stands whole in one of the chunks returned. *)
Theorem X4_paragraph_kept (text : jsstring) (chunkSize overlap : nat)
    (ch : list jsstring) (p : jsstring) :
  chunkByParagraphs text chunkSize overlap = Some ch ->
  In p (paragraphs text) ->
  oversized p chunkSize = false ->
  exists t a b, In t ch /\ t = a ++ p ++ b.
Proof.
  intros Hch Hin Hov.
  destruct (chunk_loop_keeps chunkSize overlap (paragraphs text) [] [] ch
              (paragraphs_trimmed text) Hch) as (_ & _ & I3).
  destruct (I3 p Hin Hov) as (t & Ht & a & b & E). by exists t, a, b.
Qed.

Lemma X4_witness :
  exists t a b,
    In t [repeat 97%N 8; repeat 97%N 5 ++ [10; 10]%N ++ repeat 98%N 18]
    /\ t = a ++ repeat 98%N 18 ++ b.
Proof.
  apply (X4_paragraph_kept (repeat 97%N 8 ++ [10; 10]%N ++ repeat 98%N 18) 10 5).
  - vm_compute. reflexivity.
  - vm_compute. right. left. reflexivity.
  - vm_compute. reflexivity.
Defined.

(** X5: with a chunk size of zero the chunker returns only for a text
    without paragraphs (and then returns no chunk); on any other text the
    slicing loop [for (i = 0; i < p.length; i += 0)] never ends. *)
Theorem X5_zero_size (text : jsstring) (overlap : nat) :
  (paragraphs text = [] /\ chunkByParagraphs text 0 overlap = Some [])
  \/ (paragraphs text <> [] /\ chunkByParagraphs text 0 overlap = None).
Proof.
  unfold chunkByParagraphs. pose proof (paragraphs_trimmed text) as Hall.
  destruct (paragraphs text) as [|p rest]; [by left|]. right. split; [done|].
  apply Forall_cons in Hall as [[Hne _] _].
  simpl. unfold oversized. destruct p; [done|]. done.
Qed.

(** ** Cosine similarity, beyond the specification *)

Lemma fmul_comm x y : fmul x y = fmul y x.
Proof.
  unfold fmul, SFmul.
  destruct x as [sx|sx| |sx mx ex], y as [sy|sy| |sy my ey]; try done;
    rewrite ?(xorb_comm sx sy); try done.
  by rewrite (Pos.mul_comm mx my), (Z.add_comm ex ey).
Qed.

Lemma cosine_sums_swap a : forall b dot na nb,
  length a = length b ->
  cosine_sums b a dot nb na
  = let '(d, x, y) := cosine_sums a b dot na nb in (d, y, x).
Proof.
  induction a as [|x a IH]; intros [|y b] dot na nb Hlen; try done.
  simpl. rewrite IH by (simpl in Hlen; lia). by rewrite (fmul_comm y x).
Qed.

(** X6: for two vectors of the same length the cosine similarity does not
    depend on the order of its arguments, rounding included. *)
Theorem X6_cosine_symmetric (a b : list float) :
  length a = length b -> cosineSimilarity a b = cosineSimilarity b a.
Proof.
  intros Hlen. unfold cosineSimilarity.
  rewrite (cosine_sums_swap a b fzero fzero fzero Hlen).
  destruct (cosine_sums a b fzero fzero fzero) as [[d x] y].
  rewrite (orb_comm (is_zero y)), (fmul_comm (fsqrt y)). done.
Qed.

Lemma X6_witness :
  cosineSimilarity [float_of_Z 1; float_of_Z 2] [float_of_Z 3; float_of_Z (-1)]
  = cosineSimilarity [float_of_Z 3; float_of_Z (-1)] [float_of_Z 1; float_of_Z 2].
Proof. apply X6_cosine_symmetric. reflexivity. Defined.

Lemma fadd_nan_l x : fadd fNaN x = fNaN.
Proof. done. Qed.

Lemma fadd_nan_r x : fadd x fNaN = fNaN.
Proof. by destruct x. Qed.

Lemma fmul_nan_r x : fmul x fNaN = fNaN.
Proof. by destruct x. Qed.

Lemma cosine_sums_na a : forall b dot na nb,
  (cosine_sums a b dot na nb).1.2 = fold_left (fun acc x => fadd acc (fmul x x)) a na.
Proof. induction a as [|x a IH]; intros b dot na nb; [done|]. simpl. apply IH. Qed.

Lemma cosine_sums_nan a : forall na,
  cosine_sums a [] fNaN na fNaN
  = (fNaN, fold_left (fun acc x => fadd acc (fmul x x)) a na, fNaN).
Proof.
  induction a as [|x a IH]; intros na; [done|].
  cbn [cosine_sums tl fold_left]. rewrite fmul_nan_r, !fadd_nan_l. apply IH.
Qed.

Lemma cosine_sums_short a : forall b dot na nb,
  length b < length a ->
  cosine_sums a b dot na nb
  = (fNaN, fold_left (fun acc x => fadd acc (fmul x x)) a na, fNaN).
Proof.
  induction a as [|x a IH]; intros b dot na nb Hlen; [simpl in Hlen; lia|].
  destruct b as [|y b].
  - cbn [cosine_sums tl fold_left]. rewrite fmul_nan_r, !fadd_nan_r.
    apply cosine_sums_nan.
  - simpl. apply IH. simpl in Hlen. lia.
Qed.

Lemma cosine_sums_firstn a : forall b dot na nb,
  length a <= length b ->
  cosine_sums a b dot na nb = cosine_sums a (firstn (length a) b) dot na nb.
Proof.
  induction a as [|x a IH]; intros b dot na nb Hlen; [done|].
  destruct b as [|y b]; [simpl in Hlen; lia|].
  simpl. apply IH. simpl in Hlen. lia.
Qed.

(** X7: the cosine similarity never looks past the length of its first
    argument.  Components of the second vector beyond that length are
    ignored; when the second vector is the shorter one the missing
    components count as NaN, and the result is NaN, or 0 when the squares
    of the first vector sum to zero. *)
Theorem X7_cosine_lengths (a b : list float) :
  (length a <= length b ->
   cosineSimilarity a b = cosineSimilarity a (firstn (length a) b))
  /\ (length b < length a ->
      cosineSimilarity a b = if is_zero (sum_squares a) then fzero else fNaN).
Proof.
  split; intros Hlen; unfold cosineSimilarity.
  - by rewrite (cosine_sums_firstn a b _ _ _ Hlen).
  - rewrite (cosine_sums_short a b _ _ _ Hlen). fold (sum_squares a).
    destruct (is_zero (sum_squares a)); done.
Qed.

Lemma X7_witness :
  cosineSimilarity [float_of_Z 1; float_of_Z 2] [float_of_Z 3; float_of_Z 4; float_of_Z 5]
  = cosineSimilarity [float_of_Z 1; float_of_Z 2] [float_of_Z 3; float_of_Z 4]
  /\ cosineSimilarity [float_of_Z 1; float_of_Z 2] [float_of_Z 3] = fNaN.
Proof.
  split.
  - apply (proj1 (X7_cosine_lengths [float_of_Z 1; float_of_Z 2]
                    [float_of_Z 3; float_of_Z 4; float_of_Z 5])).
    simpl. lia.
  - apply (proj2 (X7_cosine_lengths [float_of_Z 1; float_of_Z 2] [float_of_Z 3])).
    simpl. lia.
Defined.

(** ** Configuration values, beyond the specification *)

Lemma Qtrunc_nonneg q : (0 <= q)%Q -> Qtrunc q = Qfloor q.
Proof.
  destruct q as [n d]. unfold Qle, Qtrunc, Qfloor. simpl. intros Hn.
  apply Z.quot_div_nonneg; lia.
Qed.

Lemma Qtrunc_nonpos q : (q <= 0)%Q -> Qtrunc q = Qceiling q.
Proof.
  destruct q as [n d]. unfold Qle, Qtrunc, Qceiling, Qfloor. simpl. intros Hn.
  rewrite <- (Z.opp_involutive n) at 1. rewrite Z.quot_opp_l by lia.
  f_equal. apply Z.quot_div_nonneg; lia.
Qed.

Lemma Qtrunc_mono q q' : (q <= q')%Q -> (Qtrunc q <= Qtrunc q')%Z.
Proof.
  intros Hle.
  destruct (Qlt_le_dec q 0) as [Hq|Hq], (Qlt_le_dec q' 0) as [Hq'|Hq'].
  - rewrite !Qtrunc_nonpos by (by apply Qlt_le_weak). by apply Qceiling_resp_le.
  - rewrite (Qtrunc_nonpos q) by (by apply Qlt_le_weak). rewrite (Qtrunc_nonneg q') by done.
    assert (Qceiling q <= 0)%Z.
    { change 0%Z with (Qceiling 0). apply Qceiling_resp_le. by apply Qlt_le_weak. }
    assert (0 <= Qfloor q')%Z.
    { change 0%Z with (Qfloor 0). by apply Qfloor_resp_le. }
    lia.
  - exfalso. apply (Qlt_irrefl 0).
    apply Qle_lt_trans with q'; [|done]. by apply Qle_trans with q.
  - rewrite !Qtrunc_nonneg by done. by apply Qfloor_resp_le.
Qed.

(** X8: [clampInt] on a finite value truncates toward zero (the floor of
    a non-negative value, the ceiling of a non-positive one) and clamps:
    the result lies between [min] and [max] when [min <= max], is [min]
    when [min > max], is the truncated value when that lies in the range,
    and grows with the value.  A value that is not finite gives the
    default as it is, inside the range or not. *)
Theorem X8_clampInt (q : Q) (def lo hi : Z) :
  ((lo <= hi)%Z -> (lo <= clampInt (JFin q) def lo hi <= hi)%Z)
  /\ ((hi < lo)%Z -> clampInt (JFin q) def lo hi = lo)
  /\ ((lo <= Qtrunc q <= hi)%Z -> clampInt (JFin q) def lo hi = Qtrunc q)
  /\ ((0 <= q)%Q -> Qtrunc q = Qfloor q)
  /\ ((q <= 0)%Q -> Qtrunc q = Qceiling q)
  /\ (forall q', (q <= q')%Q ->
        (clampInt (JFin q) def lo hi <= clampInt (JFin q') def lo hi)%Z)
  /\ clampInt JNaN def lo hi = def
  /\ (forall s, clampInt (JInf s) def lo hi = def).
Proof.
  unfold clampInt.
  split; [lia|]. split; [lia|]. split; [lia|].
  split; [apply Qtrunc_nonneg|]. split; [apply Qtrunc_nonpos|].
  split; [|done].
  intros q' Hle. pose proof (Qtrunc_mono q q' Hle). lia.
Qed.

Lemma X8_witness :
  (3 <= clampInt (JFin (-37 # 10)) 10 3 20 <= 20)%Z
  /\ clampInt (JFin (127 # 10)) 10 3 20 = 12%Z
  /\ Qtrunc (-37 # 10) = (-3)%Z.
Proof.
  split; [|split].
  - apply (proj1 (X8_clampInt (-37 # 10) 10 3 20)). lia.
  - apply (proj1 (proj2 (proj2 (X8_clampInt (127 # 10) 10 3 20)))). vm_compute.
    split; discriminate.
  - apply (proj1 (proj2 (proj2 (proj2 (proj2 (X8_clampInt (-37 # 10) 0 0 0)))))).
    vm_compute. discriminate.
Defined.

(** ** The builder and the staleness check, beyond the specification *)

Section Builder.
Context {host : Host} {env : Env}.

Lemma listDocs_mkdir (fs : FS) : listDocs (mkdir_docs fs) = listDocs fs.
Proof. unfold listDocs, mkdir_docs. simpl. by destruct (docs_dir fs). Qed.

Lemma mkdir_docs_idem (fs : FS) : mkdir_docs (mkdir_docs fs) = mkdir_docs fs.
Proof. done. Qed.

(** What a build that returns has computed. *)
Lemma buildKB_success t1 t2 (fs fs' : FS) m :
  buildKB t1 t2 fs = (fs', inr m) ->
  exists docs cs embs,
    listDocs fs <> []
    /\ read_docs (mkdir_docs fs) (listDocs fs) = Some docs
    /\ chunk_docs (Z.to_nat (chunk_size (Z.of_nat (total_chars docs))))
         (Z.to_nat (overlap_of (chunk_size (Z.of_nat (total_chars docs))))) docs = Some cs
    /\ embed_all (length cs) (map c_text cs) = Some embs
    /\ m = {| createdAt := t1; embedModel := EMBED_MODEL; chatModel := CHAT_MODEL;
              targetChunks := TARGET_CHUNKS;
              chunkSizeChars := chunk_size (Z.of_nat (total_chars docs));
              overlapChars := overlap_of (chunk_size (Z.of_nat (total_chars docs)));
              docCount := length docs;
              chunkCount := length (attach_embeddings cs 0 embs);
              docsSignature := docSignature (listDocs fs) |}
    /\ fs' = {| docs_dir := Some (default [] (docs_dir fs));
                files := <[KB_PATH := KbJson {| meta := m;
                                                chunks := attach_embeddings cs 0 embs |}]>
                           (match files fs !! KB_PATH with
                            | Some old => <[backup_path t2 := old]> (files fs)
                            | None => files fs
                            end) |}.
Proof.
  unfold buildKB. rewrite !listDocs_mkdir.
  destruct (listDocs fs) as [|f fl] eqn:El; [done|]. cbn [is_empty_list].
  destruct (read_docs _ _) as [docs|] eqn:Er; [|done].
  destruct (chunk_docs _ _ _) as [cs|] eqn:Ec; [|done].
  destruct (embed_all _ _) as [embs|] eqn:Ee; [|done].
  intros [= <- <-]. exists docs, cs, embs. repeat split; done.
Qed.

Lemma docSignature_nonempty (fl : list DocFile) : fl <> [] -> docSignature fl <> [].
Proof.
  intros Hne E. apply (f_equal length) in E. rewrite docSignature_length in E.
  destruct fl as [|f fl]; [done|]. simpl in E. pose proof (sig_token_length f). lia.
Qed.

Lemma str_eqb_refl s : str_eqb s s = true.
Proof. by apply bool_decide_eq_true. Qed.

(** X9: right after a build that returns, the index on disk is not stale:
    it holds the metadata the build returned, and the staleness check on
    it, against the directory as the build left it, answers false and
    changes nothing. *)
Theorem X9_fresh_after_build (t_created t_backup : jsstring) (fs fs' : FS) (m : Meta) :
  buildKB t_created t_backup fs = (fs', inr m) ->
  exists kb,
    files fs' !! KB_PATH = Some (KbJson kb)
    /\ meta kb = m
    /\ kbIsStale (Some kb) fs' = (fs', false).
Proof.
  intros Hb. destruct (buildKB_success _ _ _ _ _ Hb) as (docs & cs & embs & Hl & _ & _ & _ & Hm & ->).
  eexists. split; [apply lookup_insert_eq|]. split; [done|].
  assert (docsSignature m = docSignature (listDocs fs)) as Hs by (by rewrite Hm).
  unfold kbIsStale. cbn [meta]. rewrite Hs.
  destruct (docSignature (listDocs fs)) as [|c r] eqn:E;
    [by apply docSignature_nonempty in E|].
  cbn [is_empty]. f_equal. rewrite listDocs_mkdir.
  change (listDocs _) with (listDocs fs). by rewrite E, str_eqb_refl.
Qed.

Lemma kbIsStale_fresh kb (fs fs1 : FS) :
  kbIsStale (Some kb) fs = (fs1, false) ->
  docSignature (listDocs fs) = docsSignature (meta kb).
Proof.
  unfold kbIsStale. destruct (is_empty _); [done|]. rewrite listDocs_mkdir.
  intros [= _ H]. apply negb_false_iff in H. by apply bool_decide_eq_true in H.
Qed.

Lemma kbIsStale_differs kb (fs fs2 : FS) fs1 :
  kbIsStale (Some kb) fs = (fs1, false) ->
  docSignature (listDocs fs2) <> docSignature (listDocs fs) ->
  (kbIsStale (Some kb) fs2).2 = true.
Proof.
  intros Hf Hne. pose proof (kbIsStale_fresh _ _ _ Hf) as E.
  unfold kbIsStale. destruct (is_empty _); [done|]. rewrite listDocs_mkdir.
  cbn [snd]. apply negb_true_iff, bool_decide_eq_false. by rewrite <- E.
Qed.

(** X10: an index that is fresh for a directory is stale for a directory
    that lists one document more or one document less, and, when
    [Number::toString] tells numbers apart without bars and colons, for a
    directory where one document has another size or another modification
    time.  A missing index is always stale. *)
Theorem X10_stale_after_change (kb : KB) (fs fs1 fs2 : FS) :
  kbIsStale (Some kb) fs = (fs1, false) ->
  (forall f, listDocs fs2 ≡ₚ f :: listDocs fs -> (kbIsStale (Some kb) fs2).2 = true)
  /\ (forall f, listDocs fs ≡ₚ f :: listDocs fs2 -> (kbIsStale (Some kb) fs2).2 = true)
  /\ (NumberFormat ->
      forall l1 f f' l2,
        listDocs fs = l1 ++ f :: l2 ->
        listDocs fs2 = l1 ++ f' :: l2 ->
        name f' = name f ->
        size f' <> size f \/ mtimeMs f' <> mtimeMs f ->
        (kbIsStale (Some kb) fs2).2 = true)
  /\ (kbIsStale None fs2).2 = true.
Proof.
  intros Hf. split; [|split; [|split; [|done]]].
  - intros f Hp. apply (kbIsStale_differs kb fs fs2 fs1 Hf).
    rewrite (docSignature_perm (listDocs fs2) (f :: listDocs fs))
      by (by apply Permutation_map).
    intros E. pose proof (docSignature_add f (listDocs fs)) as Hlt. rewrite E in Hlt. lia.
  - intros f Hp. apply (kbIsStale_differs kb fs fs2 fs1 Hf).
    rewrite (docSignature_perm (listDocs fs) (f :: listDocs fs2))
      by (by apply Permutation_map).
    intros E. pose proof (docSignature_add f (listDocs fs2)) as Hlt. rewrite E in Hlt. lia.
  - intros fmt l1 f f' l2 E1 E2 Hn Hd. apply (kbIsStale_differs kb fs fs2 fs1 Hf).
    rewrite E1, E2. by apply docSignature_change.
Qed.

(** X11: a build that returns leaves the directory of documents as it
    found it (created if it was missing), writes the new index with the
    returned metadata, copies a previous index, content unchanged, to the
    backup path (and creates no backup when there was none), and touches
    no other file. *)
Theorem X11_build_files (t_created t_backup : jsstring) (fs fs' : FS) (m : Meta) :
  buildKB t_created t_backup fs = (fs', inr m) ->
  docs_dir fs' = Some (default [] (docs_dir fs))
  /\ (exists kb, files fs' !! KB_PATH = Some (KbJson kb) /\ meta kb = m
                 /\ chunkCount m = length (chunks kb))
  /\ (forall old, files fs !! KB_PATH = Some old ->
        files fs' !! backup_path t_backup = Some old)
  /\ (files fs !! KB_PATH = None ->
        files fs' !! backup_path t_backup = files fs !! backup_path t_backup)
  /\ (forall p, p <> KB_PATH -> p <> backup_path t_backup ->
        files fs' !! p = files fs !! p).
Proof.
  intros Hb. destruct (buildKB_success _ _ _ _ _ Hb) as (docs & cs & embs & Hl & _ & _ & _ & Hm & ->).
  assert (backup_path t_backup <> KB_PATH) as Hbk by done.
  cbn [docs_dir files]. split; [done|]. split.
  { eexists. split; [apply lookup_insert_eq|]. split; [done|]. by rewrite Hm. }
  split; [|split].
  - intros old Ho. rewrite Ho. rewrite lookup_insert_ne by done. apply lookup_insert_eq.
  - intros Hn. rewrite Hn. by rewrite lookup_insert_ne.
  - intros p H1 H2. rewrite lookup_insert_ne by done.
    destruct (files fs !! KB_PATH); [by rewrite lookup_insert_ne|done].
Qed.
End Builder.

Lemma X9_witness :
  exists kb fs',
    files fs' !! KB_PATH = Some (KbJson kb)
    /\ @kbIsStale ascii_host (Some kb) fs' = (fs', false).
Proof.
  destruct (@buildKB ascii_host default_env (str "t1") (str "t2") long_note_fs)
    as [fs' [e|m]] eqn:Hb; [vm_compute in Hb; discriminate|].
  destruct (X9_fresh_after_build (str "t1") (str "t2") long_note_fs fs' m Hb)
    as (kb & H1 & _ & H2).
  by exists kb, fs'.
Defined.

Lemma X10_witness : (@kbIsStale ascii_host (Some note_kb) two_notes_fs).2 = true.
Proof.
  apply (proj1 (X10_stale_after_change note_kb long_note_fs long_note_fs two_notes_fs
                  ltac:(vm_compute; reflexivity))
           (@Build_DocFile ascii_host (str "otra.md") (str "docs/otra.md") 7%N
              1700000000001%N (str ".md"))).
  vm_compute. reflexivity.
Defined.

Lemma X11_witness :
  files (@buildKB ascii_host default_env (str "t1") (str "t2") rebuild_fs).1
    !! backup_path (str "t2")
  = Some (Bytes (str "old index")).
Proof.
  destruct (@buildKB ascii_host default_env (str "t1") (str "t2") rebuild_fs)
    as [fs' [e|m]] eqn:Hb; [vm_compute in Hb; discriminate|].
  apply (proj1 (proj2 (proj2 (X11_build_files (str "t1") (str "t2") rebuild_fs fs' m Hb)))).
  reflexivity.
Defined.

(** *** The chunks of the index *)

Section IndexShape.
Context {host : Host} {env : Env}.

Lemma read_docs_names (fs : FS) fl : forall docs,
  read_docs fs fl = Some docs ->
  sublist (map d_name docs) (map name fl) /\ length docs <= length fl.
Proof.
  induction fl as [|f fl IH]; intros docs; simpl.
  - intros [= <-]. split; [constructor|done].
  - destruct (readDocText fs f) as [raw|]; [|done].
    destruct (read_docs fs fl) as [ds|]; [|done].
    destruct (IH ds eq_refl) as [Hs Hl].
    destruct (length _ <? 80); intros [= <-].
    + split; [by apply sublist_cons|lia].
    + split; [by apply sublist_skip|simpl; lia].
Qed.

Lemma listDocs_names (fs : FS) :
  sublist (map name (listDocs fs)) (map e_name (default [] (docs_dir fs))).
Proof.
  unfold listDocs. induction (default [] (docs_dir fs)) as [|e l IH]; [constructor|].
  simpl. destruct (starts_with _ _); [by apply sublist_cons|].
  destruct (negb (e_isFile e)); [by apply sublist_cons|].
  destruct (negb (supported_ext _)); [by apply sublist_cons|].
  by apply sublist_skip.
Qed.

Lemma number_chunks_shape nm ch : forall i,
  Forall (fun c => c_id c = c_doc c ++ COLONS ++ dec (N.of_nat (c_chunkIndex c))
                   /\ c_doc c = nm /\ In (c_text c) ch)
    (number_chunks nm i ch)
  /\ map c_chunkIndex (number_chunks nm i ch) = seq i (length ch).
Proof.
  induction ch as [|t r IH]; intros i; [by split; constructor|].
  destruct (IH (S i)) as [H1 H2]. simpl. split.
  - constructor; [split; [done|split; [done|by left]]|].
    eapply List.Forall_impl; [|exact H1]. simpl. intros c (? & ? & ?).
    split; [done|split; [done|by right]].
  - by rewrite H2.
Qed.

Lemma chunk_docs_shape size overlap docs : forall cs,
  chunk_docs size overlap docs = Some cs ->
  Forall (fun c => c_id c = c_doc c ++ COLONS ++ dec (N.of_nat (c_chunkIndex c))
                   /\ trimmed (c_text c)
                   /\ In (c_doc c) (map d_name docs)) cs.
Proof.
  induction docs as [|d docs IH]; intros cs; simpl.
  - intros [= <-]. constructor.
  - destruct (chunkByParagraphs (d_text d) size overlap) as [ch|] eqn:Ech; [|done].
    destruct (chunk_docs size overlap docs) as [cs'|]; [|done].
    intros [= <-]. apply Forall_app. split.
    + pose proof (chunk_loop_trimmed size overlap _ [] [] ch ltac:(constructor) Ech) as Ht.
      destruct (number_chunks_shape (d_name d) ch 0) as [Hs _].
      eapply List.Forall_impl; [|exact Hs]. simpl. intros c (Hid & Hd & Hin).
      split; [done|]. split; [|by left].
      by apply (proj1 (List.Forall_forall _ _) Ht).
    + eapply List.Forall_impl; [|exact (IH cs' eq_refl)]. simpl.
      intros c (? & ? & ?). split; [done|split; [done|by right]].
Qed.

Lemma chunk_docs_keys size overlap docs : forall cs,
  NoDup (map d_name docs) ->
  chunk_docs size overlap docs = Some cs ->
  NoDup (map chunk_key cs).
Proof.
  induction docs as [|d docs IH]; intros cs Hnd; simpl.
  - intros [= <-]. constructor.
  - destruct (chunkByParagraphs (d_text d) size overlap) as [ch|]; [|done].
    destruct (chunk_docs size overlap docs) as [cs'|] eqn:Ecs; [|done].
    intros [= <-]. simpl in Hnd. apply NoDup_cons in Hnd as [Hnot Hnd].
    rewrite map_app. apply NoDup_app. split; [|split].
    + destruct (number_chunks_shape (d_name d) ch 0) as [Hs Hi].
      apply (NoDup_fmap_1 snd). rewrite <- list_fmap_compose.
      change (snd ∘ chunk_key) with c_chunkIndex.
      change (c_chunkIndex <$> _) with (map c_chunkIndex (number_chunks (d_name d) 0 ch)).
      rewrite Hi. apply NoDup_seq.
    + intros k Hk1 Hk2.
      apply list_elem_of_In, in_map_iff in Hk1 as (c1 & <- & Hc1).
      apply list_elem_of_In, in_map_iff in Hk2 as (c2 & Heq & Hc2).
      destruct (number_chunks_shape (d_name d) ch 0) as [Hs _].
      pose proof (proj1 (List.Forall_forall _ _) Hs c1 Hc1) as (_ & Hd1 & _).
      pose proof (proj1 (List.Forall_forall _ _) (chunk_docs_shape _ _ _ _ Ecs) c2 Hc2)
        as (_ & _ & Hd2).
      apply Hnot. apply list_elem_of_In. rewrite <- Hd1.
      injection Heq as Hdoc _. by rewrite <- Hdoc.
    + by apply IH.
Qed.

Lemma attach_embeddings_fields cs : forall i embs,
  map c_id (attach_embeddings cs i embs) = map c_id cs
  /\ map chunk_key (attach_embeddings cs i embs) = map chunk_key cs
  /\ map c_text (attach_embeddings cs i embs) = map c_text cs
  /\ length (attach_embeddings cs i embs) = length cs.
Proof.
  induction cs as [|c cs IH]; intros i embs; [done|].
  destruct (IH (S i) embs) as (H1 & H2 & H3 & H4). simpl.
  by rewrite H1, H2, H3, H4.
Qed.

Lemma Forall_attach (P : jsstring -> jsstring -> nat -> jsstring -> Prop) cs : forall i embs,
  Forall (fun c => P (c_id c) (c_doc c) (c_chunkIndex c) (c_text c)) cs ->
  Forall (fun c => P (c_id c) (c_doc c) (c_chunkIndex c) (c_text c))
    (attach_embeddings cs i embs).
Proof.
  induction cs as [|c cs IH]; intros i embs H; [constructor|].
  apply Forall_cons in H as [Hc H]. simpl. constructor; [done|]. by apply IH.
Qed.

(** X12: in the index of a build that returns, every chunk is named
    [doc::index] after its document and its index, its document is one of
    the listed files, and its text is non-empty with no white space at
    either end; the metadata count the chunks of the index and at most as
    many documents as files were listed. *)
Theorem X12_index_shape (t_created t_backup : jsstring) (fs fs' : FS) (m : Meta) :
  buildKB t_created t_backup fs = (fs', inr m) ->
  exists kb,
    files fs' !! KB_PATH = Some (KbJson kb)
    /\ chunkCount m = length (chunks kb)
    /\ docCount m <= length (listDocs fs)
    /\ Forall (fun c =>
                 c_id c = c_doc c ++ COLONS ++ dec (N.of_nat (c_chunkIndex c))
                 /\ (c_text c <> [] /\ trim (c_text c) = c_text c)
                 /\ exists f, In f (listDocs fs) /\ name f = c_doc c)
         (chunks kb).
Proof.
  intros Hb.
  destruct (buildKB_success _ _ _ _ _ Hb) as (docs & cs & embs & Hl & Hr & Hc & _ & Hm & ->).
  eexists. split; [apply lookup_insert_eq|]. cbn [chunks].
  destruct (read_docs_names _ _ _ Hr) as [Hsub Hlen].
  split; [by rewrite Hm|]. split; [by rewrite Hm|].
  apply (Forall_attach (fun id d i t =>
           id = d ++ COLONS ++ dec (N.of_nat i) /\ (t <> [] /\ trim t = t)
           /\ exists f, In f (listDocs fs) /\ name f = d)).
  eapply List.Forall_impl; [|exact (chunk_docs_shape _ _ _ _ Hc)]. simpl.
  intros c (Hid & Ht & Hin). split; [done|]. split; [done|].
  apply list_elem_of_In in Hin. apply (fun H => elem_of_sublist _ _ _ H Hsub) in Hin.
  apply list_elem_of_In, in_map_iff in Hin as (f & Hf & Hin). by exists f.
Qed.

Lemma colon_suffix_inj d1 d2 : forall a b,
  nocolon d1 -> nocolon d2 ->
  a ++ 58%N :: d1 = b ++ 58%N :: d2 -> a = b /\ d1 = d2.
Proof.
  induction a as [|c a IH]; intros [|c' b] H1 H2 E; simpl in E.
  - by injection E.
  - injection E as <- E. subst d1. apply Forall_app in H1 as [_ H1].
    by apply Forall_cons in H1 as [? _].
  - injection E as -> E. subst d2. apply Forall_app in H2 as [_ H2].
    by apply Forall_cons in H2 as [? _].
  - injection E as -> E. destruct (IH b H1 H2 E) as [-> ->]. done.
Qed.

Lemma dec_nocolon n : nocolon (dec n).
Proof.
  eapply List.Forall_impl; [|apply uint_codes_plain]. simpl. by intros c [_ ?].
Qed.

Lemma dec_inj n n' : dec n = dec n' -> n = n'.
Proof. intros E. by apply DecimalN.Unsigned.to_uint_inj, uint_codes_inj. Qed.

Lemma chunk_id_inj (k k' : jsstring * nat) :
  k.1 ++ COLONS ++ dec (N.of_nat k.2) = k'.1 ++ COLONS ++ dec (N.of_nat k'.2) -> k = k'.
Proof.
  destruct k as [d i], k' as [d' i']. simpl. intros E.
  change (d ++ 58%N :: 58%N :: dec (N.of_nat i)) with (d ++ [58%N] ++ 58%N :: dec (N.of_nat i)) in E.
  change (d' ++ 58%N :: 58%N :: dec (N.of_nat i')) with (d' ++ [58%N] ++ 58%N :: dec (N.of_nat i')) in E.
  rewrite !app_assoc in E.
  apply colon_suffix_inj in E as [E1 E2]; try apply dec_nocolon.
  apply app_inv_tail in E1. apply dec_inj, Nat2N.inj in E2. by subst.
Qed.

(** X13: when no two entries of the directory have the same name, no two
    chunks of the index of a build that returns have the same id, nor the
    same document and index. *)
Theorem X13_chunk_ids_unique (t_created t_backup : jsstring) (fs fs' : FS) (m : Meta) :
  NoDup (map e_name (default [] (docs_dir fs))) ->
  buildKB t_created t_backup fs = (fs', inr m) ->
  exists kb,
    files fs' !! KB_PATH = Some (KbJson kb)
    /\ NoDup (map c_id (chunks kb))
    /\ NoDup (map (fun c => (c_doc c, c_chunkIndex c)) (chunks kb)).
Proof.
  intros Hnd Hb.
  destruct (buildKB_success _ _ _ _ _ Hb) as (docs & cs & embs & Hl & Hr & Hc & _ & Hm & ->).
  eexists. split; [apply lookup_insert_eq|]. cbn [chunks].
  destruct (attach_embeddings_fields cs 0 embs) as (Hid & Hk & _ & _).
  change (fun c => (c_doc c, c_chunkIndex c)) with chunk_key. rewrite Hid, Hk.
  destruct (read_docs_names _ _ _ Hr) as [Hsub _].
  assert (NoDup (map d_name docs)) as Hdocs.
  { eapply sublist_NoDup; [|exact Hsub].
    eapply sublist_NoDup; [exact Hnd|apply listDocs_names]. }
  pose proof (chunk_docs_keys _ _ _ _ Hdocs Hc) as Hkeys.
  split; [|done].
  assert (map c_id cs = map (fun k => k.1 ++ COLONS ++ dec (N.of_nat k.2)) (map chunk_key cs))
    as ->.
  { rewrite map_map. apply map_ext_Forall.
    eapply List.Forall_impl; [|exact (chunk_docs_shape _ _ _ _ Hc)]. simpl.
    by intros c (? & _). }
  apply NoDup_fmap_2; [|done]. intros k k'. apply chunk_id_inj.
Qed.
End IndexShape.

Lemma X12_witness :
  exists kb, files (@buildKB ascii_host default_env (str "t1") (str "t2") long_note_fs).1
               !! KB_PATH = Some (KbJson kb)
             /\ length (chunks kb) = 1.
Proof.
  destruct (@buildKB ascii_host default_env (str "t1") (str "t2") long_note_fs)
    as [fs' [e|m]] eqn:Hb; [vm_compute in Hb; discriminate|].
  destruct (X12_index_shape (str "t1") (str "t2") long_note_fs fs' m Hb)
    as (kb & H1 & H2 & _).
  exists kb. split; [exact H1|]. rewrite <- H2.
  assert (chunkCount m = 1) as ->; [|reflexivity].
  vm_compute in Hb. by injection Hb as _ <-.
Defined.

Lemma X13_witness :
  exists kb, files (@buildKB ascii_host default_env (str "t1") (str "t2") two_long_fs).1
               !! KB_PATH = Some (KbJson kb)
             /\ map c_doc (chunks kb)
                = [str "a.txt"; str "a.txt"; str "a.txt"; str "b.md"; str "b.md"; str "b.md"]
             /\ NoDup (map c_id (chunks kb))
             /\ NoDup (map (fun c => (c_doc c, c_chunkIndex c)) (chunks kb)).
Proof.
  assert (Hn : match files (@buildKB ascii_host default_env (str "t1") (str "t2")
                              two_long_fs).1 !! KB_PATH with
               | Some (KbJson kb) => map c_doc (chunks kb)
               | _ => []
               end
               = [str "a.txt"; str "a.txt"; str "a.txt"; str "b.md"; str "b.md"; str "b.md"])
    by (vm_compute; reflexivity).
  destruct (@buildKB ascii_host default_env (str "t1") (str "t2") two_long_fs)
    as [fs' [e|m]] eqn:Hb; [vm_compute in Hb; discriminate|].
  destruct (X13_chunk_ids_unique (str "t1") (str "t2") two_long_fs fs' m
              ltac:(apply (bool_decide_unpack _); vm_compute; exact I) Hb)
    as (kb & H1 & H2 & H3).
  exists kb. cbn [fst] in Hn |- *. rewrite H1 in Hn.
  split; [exact H1|]. split; [exact Hn|]. split; [exact H2|exact H3].
Defined.

(** ** The retriever, beyond the specification *)

Lemma count_doc_cons d s l : count_doc d (s :: l) = count_doc d [s] + count_doc d l.
Proof. apply (count_doc_app d [s] l). Qed.

Lemma count_doc_perm d l l' : l ≡ₚ l' -> count_doc d l = count_doc d l'.
Proof.
  induction 1 as [|x l l' _ IH|x y l|l l' l'' _ IH1 _ IH2]; [done| | |congruence].
  - by rewrite (count_doc_cons d x l), (count_doc_cons d x l'), IH.
  - rewrite (count_doc_cons d y (x :: l)), (count_doc_cons d x l),
      (count_doc_cons d x (y :: l)), (count_doc_cons d y l). lia.
Qed.

Lemma greedy_select_count topK cap l : forall acc,
  (forall d, count_doc d acc <= cap) ->
  topK <= length (greedy_select topK cap l acc)
  \/ forall d, count_doc d (greedy_select topK cap l acc)
               = Nat.min cap (count_doc d acc + count_doc d l).
Proof.
  induction l as [|s rest IH]; intros acc Hcap.
  - right. intros d. specialize (Hcap d). unfold count_doc at 3. simpl. lia.
  - simpl. destruct (Nat.leb_spec topK (length acc)) as [Hk|Hk]; [by left|].
    destruct (Nat.leb_spec cap (count_doc (s_doc s) acc)) as [Hc|Hc].
    + destruct (IH acc Hcap) as [Hl|Hr]; [by left|]. right. intros d.
      rewrite Hr, (count_doc_cons d s rest), count_doc_single.
      destruct (bool_decide_reflect (s_doc s = d)) as [<-|]; lia.
    + assert (forall d, count_doc d (acc ++ [s]) <= cap) as Hcap'.
      { intros d. rewrite count_doc_app, count_doc_single. specialize (Hcap d).
        destruct (bool_decide_reflect (s_doc s = d)) as [<-|]; lia. }
      destruct (IH (acc ++ [s]) Hcap') as [Hl|Hr]; [by left|]. right. intros d.
      rewrite Hr, count_doc_app, (count_doc_cons d s rest). lia.
Qed.

Lemma score_all_chunks q cs : forall scored,
  score_all q cs = Some scored -> Forall2 from_chunk scored cs.
Proof.
  induction cs as [|c cs IH]; intros scored; simpl.
  - intros [= <-]. constructor.
  - destruct (score_chunk q c) as [s|] eqn:Es; [|done].
    destruct (score_all q cs) as [ss|]; [|done]. intros [= <-].
    constructor; [|by apply IH].
    unfold score_chunk in Es. destruct q as [a|]; [|done].
    destruct (c_embedding c); [by injection Es as <-|].
    destruct (is_empty_list a); [by injection Es as <-|done].
Qed.

Lemma from_chunk_count d scored cs :
  Forall2 from_chunk scored cs -> count_doc d scored = doc_chunks d cs.
Proof.
  unfold count_doc, doc_chunks. induction 1 as [|s c scored cs (Hd & _ & _) _ IH]; [done|].
  simpl. rewrite Hd. destruct (str_eqb (c_doc c) d); simpl; by rewrite IH.
Qed.

Section Retrieval.
Context {env : Env} {engine : Engine} {laws : SortLaws}.

Lemma retrieve_greedy (kb : KB) query res :
  retrieve kb query = Some res ->
  exists resp scored,
    embedBatch [query] = Some resp
    /\ score_all (hd_error resp) (chunks kb) = Some scored
    /\ res = greedy_select (Z.to_nat TOP_K) (Z.to_nat PER_DOC_CAP)
               (array_sort score_compare scored) [].
Proof.
  pose proof TOP_K_range as Hk.
  unfold retrieve, ranked.
  destruct (embedBatch [query]) as [resp|] eqn:Er; [|done].
  destruct (score_all (hd_error resp) (chunks kb)) as [scored|] eqn:Es; [|done].
  intros [= <-]. exists resp, scored.
  rewrite pick_greedy by (done || simpl; lia). done.
Qed.

(** X14: a retrieval that returns gives exactly [TOP_K] results, or else
    as many results for each document as the index has chunks of it, up to
    [PER_DOC_CAP]: no chunk is left out for another reason than one of the
    two limits.  Every result is made from a chunk of the index (its
    document, index and text), and an index without chunks gives no
    result. *)
Theorem X14_retrieve_count (kb : KB) (query : jsstring) (res : list Scored) :
  retrieve kb query = Some res ->
  (Z.of_nat (length res) = TOP_K
   \/ forall d, Z.of_nat (count_doc d res)
                = Z.min PER_DOC_CAP (Z.of_nat (doc_chunks d (chunks kb))))
  /\ Forall (fun s => exists c, In c (chunks kb) /\ from_chunk s c) res
  /\ (chunks kb = [] -> res = []).
Proof.
  pose proof TOP_K_range as Hk. pose proof PER_DOC_CAP_range as Hc.
  intros Hr. destruct (retrieve_greedy kb query res Hr) as (resp & scored & _ & Hs & ->).
  pose proof (score_all_chunks _ _ _ Hs) as Hfc.
  destruct (greedy_select_sublist (Z.to_nat TOP_K) (Z.to_nat PER_DOC_CAP)
              (array_sort score_compare scored) []) as (l' & El & Hsub).
  simpl in El. split; [|split].
  - destruct (greedy_select_count (Z.to_nat TOP_K) (Z.to_nat PER_DOC_CAP)
                (array_sort score_compare scored) [] (fun _ => Nat.le_0_l _)) as [Hl|Hcnt].
    + left. pose proof (greedy_select_length (Z.to_nat TOP_K) (Z.to_nat PER_DOC_CAP)
                          (array_sort score_compare scored) []). simpl in *. lia.
    + right. intros d. rewrite Hcnt.
      change (count_doc d []) with 0.
      rewrite (count_doc_perm d _ _ (sort_perm _ score_compare scored)).
      rewrite (from_chunk_count d scored (chunks kb) Hfc). lia.
  - rewrite El. apply List.Forall_forall. intros s Hin.
    apply list_elem_of_In in Hin. apply (fun H => elem_of_sublist _ _ _ H Hsub) in Hin.
    rewrite (sort_perm _ score_compare scored) in Hin.
    apply list_elem_of_In in Hin.
    clear -Hfc Hin. induction Hfc as [|s' c scored cs Hsc _ IH]; [done|].
    destruct Hin as [<-|Hin]; [exists c; split; [by left|done]|].
    destruct (IH Hin) as (c' & ? & ?). exists c'. split; [by right|done].
  - intros Hnil. rewrite Hnil in Hfc. inversion Hfc. subst.
    assert (array_sort score_compare (@nil Scored) = []) as ->; [|done].
    apply Permutation_nil_r, sort_perm.
Qed.
End Retrieval.

Lemma X14_witness :
  exists res, @retrieve scenario_env v8_engine scenario_kb (str "question") = Some res
    /\ Forall (fun s => exists c, In c (chunks scenario_kb) /\ from_chunk s c) res.
Proof.
  destruct (@retrieve scenario_env v8_engine scenario_kb (str "question")) as [res|] eqn:E;
    [|vm_compute in E; discriminate].
  exists res. split; [reflexivity|].
  exact (proj1 (proj2 (@X14_retrieve_count scenario_env v8_engine v8_sort_laws scenario_kb
                         (str "question") res E))).
Defined.

(** ** The merge tool, beyond the specification *)

Section MergeTool.
Context {host : Host}.

(** *** Objects *)

Lemma str_eqb_eq a b : str_eqb a b = true <-> a = b.
Proof. apply bool_decide_eq_true. Qed.

Lemma str_eqb_neq a b : str_eqb a b = false <-> a <> b.
Proof. apply bool_decide_eq_false. Qed.

Lemma assoc_obj_set k k' (v : json) fields :
  assoc k (obj_set k' v fields) = if str_eqb k' k then Some v else assoc k fields.
Proof.
  induction fields as [|[k0 v0] r IH]; simpl.
  - done.
  - destruct (str_eqb k0 k') eqn:E0; simpl.
    + apply str_eqb_eq in E0 as ->. by destruct (str_eqb k' k).
    + rewrite IH. destruct (str_eqb k0 k) eqn:E1; [|done].
      apply str_eqb_eq in E1. apply str_eqb_neq in E0.
      destruct (str_eqb k' k) eqn:E2; [|done].
      apply str_eqb_eq in E2. congruence.
Qed.

Lemma obj_set_idem k (v : json) fields :
  obj_set k v (obj_set k v fields) = obj_set k v fields.
Proof.
  induction fields as [|[k0 v0] r IH]; simpl.
  - by rewrite str_eqb_refl.
  - destruct (str_eqb k0 k) eqn:E0; simpl.
    + by rewrite str_eqb_refl.
    + by rewrite E0, IH.
Qed.

(** *** The container *)

Lemma detectContainer_object fields l :
  assoc (str "blocks") fields = Some (JArr l) ->
  detectContainer (JObj fields) = {| rootType := RootObject fields; blocks := l |}.
Proof. intros E. unfold detectContainer. by rewrite E. Qed.

Lemma detect_set_blocks (kb : json) bs :
  blocks (detectContainer (setBlocks (detectContainer kb) bs)) = bs.
Proof.
  destruct kb as [| | | |l|fields]; try done.
  unfold detectContainer at 2.
  destruct (assoc (str "blocks") fields) as [[| | | |l|]|] eqn:E; try done.
  unfold setBlocks. cbn [rootType]. unfold detectContainer.
  by rewrite assoc_obj_set, str_eqb_refl.
Qed.

Lemma set_blocks_idem (kb : json) bs :
  setBlocks (detectContainer (setBlocks (detectContainer kb) bs)) bs
  = setBlocks (detectContainer kb) bs.
Proof.
  destruct kb as [| | | |l|fields]; try done.
  destruct (assoc (str "blocks") fields) as [[| | | |l|]|] eqn:E;
    try (unfold detectContainer at 2 3; rewrite E; done).
  rewrite (detectContainer_object fields l E).
  change (setBlocks {| rootType := RootObject fields; blocks := l |} bs)
    with (JObj (obj_set (str "blocks") (JArr bs) fields)).
  rewrite (detectContainer_object (obj_set (str "blocks") (JArr bs) fields) bs)
    by (by rewrite assoc_obj_set, str_eqb_refl).
  unfold setBlocks. cbn [rootType]. by rewrite obj_set_idem.
Qed.

(** X15: writing a list of blocks into the container read from a file and
    reading the container of the result gives that list back, and writing
    it a second time changes nothing.  An object that has an array under
    [blocks] keeps its other properties; a file that holds neither an
    array nor such an object is replaced by an object with the single
    property [blocks]: whatever else it held is not written back. *)
Theorem X15_container_round_trip (kb : json) (bs : list json) :
  blocks (detectContainer (setBlocks (detectContainer kb) bs)) = bs
  /\ setBlocks (detectContainer (setBlocks (detectContainer kb) bs)) bs
     = setBlocks (detectContainer kb) bs
  /\ (forall l, kb = JArr l -> setBlocks (detectContainer kb) bs = JArr bs)
  /\ (forall l k, prop kb (str "blocks") = Some (JArr l) -> k <> str "blocks" ->
        prop (setBlocks (detectContainer kb) bs) k = prop kb k)
  /\ ((forall l, kb <> JArr l) -> (forall l, prop kb (str "blocks") <> Some (JArr l)) ->
        setBlocks (detectContainer kb) bs = JObj [(str "blocks", JArr bs)]).
Proof.
  split; [apply detect_set_blocks|]. split; [apply set_blocks_idem|]. split; [|split].
  - by intros l ->.
  - intros l k Hb Hk. destruct kb as [| | | |l'|fields]; try done.
    simpl in Hb. unfold detectContainer. rewrite Hb. unfold setBlocks. cbn [rootType prop].
    rewrite assoc_obj_set. destruct (str_eqb (str "blocks") k) eqn:E; [|done].
    apply str_eqb_eq in E. congruence.
  - intros Ha Hb. destruct kb as [| | | |l|fields]; try done.
    + by destruct (Ha l).
    + unfold detectContainer. simpl in Hb.
      destruct (assoc (str "blocks") fields) as [[| | | |l|]|] eqn:E; try done.
      by destruct (Hb l).
Qed.

(** *** The schema *)

Lemma pickKey_In sample cands fb : In (pickKey sample cands fb) (fb :: cands).
Proof.
  induction cands as [|k r IH]; [by left|]. simpl.
  destruct (truthy sample && has_own sample k); [right; by left|].
  destruct IH as [IH|IH]; [by left|right; by right].
Qed.

Lemma buildQaBlockSchema_candidate bl : candidate_schema (buildQaBlockSchema bl).
Proof.
  unfold candidate_schema, buildQaBlockSchema. cbn [textKey docKey pageKey idKey tagsKey typeKey].
  repeat split.
  all: match goal with |- In (pickKey ?s ?c ?f) _ =>
         destruct (pickKey_In s c f) as [<-|Hin]; [by left|exact Hin] end.
Qed.

Lemma has_own_obj_set k k' (v : json) fields :
  has_own (JObj (obj_set k' v fields)) k = str_eqb k' k || has_own (JObj fields) k.
Proof. unfold has_own. cbn [prop]. rewrite assoc_obj_set. by destruct (str_eqb k' k). Qed.

(** The properties a block has. *)
Lemma has_own_block qa s ti n k :
  has_own (qaToBlock qa s ti n) k
  = str_eqb (str "_qa_meta") k
    || (negb (is_empty (tagsKey s)) && str_eqb (tagsKey s) k)
    || str_eqb (textKey s) k || str_eqb (pageKey s) k || str_eqb (docKey s) k
    || str_eqb (typeKey s) k || str_eqb (idKey s) k.
Proof.
  unfold qaToBlock. cbv zeta. rewrite has_own_obj_set.
  destruct (is_empty (tagsKey s)); cbn [negb andb orb];
    rewrite !has_own_obj_set; unfold has_own; cbn [prop assoc];
    rewrite ?orb_false_r, ?orb_assoc; done.
Qed.

Lemma schema_stable (bl rest : list json) (qa : json) (ti : TopicInfo) (n : nat) :
  buildQaBlockSchema (qaToBlock qa (buildQaBlockSchema bl) ti n :: rest)
  = buildQaBlockSchema bl.
Proof.
  pose proof (buildQaBlockSchema_candidate bl) as Hc.
  destruct (buildQaBlockSchema bl) as [tk dk pk ik gk yk].
  destruct Hc as (H1 & H2 & H3 & H4 & H5 & H6).
  cbn [textKey docKey pageKey idKey tagsKey typeKey] in *.
  unfold buildQaBlockSchema. cbn [pickKey].
  change (truthy (qaToBlock qa _ ti n)) with true. cbn [andb].
  rewrite !has_own_block. cbn [textKey docKey pageKey idKey tagsKey typeKey].
  unfold TEXT_KEYS, DOC_KEYS, PAGE_KEYS, ID_KEYS, TAGS_KEYS, TYPE_KEYS in *.
  destruct H1 as [<-|[<-|[<-|[<-|[]]]]].
  all: destruct H2 as [<-|[<-|[<-|[<-|[<-|[]]]]]].
  all: destruct H3 as [<-|[<-|[<-|[<-|[]]]]].
  all: destruct H4 as [<-|[<-|[<-|[]]]].
  all: destruct H5 as [<-|[<-|[]]].
  all: destruct H6 as [<-|[<-|[]]].
  all: vm_compute; reflexivity.
Qed.

(** X16: a block made under the schema read from a list of blocks
    carries that schema: put at the head of any list, it makes
    [buildQaBlockSchema] give the same six keys again.  The keys of a
    schema are always among the candidates, those of an empty list being
    [text], [doc], [p], [id], [tags] and [type]. *)
Theorem X16_schema_stable (bl rest : list json) (qa : json) (ti : TopicInfo) (n : nat) :
  buildQaBlockSchema (qaToBlock qa (buildQaBlockSchema bl) ti n :: rest)
  = buildQaBlockSchema bl
  /\ candidate_schema (buildQaBlockSchema bl)
  /\ buildQaBlockSchema []
     = {| textKey := str "text"; docKey := str "doc"; pageKey := str "p";
          idKey := str "id"; tagsKey := str "tags"; typeKey := str "type" |}.
Proof.
  split; [apply schema_stable|]. split; [apply buildQaBlockSchema_candidate|done].
Qed.
End MergeTool.

(** *** Reading the question of a block back *)

Lemma line_terminator_ws c : is_line_terminator c = true -> is_ws c = true.
Proof.
  unfold is_line_terminator, is_ws. intros H.
  repeat (apply orb_true_iff in H as [H|H]); apply N.eqb_eq in H as ->; done.
Qed.

Lemma take_while_app_stop (f : N -> bool) x c y :
  f c = false -> take_while f (x ++ c :: y) = take_while f x.
Proof.
  intros Hc. induction x as [|a x IH]; simpl; [by rewrite Hc|].
  destruct (f a); [by rewrite IH|done].
Qed.

Lemma take_while_app_all (f : N -> bool) x y :
  Forall (fun c => f c = true) x -> take_while f (x ++ y) = x ++ take_while f y.
Proof.
  induction 1 as [|a x Ha _ IH]; [done|]. simpl. by rewrite Ha, IH.
Qed.

Lemma take_while_ws (f : N -> bool) w :
  forallb is_ws w = true -> forallb is_ws (take_while f w) = true.
Proof.
  induction w as [|a w IH]; [done|]. simpl. intros [Ha Hw]%andb_true_iff.
  destruct (f a); [|done]. simpl. by rewrite Ha, IH.
Qed.

Lemma trim_end_ws_tail s : exists w, s = trim_end s ++ w /\ forallb is_ws w = true.
Proof.
  induction s as [|c r (w & IH & Hw)]; [by exists []|].
  simpl. destruct (trim_end r) as [|d r'] eqn:E.
  - simpl in IH. subst w. destruct (is_ws c) eqn:Ec.
    + exists (c :: r). split; [done|]. simpl. by rewrite Ec.
    + exists r. done.
  - exists w. split; [|done]. simpl. by rewrite IH at 1.
Qed.

Lemma trim_end_app_ws s w : forallb is_ws w = true -> trim_end (s ++ w) = trim_end s.
Proof.
  intros Hw. induction s as [|c r IH]; simpl.
  - by apply trim_end_nil_iff.
  - by rewrite IH.
Qed.

Lemma trim_end_fix s : trim_end s = s -> forall w, forallb is_ws w = true -> trim_end (s ++ w) = s.
Proof. intros Hs w Hw. by rewrite trim_end_app_ws. Qed.

Lemma trim_cons_keep c s : is_ws c = false -> trim (c :: s) = trim_end (c :: s).
Proof. intros Hc. unfold trim, trim_start. cbn [drop_while]. by rewrite Hc. Qed.

Lemma forallb_ws_app_A a b : forallb is_ws (a ++ 65%N :: b) = false.
Proof. induction a as [|c a IH]; [done|]. simpl. by rewrite IH, andb_false_r. Qed.

(** The captured text, trimmed, is the question, trimmed. *)
Lemma capture_trim q :
  single_line q ->
  exists c r, drop_while is_ws q = c :: r
    /\ trim (take_while (fun x => negb (is_line_terminator x)) (c :: r)) = trim q
    /\ take_while (fun x => negb (is_line_terminator x)) (c :: r) <> [].
Proof.
  intros [Hne Hlt].
  destruct (drop_while is_ws q) as [|c r] eqn:Ed.
  { unfold trim, trim_start in Hne. by rewrite Ed in Hne. }
  exists c, r. split; [done|].
  destruct (trim_end_ws_tail (c :: r)) as (w & Hw & Hws).
  assert (trim q = trim_end (c :: r)) as Ht by (unfold trim, trim_start; by rewrite Ed).
  rewrite <- Ht in Hw. rewrite Hw.
  rewrite take_while_app_all
    by (eapply List.Forall_impl; [|exact Hlt]; simpl; by intros a ->).
  split.
  - pose proof (trim_idem q) as Hi.
    assert (trimmed (trim q)) as Htr by (split; [done|apply trim_idem]).
    destruct (trimmed_parts _ Htr) as [H1 H2].
    unfold trim at 1, trim_start. rewrite drop_while_app_keep by (by rewrite H1).
    rewrite H1. rewrite trim_end_app_ws by (by apply take_while_ws). done.
  - intros E. apply app_eq_nil in E as [E _]. done.
Qed.

Section ReadBack.
Context {host : Host}.

Lemma qa_rest_A qa : exists a b, qa_rest qa = a ++ 65%N :: b.
Proof.
  unfold qa_rest.
  set (V := if is_empty_list (as_array (prop qa (str "variants"))) then [] else _).
  set (G := if is_empty_list (as_array (prop qa (str "tags"))) then [] else _).
  exists (V ++ [10%N] ++ G ++ [10%N; 10%N]),
    (58%N :: 32%N :: toStr (or_empty_str (prop qa (str "answer")))).
  rewrite <- !app_assoc. reflexivity.
Qed.

Lemma qa_text_shape qa :
  exists r, qa_text qa = 81%N :: 58%N :: 32%N :: question_text qa ++ 10%N :: r.
Proof.
  unfold qa_text. change (str "Q: ") with [81; 58; 32]%N.
  cbn [app]. rewrite trim_cons_keep by done.
  destruct (qa_rest_A qa) as (a & b & Hab).
  exists (trim_end (qa_rest qa)).
  replace (81%N :: 58%N :: 32%N :: question_text qa ++ 10%N :: qa_rest qa)
    with ((81%N :: 58%N :: 32%N :: question_text qa ++ [10%N]) ++ qa_rest qa)
    by (cbn [app]; by rewrite <- app_assoc).
  rewrite trim_end_app_keep.
  - cbn [app]. by rewrite <- app_assoc.
  - intros E. apply trim_end_nil_iff in E. rewrite Hab, forallb_ws_app_A in E. done.
Qed.

Lemma match_Q_from_hit s m : match_Q_at s = Some m -> match_Q_from true s = Some m.
Proof. intros E. destruct s; cbn [match_Q_from]; by rewrite E. Qed.

Lemma match_Q_text qa :
  single_line (question_text qa) ->
  exists m1, match_Q (qa_text qa) = Some m1 /\ m1 <> [] /\ trim m1 = trim (question_text qa).
Proof.
  intros Hs. destruct (qa_text_shape qa) as [r ->].
  destruct (capture_trim _ Hs) as (c & q' & Hd & Ht & Hne).
  exists (take_while (fun x => negb (is_line_terminator x)) (c :: q')).
  split; [|done].
  unfold match_Q. apply match_Q_from_hit. unfold match_Q_at.
  change (drop_while is_ws (81%N :: 58%N :: 32%N :: question_text qa ++ 10%N :: r))
    with (81%N :: 58%N :: 32%N :: question_text qa ++ 10%N :: r).
  cbn [N.eqb Pos.eqb andb]. unfold capture_after_Q.
  change (drop_while is_ws (32%N :: question_text qa ++ 10%N :: r))
    with (drop_while is_ws (question_text qa ++ 10%N :: r)).
  rewrite drop_while_app_keep by (by rewrite Hd). rewrite Hd.
  cbn [app]. change (c :: q' ++ 10%N :: r) with ((c :: q') ++ 10%N :: r).
  by rewrite take_while_app_stop.
Qed.

Lemma block_text qa s ti n :
  candidate_schema s ->
  prop (qaToBlock qa s ti n) (textKey s) = Some (JStr (qa_text qa)).
Proof.
  intros (H1 & _ & _ & _ & H5 & _).
  unfold qaToBlock. cbv zeta. cbn [prop]. rewrite assoc_obj_set.
  assert (str_eqb (str "_qa_meta") (textKey s) = false) as ->.
  { unfold TEXT_KEYS in H1. by destruct H1 as [<-|[<-|[<-|[<-|[]]]]]. }
  assert (is_empty (tagsKey s) = false) as ->.
  { unfold TAGS_KEYS in H5. by destruct H5 as [<-|[<-|[]]]. }
  rewrite assoc_obj_set.
  assert (str_eqb (tagsKey s) (textKey s) = false) as ->.
  { unfold TEXT_KEYS, TAGS_KEYS in *.
    destruct H1 as [<-|[<-|[<-|[<-|[]]]]], H5 as [<-|[<-|[]]]; done. }
  by rewrite assoc_obj_set, str_eqb_refl.
Qed.

Lemma qkey_trim qa :
  qkey qa = strip_marks (normalizeNFD (toLowerCase (trim (question_text qa)))).
Proof. unfold qkey, norm, question_text. by rewrite or_empty_str_idem. Qed.

Lemma existing_keys_block s qa ti n K r :
  candidate_schema s -> single_line (question_text qa) ->
  existing_keys s (qaToBlock qa s ti n :: r) K
  = existing_keys s r ({[ qkey qa ]} ∪ K).
Proof.
  intros Hc Hs. cbn [existing_keys].
  change (is_null (qaToBlock qa s ti n)) with false. cbv iota.
  rewrite (block_text qa s ti n Hc).
  destruct (match_Q_text qa Hs) as (m1 & Hm & Hne & Ht).
  destruct (qa_text_shape qa) as [r' Hr'].
  assert (or_empty_str (Some (JStr (qa_text qa))) = JStr (qa_text qa)) as ->
    by (by rewrite Hr').
  cbn [toStr]. rewrite Hm. f_equal. f_equal. f_equal.
  rewrite qkey_trim. unfold norm.
  assert (or_empty_str (Some (JStr m1)) = JStr m1) as -> by (by destruct m1).
  cbn [toStr]. by rewrite Ht.
Qed.

Lemma existing_keys_built s acc : forall n K,
  candidate_schema s ->
  Forall (fun x => single_line (question_text x.2)) acc ->
  existing_keys s (built s n acc) K = Some (keys_after K acc).
Proof.
  induction acc as [|x acc IH]; intros n K Hc Hall.
  - simpl. by rewrite keys_after_nil.
  - apply Forall_cons in Hall as [Hx Hall]. cbn [built].
    rewrite existing_keys_block by done. rewrite IH by done.
    by rewrite (keys_after_cons K x acc).
Qed.

Lemma existing_keys_app s l1 l2 K :
  existing_keys s (l1 ++ l2) K
  = match existing_keys s l1 K with
    | Some K' => existing_keys s l2 K'
    | None => None
    end.
Proof.
  revert K. induction l1 as [|b l1 IH]; intros K; [done|].
  simpl. destruct (is_null b); [done|]. destruct (match_Q _); apply IH.
Qed.

(** X17: the question of a block is read back under the key it was
    stored with.  For a record whose question is not blank and stands on
    one line, the key that the duplicate check derives from the stored
    text of its block is the normalized question of the record. *)
Theorem X17_key_round_trip (bl : list json) (qa : json) (ti : TopicInfo) (n : nat)
    (keys : gset jsstring) :
  single_line (question_text qa) ->
  prop (qaToBlock qa (buildQaBlockSchema bl) ti n) (textKey (buildQaBlockSchema bl))
  = Some (JStr (qa_text qa))
  /\ (exists m1, match_Q (qa_text qa) = Some m1 /\ norm (Some (JStr m1)) = qkey qa)
  /\ existing_keys (buildQaBlockSchema bl) [qaToBlock qa (buildQaBlockSchema bl) ti n] keys
     = Some ({[ qkey qa ]} ∪ keys).
Proof.
  intros Hs. pose proof (buildQaBlockSchema_candidate bl) as Hc.
  split; [by apply block_text|]. split.
  - destruct (match_Q_text qa Hs) as (m1 & Hm & Hne & Ht). exists m1. split; [done|].
    rewrite qkey_trim. unfold norm.
    assert (or_empty_str (Some (JStr m1)) = JStr m1) as -> by (by destruct m1).
    cbn [toStr]. by rewrite Ht.
  - by rewrite existing_keys_block.
Qed.
End ReadBack.

Lemma X17_witness :
  @existing_keys ascii_host (buildQaBlockSchema [])
    [qaToBlock (qa_record (str "  Que es ALBA? ") (str "Un asistente."))
       (buildQaBlockSchema []) (topicFromFilename (str "estrategia_QA.json")) 1] ∅
  = Some ({[ qkey (qa_record (str "  Que es ALBA? ") (str "Un asistente.")) ]} ∪ ∅).
Proof.
  apply (proj2 (proj2 (@X17_key_round_trip ascii_host []
                         (qa_record (str "  Que es ALBA? ") (str "Un asistente."))
                         (topicFromFilename (str "estrategia_QA.json")) 1 ∅
                         ltac:(split; [vm_compute; discriminate
                                      |vm_compute; repeat constructor])))).
Defined.

(** *** Running the merge again *)

Section Rerun.
Context {host : Host}.

Lemma is_empty_nil (s : jsstring) : is_empty s = true <-> s = [].
Proof. by destruct s. Qed.

Lemma accepted_Forall (P : TopicInfo * json -> Prop) recs : forall K,
  Forall P recs -> Forall P (accepted K recs).
Proof.
  induction recs as [|x r IH]; intros K Hall; [constructor|].
  apply Forall_cons in Hall as [Hx Hall]. simpl.
  destruct (is_empty (qkey x.2)); [by apply IH|].
  destruct (bool_decide _); [by apply IH|]. constructor; [done|by apply IH].
Qed.

Lemma keys_after_mono K acc k : k ∈ K -> k ∈ keys_after K acc.
Proof. unfold keys_after. set_solver. Qed.

(** After a run every question of the files is among the keys. *)
Lemma keys_cover recs : forall K,
  Forall (fun x => qkey x.2 <> [] -> qkey x.2 ∈ keys_after K (accepted K recs)) recs.
Proof.
  induction recs as [|x r IH]; intros K; [constructor|]. simpl.
  destruct (is_empty (qkey x.2)) eqn:Ee.
  { constructor; [|apply IH]. intros Hne. by apply is_empty_nil in Ee. }
  destruct (bool_decide_reflect (qkey x.2 ∈ K)) as [Hin|Hnin].
  { constructor; [|apply IH]. intros _. by apply keys_after_mono. }
  rewrite <- (keys_after_cons K x). constructor.
  - intros _. apply keys_after_mono. set_solver.
  - apply IH.
Qed.

Lemma accepted_covered recs : forall K,
  Forall (fun x => qkey x.2 <> [] -> qkey x.2 ∈ K) recs -> accepted K recs = [].
Proof.
  induction recs as [|x r IH]; intros K Hall; [done|].
  apply Forall_cons in Hall as [Hx Hall]. simpl.
  destruct (is_empty (qkey x.2)) eqn:Ee; [by apply IH|].
  destruct (bool_decide_reflect (qkey x.2 ∈ K)) as [Hin|Hnin]; [by apply IH|].
  destruct Hnin. apply Hx. intros E. by rewrite E in Ee.
Qed.

Lemma all_records_ext (fs fs' : gmap jsstring json) paths :
  (forall p, In p paths -> fs' !! p = fs !! p) ->
  all_records fs' paths = all_records fs paths.
Proof.
  induction paths as [|p r IH]; intros H; [done|].
  simpl. rewrite (H p) by (by left). rewrite IH by (intros; apply H; by right). done.
Qed.

Lemma schema_rerun bl n acc :
  buildQaBlockSchema (bl ++ built (buildQaBlockSchema bl) n acc) = buildQaBlockSchema bl.
Proof.
  destruct bl as [|b bl]; [|done]. destruct acc as [|x acc]; [done|].
  apply schema_stable.
Qed.

(** The second of two runs with the same arguments, on the files the
    first one left: the keys it starts from, and what it adds to the list
    [base] it starts from. *)
Lemma second_run (args : list jsstring) (stamp stamp' : jsstring)
    (fs fs1 : gmap jsstring json) (st1 : MergeState) (kbPath q : jsstring)
    (qs : list jsstring) (recs : list (TopicInfo * json)) :
  positional args = kbPath :: q :: qs ->
  ~ In kbPath (q :: qs) -> ~ In (kbPath ++ BAK ++ stamp) (q :: qs) ->
  all_records fs (q :: qs) = Some recs ->
  Forall (fun x => single_line (question_text x.2)) recs ->
  main args stamp fs = Merged fs1 st1 ->
  exists kb keys,
    fs !! kbPath = Some kb
    /\ existing_keys (buildQaBlockSchema (blocks (detectContainer kb)))
         (blocks (detectContainer kb)) ∅ = Some keys
    /\ Forall usable recs
    /\ newBlocks st1
       = (if str_eqb (mode_of args) (str "replace") then [] else blocks (detectContainer kb))
         ++ built (buildQaBlockSchema (blocks (detectContainer kb))) 0 (accepted keys recs)
    /\ added st1 = length (accepted keys recs)
    /\ fs1 !! kbPath = Some (setBlocks (detectContainer kb) (newBlocks st1))
    /\ all_records fs1 (q :: qs) = Some recs
    /\ main args stamp' fs1
       = match existing_keys (buildQaBlockSchema (newBlocks st1)) (newBlocks st1) ∅ with
         | None => Threw
         | Some keys2 =>
             match merge_files fs1 (buildQaBlockSchema (newBlocks st1)) (q :: qs)
                     {| newBlocks := if str_eqb (mode_of args) (str "replace") then []
                                     else newBlocks st1;
                        existingKeys := keys2; added := 0 |} with
             | None => Threw
             | Some st =>
                 Merged (<[kbPath := setBlocks
                             (detectContainer (setBlocks (detectContainer kb) (newBlocks st1)))
                             (newBlocks st)]>
                           (<[kbPath ++ str ".bak_" ++ stamp' :=
                                setBlocks (detectContainer kb) (newBlocks st1)]> fs1)) st
             end
         end.
Proof.
  intros Hpos Hk Hb Hrec Hsl Hm.
  destruct (main_merged_inv _ _ _ _ _ Hm)
    as (kbPath0 & q0 & qs0 & kb & keys & recs0 & Hpos0 & Hkb & Hkeys & Hrec0 & Hus & Hnb
        & Hadd & Hek & Hfs).
  unfold positional in Hpos. rewrite Hpos in Hpos0. injection Hpos0 as <- <- <-.
  rewrite Hrec in Hrec0. injection Hrec0 as <-.
  exists kb, keys.
  assert (fs1 !! kbPath = Some (setBlocks (detectContainer kb) (newBlocks st1))) as Hl
    by (rewrite Hfs; apply lookup_insert_eq).
  assert (all_records fs1 (q :: qs) = Some recs) as Hrec1.
  { rewrite <- Hrec. apply all_records_ext. intros p Hp. rewrite Hfs.
    assert (p <> kbPath) as H1 by (intros ->; by apply Hk).
    assert (p <> kbPath ++ str ".bak_" ++ stamp) as H2 by (intros ->; by apply Hb).
    by rewrite !lookup_insert_ne by congruence. }
  repeat (split; [done|]).
  rewrite (main_clean_args args stamp' fs1 kbPath q qs Hpos), Hl. cbv zeta.
  by rewrite detect_set_blocks.
Qed.

(** X18: merging the same files a second time in append mode adds
    nothing.  When every question of the files is non-blank and on one
    line, and the target and its backup are not among the files merged,
    the second run accepts no record and writes the index of the first run
    back unchanged. *)
Theorem X18_merge_idempotent (args : list jsstring) (stamp stamp' : jsstring)
    (fs fs1 : gmap jsstring json) (st1 : MergeState)
    (kbPath q : jsstring) (qs : list jsstring) (recs : list (TopicInfo * json)) :
  positional args = kbPath :: q :: qs ->
  mode_of args <> str "replace" ->
  ~ In kbPath (q :: qs) ->
  ~ In (kbPath ++ BAK ++ stamp) (q :: qs) ->
  all_records fs (q :: qs) = Some recs ->
  Forall (fun x => single_line (question_text x.2)) recs ->
  main args stamp fs = Merged fs1 st1 ->
  exists fs2 st2,
    main args stamp' fs1 = Merged fs2 st2
    /\ added st2 = 0
    /\ newBlocks st2 = newBlocks st1
    /\ fs2 !! kbPath = fs1 !! kbPath.
Proof.
  intros Hpos Hmode Hk Hb Hrec Hsl Hm.
  destruct (second_run args stamp stamp' fs fs1 st1 kbPath q qs recs Hpos Hk Hb Hrec Hsl Hm)
    as (kb & keys & Hkb & Hkeys & Hus & Hnb & _ & Hl & Hrec1 & ->).
  apply str_eqb_neq in Hmode. rewrite Hmode in *.
  set (s := buildQaBlockSchema (blocks (detectContainer kb))) in *.
  pose proof (buildQaBlockSchema_candidate (blocks (detectContainer kb))) as Hc. fold s in Hc.
  assert (buildQaBlockSchema (newBlocks st1) = s) as -> by (rewrite Hnb; apply schema_rerun).
  assert (existing_keys s (newBlocks st1) ∅ = Some (keys_after keys (accepted keys recs)))
    as ->.
  { rewrite Hnb, existing_keys_app, Hkeys. apply existing_keys_built; [done|].
    by apply accepted_Forall. }
  rewrite (merge_files_run fs1 s (q :: qs) _ recs Hrec1 Hus). cbv zeta.
  cbn [newBlocks existingKeys added].
  rewrite (accepted_covered recs (keys_after keys (accepted keys recs)) (keys_cover recs keys)).
  cbn [built length]. rewrite app_nil_r.
  eexists _, _. split; [done|]. cbn [newBlocks added]. repeat split.
  rewrite lookup_insert_eq, Hl. f_equal. apply set_blocks_idem.
Qed.

Lemma accepted_nil_any recs : forall K K',
  accepted K recs = [] -> Forall (fun x => qkey x.2 ∉ K) recs -> accepted K' recs = [].
Proof.
  induction recs as [|x r IH]; intros K K' Hacc Hall; [done|].
  apply Forall_cons in Hall as [Hx Hall]. simpl in *.
  destruct (is_empty (qkey x.2)); [by apply (IH K)|].
  destruct (bool_decide_reflect (qkey x.2 ∈ K)) as [Hin|Hnin]; done.
Qed.

(** X19: a second run in replace mode with the same arguments empties the
    index, under these conditions: the question of every record, once
    trimmed, is not empty and holds no line terminator; neither the target
    nor the backup of the first run is among the merged files; and no
    question of the files was among those stored in the target before the
    first run.  Then the first run writes exactly the blocks it added, and
    the duplicate check of the second run finds every record among those
    blocks, accepts none, and writes an empty block list. *)
Theorem X19_replace_twice (args : list jsstring) (stamp stamp' : jsstring)
    (fs fs1 : gmap jsstring json) (st1 : MergeState)
    (kbPath q : jsstring) (qs : list jsstring) (recs : list (TopicInfo * json))
    (kb : json) (keys : gset jsstring) :
  positional args = kbPath :: q :: qs ->
  mode_of args = str "replace" ->
  ~ In kbPath (q :: qs) ->
  ~ In (kbPath ++ BAK ++ stamp) (q :: qs) ->
  fs !! kbPath = Some kb ->
  existing_keys (buildQaBlockSchema (blocks (detectContainer kb)))
    (blocks (detectContainer kb)) ∅ = Some keys ->
  all_records fs (q :: qs) = Some recs ->
  Forall (fun x => single_line (question_text x.2)) recs ->
  Forall (fun x => qkey x.2 ∉ keys) recs ->
  main args stamp fs = Merged fs1 st1 ->
  length (newBlocks st1) = added st1
  /\ exists fs2 st2 out,
       main args stamp' fs1 = Merged fs2 st2
       /\ added st2 = 0
       /\ newBlocks st2 = []
       /\ fs2 !! kbPath = Some out
       /\ blocks (detectContainer out) = [].
Proof.
  intros Hpos Hmode Hk Hb Hkb Hkeys Hrec Hsl Hfresh Hm.
  destruct (second_run args stamp stamp' fs fs1 st1 kbPath q qs recs Hpos Hk Hb Hrec Hsl Hm)
    as (kb' & keys' & Hkb' & Hkeys' & Hus & Hnb & Hadd & Hl & Hrec1 & ->).
  assert (kb' = kb) as -> by congruence.
  assert (keys' = keys) as -> by congruence.
  rewrite Hmode, str_eqb_refl in *. cbn [app] in Hnb.
  split; [by rewrite Hnb, built_length|].
  set (s := buildQaBlockSchema (blocks (detectContainer kb))) in *.
  pose proof (buildQaBlockSchema_candidate (blocks (detectContainer kb))) as Hc. fold s in Hc.
  assert (exists s2 keys2,
            buildQaBlockSchema (newBlocks st1) = s2
            /\ existing_keys s2 (newBlocks st1) ∅ = Some keys2
            /\ accepted keys2 recs = []) as (s2 & keys2 & -> & -> & Hacc).
  { destruct (accepted keys recs) as [|x acc] eqn:Ea.
    - rewrite Hnb. cbn [built]. eexists _, ∅. split; [done|]. split; [done|].
      by apply (accepted_nil_any recs keys).
    - exists s, (keys_after ∅ (x :: acc)). split; [rewrite Hnb; apply schema_stable|].
      split.
      + rewrite Hnb. apply existing_keys_built; [done|]. rewrite <- Ea.
        by apply accepted_Forall.
      + apply accepted_covered. pose proof (keys_cover recs keys) as Hcov. rewrite Ea in Hcov.
        apply List.Forall_forall. intros y Hy Hne.
        pose proof (proj1 (List.Forall_forall _ _) Hcov y Hy Hne) as Hin.
        pose proof (proj1 (List.Forall_forall _ _) Hfresh y Hy) as Hnin.
        unfold keys_after in *. set_solver. }
  rewrite (merge_files_run fs1 s2 (q :: qs) _ recs Hrec1 Hus). cbv zeta.
  cbn [newBlocks existingKeys added]. rewrite Hacc. cbn [built length app].
  eexists _, _, _. split; [done|]. cbn [newBlocks added].
  split; [done|]. split; [done|]. split; [apply lookup_insert_eq|].
  apply detect_set_blocks.
Qed.
End Rerun.

Lemma X18_witness :
  exists fs1 st1 fs2 st2,
    main merge_args (str "20260101_000000") merge_fs = Merged fs1 st1
    /\ main merge_args (str "20260102_000000") fs1 = Merged fs2 st2
    /\ added st2 = 0.
Proof.
  destruct (main merge_args (str "20260101_000000") merge_fs) as [| |fs1 st1] eqn:Hm;
    [vm_compute in Hm; discriminate..|].
  edestruct (@X18_merge_idempotent ascii_host merge_args (str "20260101_000000")
               (str "20260102_000000") merge_fs fs1 st1 (str "kb.json")
               (str "estrategia_QA.json") [str "autores_QA.json"])
    as (fs2 & st2 & H1 & H2 & _).
  - reflexivity.
  - vm_compute. discriminate.
  - vm_compute. intros [H|[H|[]]]; discriminate.
  - vm_compute. intros [H|[H|[]]]; discriminate.
  - vm_compute. reflexivity.
  - repeat constructor; vm_compute; try discriminate; repeat constructor.
  - exact Hm.
  - by exists fs1, st1, fs2, st2.
Defined.

Lemma X19_witness :
  exists fs1 st1 fs2 st2,
    main (str "--mode=replace" :: merge_args) (str "20260101_000000") merge_fs
    = Merged fs1 st1
    /\ main (str "--mode=replace" :: merge_args) (str "20260102_000000") fs1
       = Merged fs2 st2
    /\ length (newBlocks st1) = added st1
    /\ newBlocks st2 = [].
Proof.
  destruct (main (str "--mode=replace" :: merge_args) (str "20260101_000000") merge_fs)
    as [| |fs1 st1] eqn:Hm; [vm_compute in Hm; discriminate..|].
  edestruct (@X19_replace_twice ascii_host (str "--mode=replace" :: merge_args)
               (str "20260101_000000") (str "20260102_000000") merge_fs fs1 st1
               (str "kb.json") (str "estrategia_QA.json") [str "autores_QA.json"])
    as (H0 & fs2 & st2 & out & H1 & _ & H2 & _).
  - reflexivity.
  - vm_compute. reflexivity.
  - vm_compute. intros [H|[H|[]]]; discriminate.
  - vm_compute. intros [H|[H|[]]]; discriminate.
  - reflexivity.
  - reflexivity.
  - vm_compute. reflexivity.
  - repeat constructor; vm_compute; try discriminate; repeat constructor.
  - repeat constructor; apply not_elem_of_empty.
  - exact Hm.
  - by exists fs1, st1, fs2, st2.
Defined.

(** *** The blocks of one run *)

Lemma sep_suffix_inj (c : N) d1 d2 : forall a b,
  Forall (fun x => x <> c) d1 -> Forall (fun x => x <> c) d2 ->
  a ++ c :: d1 = b ++ c :: d2 -> a = b /\ d1 = d2.
Proof.
  induction a as [|x a IH]; intros [|y b] H1 H2 E; simpl in E.
  - by injection E.
  - injection E as <- E. subst d1. apply Forall_app in H1 as [_ H1].
    by apply Forall_cons in H1 as [? _].
  - injection E as -> E. subst d2. apply Forall_app in H2 as [_ H2].
    by apply Forall_cons in H2 as [? _].
  - injection E as -> E. destruct (IH b H1 H2 E) as [-> ->]. done.
Qed.

Lemma repeat_zero_codes k u : repeat 48%N k ++ uint_codes u = uint_codes (Nat.iter k D0 u).
Proof. induction k as [|k IH]; [done|]. simpl. by rewrite IH. Qed.

Lemma of_uint_zeros k u : N.of_uint (Nat.iter k D0 u) = N.of_uint u.
Proof. induction k as [|k IH]; [done|]. simpl. exact IH. Qed.

Lemma pad3_inj n n' : pad3 n = pad3 n' -> n = n'.
Proof.
  unfold pad3, dec. rewrite !repeat_zero_codes. intros E%uint_codes_inj.
  apply (f_equal N.of_uint) in E. rewrite !of_uint_zeros, !DecimalN.Unsigned.of_to in E.
  by apply Nat2N.inj.
Qed.

Lemma uint_codes_digits u : Forall (fun x => x <> 45%N) (uint_codes u).
Proof. induction u; simpl; constructor; done. Qed.

Lemma pad3_no_hyphen n : Forall (fun x => x <> 45%N) (pad3 n).
Proof. unfold pad3, dec. rewrite repeat_zero_codes. apply uint_codes_digits. Qed.

Section RunBlocks.
Context {host : Host}.

Lemma qa_id_inj ti ti' n n' : qa_id ti n = qa_id ti' n' -> n = n'.
Proof.
  unfold qa_id. change (str "-" ++ pad3 n) with (45%N :: pad3 n).
  change (str "-" ++ pad3 n') with (45%N :: pad3 n'). rewrite !app_assoc.
  intros E. apply sep_suffix_inj in E as [_ E]; try apply pad3_no_hyphen.
  by apply pad3_inj.
Qed.

Lemma block_id qa s ti n :
  candidate_schema s ->
  prop (qaToBlock qa s ti n) (idKey s) = Some (JStr (qa_id ti n)).
Proof.
  intros (H1 & H2 & H3 & H4 & H5 & H6).
  unfold TEXT_KEYS, DOC_KEYS, PAGE_KEYS, ID_KEYS, TAGS_KEYS, TYPE_KEYS in *.
  unfold qaToBlock. cbv zeta. cbn [prop]. rewrite assoc_obj_set.
  assert (str_eqb (str "_qa_meta") (idKey s) = false) as ->
    by (by destruct H4 as [<-|[<-|[<-|[]]]]).
  assert (is_empty (tagsKey s) = false) as -> by (by destruct H5 as [<-|[<-|[]]]).
  rewrite assoc_obj_set.
  assert (str_eqb (tagsKey s) (idKey s) = false) as ->
    by (destruct H4 as [<-|[<-|[<-|[]]]], H5 as [<-|[<-|[]]]; done).
  rewrite assoc_obj_set.
  assert (str_eqb (textKey s) (idKey s) = false) as ->
    by (destruct H4 as [<-|[<-|[<-|[]]]], H1 as [<-|[<-|[<-|[<-|[]]]]]; done).
  rewrite assoc_obj_set.
  assert (str_eqb (pageKey s) (idKey s) = false) as ->
    by (destruct H4 as [<-|[<-|[<-|[]]]], H3 as [<-|[<-|[<-|[<-|[]]]]]; done).
  rewrite assoc_obj_set.
  assert (str_eqb (docKey s) (idKey s) = false) as ->
    by (destruct H4 as [<-|[<-|[<-|[]]]], H2 as [<-|[<-|[<-|[<-|[<-|[]]]]]]; done).
  rewrite assoc_obj_set.
  assert (str_eqb (typeKey s) (idKey s) = false) as ->
    by (destruct H4 as [<-|[<-|[<-|[]]]], H6 as [<-|[<-|[]]]; done).
  by rewrite assoc_obj_set, str_eqb_refl.
Qed.

Lemma built_ids s acc : forall n,
  candidate_schema s ->
  Forall (fun b => exists t m, n < m /\ prop b (idKey s) = Some (JStr (qa_id t m)))
    (built s n acc)
  /\ NoDup (map (fun b => prop b (idKey s)) (built s n acc)).
Proof.
  induction acc as [|x acc IH]; intros n Hc; [split; constructor|].
  destruct (IH (n + 1) Hc) as [Hall Hnd]. cbn [built map]. split.
  - constructor.
    + exists x.1, (n + 1). split; [lia|]. by apply block_id.
    + eapply List.Forall_impl; [|exact Hall]. simpl. intros b (t & m & Hm & Hb).
      exists t, m. split; [lia|done].
  - apply NoDup_cons. split; [|done]. rewrite block_id by done. intros Hin.
    apply list_elem_of_In, in_map_iff in Hin as (b & Hb & Hin).
    destruct (proj1 (List.Forall_forall _ _) Hall b Hin) as (t & m & Hm & Hb').
    assert (qa_id t m = qa_id x.1 (n + 1)) as E by congruence.
    apply qa_id_inj in E. lia.
Qed.

Lemma accepted_NoDup recs : forall K, NoDup (map (fun x => qkey x.2) (accepted K recs)).
Proof.
  induction recs as [|x r IH]; intros K; [constructor|]. simpl.
  destruct (is_empty (qkey x.2)); [apply IH|].
  destruct (bool_decide (qkey x.2 ∈ K)); [apply IH|].
  cbn [map]. apply NoDup_cons. split; [|apply IH].
  intros Hin. apply list_elem_of_In, in_map_iff in Hin as (y & Hy & Hin).
  pose proof (accepted_fresh ({[qkey x.2]} ∪ K) r) as Hf.
  destruct (proj1 (List.Forall_forall _ _) Hf y Hin) as [Hnin _].
  rewrite Hy in Hnin. set_solver.
Qed.

(** X20: the blocks added by one run have pairwise different ids, and the
    records they were made from have pairwise different normalized
    questions. *)
Theorem X20_run_blocks_distinct (args : list jsstring) (stamp : jsstring)
    (fs fs' : gmap jsstring json) (st : MergeState) :
  main args stamp fs = Merged fs' st ->
  exists kb base acc,
    newBlocks st
    = base ++ built (buildQaBlockSchema (blocks (detectContainer kb))) 0 acc
    /\ length acc = added st
    /\ NoDup (map (fun b => prop b (idKey (buildQaBlockSchema (blocks (detectContainer kb)))))
                (built (buildQaBlockSchema (blocks (detectContainer kb))) 0 acc))
    /\ NoDup (map (fun x => qkey x.2) acc).
Proof.
  intros Hm.
  destruct (main_merged_inv _ _ _ _ _ Hm)
    as (kbPath & q & qs & kb & keys & recs & _ & _ & _ & _ & _ & Hnb & Hadd & _ & _).
  exists kb, (if str_eqb (mode_of args) (str "replace") then []
              else blocks (detectContainer kb)), (accepted keys recs).
  split; [done|]. split; [done|]. split; [|apply accepted_NoDup].
  apply built_ids, buildQaBlockSchema_candidate.
Qed.

Lemma backup_path_differs (kbPath stamp : jsstring) : kbPath ++ BAK ++ stamp <> kbPath.
Proof.
  intros E. apply (f_equal length) in E. rewrite !length_app in E.
  change (length BAK) with 5 in E. lia.
Qed.

(** X21: a merge that returns has copied the target, as it was, to the
    backup path, has written under the target path a container whose
    blocks are the block list of the run, and has touched no other file;
    the files merged are only read.  With fewer than two arguments other
    than the mode option the tool exits with the usage message, whatever
    the files are. *)
Theorem X21_merge_files (args : list jsstring) (stamp : jsstring)
    (fs : gmap jsstring json) :
  (forall fs' st, main args stamp fs = Merged fs' st ->
     exists kbPath q qs kb out,
       positional args = kbPath :: q :: qs
       /\ fs !! kbPath = Some kb
       /\ fs' !! (kbPath ++ BAK ++ stamp) = Some kb
       /\ fs' !! kbPath = Some out
       /\ blocks (detectContainer out) = newBlocks st
       /\ forall p, p <> kbPath -> p <> kbPath ++ BAK ++ stamp -> fs' !! p = fs !! p)
  /\ (main args stamp fs = UsageExit <-> length (positional args) < 2).
Proof.
  split.
  - intros fs' st Hm.
    destruct (main_merged_inv _ _ _ _ _ Hm)
      as (kbPath & q & qs & kb & keys & recs & Hpos & Hkb & _ & _ & _ & _ & _ & _ & ->).
    exists kbPath, q, qs, kb, (setBlocks (detectContainer kb) (newBlocks st)).
    split; [done|]. split; [done|]. split; [|split; [|split]].
    + rewrite lookup_insert_ne by (intros E; symmetry in E; by apply backup_path_differs in E).
      apply lookup_insert_eq.
    + apply lookup_insert_eq.
    + apply detect_set_blocks.
    + intros p H1 H2. change BAK with (str ".bak_") in H2.
      by rewrite !lookup_insert_ne by congruence.
  - unfold main, positional.
    destruct (List.filter _ args) as [|kbPath [|q qs]]; cbn [length];
      [split; [intros _; lia|done]..|].
    split; [|lia]. destruct (fs !! kbPath); [|done].
    destruct (existing_keys _ _ _); [|done]. by destruct (merge_files _ _ _ _).
Qed.
End RunBlocks.

Lemma X20_witness :
  exists fs' st kb base acc,
    main merge_args (str "20260101_000000") merge_fs = Merged fs' st
    /\ newBlocks st = base ++ built (buildQaBlockSchema (blocks (detectContainer kb))) 0 acc
    /\ NoDup (map (fun x => qkey x.2) acc).
Proof.
  destruct (main merge_args (str "20260101_000000") merge_fs) as [| |fs' st] eqn:Hm;
    [vm_compute in Hm; discriminate..|].
  destruct (@X20_run_blocks_distinct ascii_host merge_args (str "20260101_000000")
              merge_fs fs' st Hm) as (kb & base & acc & H1 & _ & _ & H2).
  by exists fs', st, kb, base, acc.
Defined.

Lemma X21_witness :
  exists fs' st,
    main merge_args (str "20260101_000000") merge_fs = Merged fs' st
    /\ fs' !! (str "kb.json.bak_20260101_000000") = Some (JArr []).
Proof.
  destruct (main merge_args (str "20260101_000000") merge_fs) as [| |fs' st] eqn:Hm;
    [vm_compute in Hm; discriminate..|].
  destruct (proj1 (@X21_merge_files ascii_host merge_args (str "20260101_000000") merge_fs)
              fs' st Hm) as (kbPath & q & qs & kb & out & Hpos & Hkb & Hbak & _).
  exists fs', st. split; [reflexivity|].
  injection Hpos as <- _ _. vm_compute in Hkb. injection Hkb as <-. exact Hbak.
Defined.

Lemma X15_witness :
  @setBlocks ascii_host (detectContainer (JArr [stored_block])) [] = JArr [].
Proof.
  apply (proj1 (proj2 (proj2 (@X15_container_round_trip ascii_host (JArr [stored_block]) [])))
           [stored_block]).
  reflexivity.
Defined.

(** *** The mode option *)

Section Mode.
Context {host : Host}.

Lemma positional_idem args : positional (positional args) = positional args.
Proof.
  unfold positional. induction args as [|a args IH]; [done|]. simpl.
  destruct (starts_with MODE_PREFIX a) eqn:E; simpl; [done|]. by rewrite E, IH.
Qed.

Lemma mode_of_positional args : mode_of (positional args) = str "append".
Proof.
  unfold mode_of, positional.
  assert (List.find (starts_with MODE_PREFIX)
            (List.filter (fun a => negb (starts_with MODE_PREFIX a)) args) = None) as ->; [|done].
  induction args as [|a args IH]; [done|]. simpl.
  destruct (starts_with MODE_PREFIX a) eqn:E; simpl; [done|]. by rewrite E.
Qed.

(** X25: a mode other than [replace], a misspelt one included, is the
    append mode: the run does what it does with the mode option left
    out. *)
Theorem X25_unknown_mode (args : list jsstring) (stamp : jsstring)
    (fs : gmap jsstring json) :
  mode_of args <> str "replace" ->
  main args stamp fs = main (positional args) stamp fs.
Proof.
  intros Hm. apply str_eqb_neq in Hm. unfold main. cbv zeta.
  fold (positional args). fold (positional (positional args)).
  rewrite positional_idem, mode_of_positional, Hm.
  by change (str_eqb (str "append") (str "replace")) with false.
Qed.
End Mode.

Lemma X25_witness :
  main (str "--mode=Replace" :: merge_args) (str "20260101_000000") remerge_fs
  = main merge_args (str "20260101_000000") remerge_fs.
Proof.
  apply (@X25_unknown_mode ascii_host (str "--mode=Replace" :: merge_args)
           (str "20260101_000000") remerge_fs).
  vm_compute. discriminate.
Defined.

(** *** From the builder to the retriever *)

Section BuildThenRetrieve.
Context {host : Host} {env : Env} {engine : Engine}.

Lemma embed_all_length fuel : forall texts embs,
  one_vector_each ->
  length texts <= fuel ->
  embed_all fuel texts = Some embs ->
  length embs = length texts.
Proof.
  induction fuel as [|f IH]; intros texts embs Hp Hlen; simpl.
  - intros [= <-]. destruct texts; [done|simpl in Hlen; lia].
  - destruct texts as [|t texts]; [by intros [= <-]|].
    destruct (embedBatch (firstn 64 (t :: texts))) as [e|] eqn:Ee; [|done].
    destruct (embed_all f (skipn 64 (t :: texts))) as [r|] eqn:Er; [|done].
    intros [= <-]. apply Hp in Ee. apply IH in Er; [|done|].
    + rewrite length_app, Ee, Er, length_firstn, length_skipn. lia.
    + rewrite length_skipn. simpl in *. lia.
Qed.

Lemma attach_embeddings_some cs : forall i embs,
  i + length cs <= length embs ->
  Forall (fun c => c_embedding c <> None) (attach_embeddings cs i embs).
Proof.
  induction cs as [|c cs IH]; intros i embs Hlen; [constructor|].
  simpl in *. constructor.
  - cbn [c_embedding]. apply nth_error_Some. lia.
  - apply IH. lia.
Qed.

Lemma score_all_some a cs :
  Forall (fun c => c_embedding c <> None) cs ->
  exists scored, score_all (Some a) cs = Some scored.
Proof.
  induction 1 as [|c cs Hc _ [scored IH]]; [by exists []|].
  simpl. destruct (c_embedding c) as [b|]; [|done]. rewrite IH. by eexists.
Qed.

(** X22: when the provider answers every batch with one vector for each
    text, every chunk of the index a build writes has its embedding, and a
    retrieval over that index returns for every query the provider
    embeds: scoring never meets a missing vector. *)
Theorem X22_build_then_retrieve (t_created t_backup : jsstring) (fs fs' : FS) (m : Meta) :
  one_vector_each ->
  buildKB t_created t_backup fs = (fs', inr m) ->
  exists kb,
    files fs' !! KB_PATH = Some (KbJson kb)
    /\ Forall (fun c => c_embedding c <> None) (chunks kb)
    /\ forall query, embedBatch [query] <> None -> exists res, retrieve kb query = Some res.
Proof.
  intros Hp Hb.
  destruct (buildKB_success _ _ _ _ _ Hb) as (docs & cs & embs & _ & _ & _ & He & _ & ->).
  eexists. split; [apply lookup_insert_eq|]. cbn [chunks].
  assert (Forall (fun c => c_embedding c <> None) (attach_embeddings cs 0 embs)) as Hall.
  { apply attach_embeddings_some.
    rewrite (embed_all_length _ _ _ Hp ltac:(by rewrite length_map) He), length_map. lia. }
  split; [done|]. intros query Hq. unfold retrieve, ranked. cbn [chunks].
  destruct (embedBatch [query]) as [resp|] eqn:Er; [|done].
  pose proof (Hp _ _ Er) as Hlen. destruct resp as [|a resp]; [done|]. cbn [hd_error].
  destruct (score_all_some a _ Hall) as [scored ->]. by eexists.
Qed.
End BuildThenRetrieve.

Lemma X22_witness :
  exists kb res,
    files (@buildKB ascii_host default_env (str "t1") (str "t2") long_note_fs).1 !! KB_PATH
    = Some (KbJson kb)
    /\ @retrieve default_env v8_engine kb (str "pregunta") = Some res.
Proof.
  destruct (@buildKB ascii_host default_env (str "t1") (str "t2") long_note_fs)
    as [fs' [e|m]] eqn:Hb; [vm_compute in Hb; discriminate|].
  destruct (@X22_build_then_retrieve ascii_host default_env v8_engine (str "t1") (str "t2")
              long_note_fs fs' m) as (kb & H1 & _ & H2).
  - intros texts vs [= <-]. apply length_map.
  - exact Hb.
  - destruct (H2 (str "pregunta")) as [res Hres]; [discriminate|].
    by exists kb, res.
Defined.

(** ** Answering, beyond the specification *)

Lemma occurs_in_refl t : occurs_in t t.
Proof. exists [], []. by rewrite app_nil_r. Qed.

Lemma occurs_in_app_l p a t : occurs_in p t -> occurs_in p (a ++ t).
Proof. intros (x & y & ->). exists (a ++ x), y. by rewrite <- app_assoc. Qed.

Lemma occurs_in_app_r p t b : occurs_in p t -> occurs_in p (t ++ b).
Proof. intros (x & y & ->). exists x, (y ++ b). by rewrite <- !app_assoc. Qed.

Lemma occurs_in_trans p q t : occurs_in p q -> occurs_in q t -> occurs_in p t.
Proof.
  intros (x & y & ->) (x' & y' & ->). exists (x' ++ x), (y ++ y').
  by rewrite <- !app_assoc.
Qed.

Lemma occurs_in_join sep l x : In x l -> occurs_in x (join sep l).
Proof.
  induction l as [|y l IH]; [done|]. intros [<-|Hin].
  - destruct l; [apply occurs_in_refl|]. rewrite join_cons by done.
    apply occurs_in_app_r, occurs_in_refl.
  - destruct l as [|z l]; [done|]. rewrite join_cons by done.
    apply occurs_in_app_l, occurs_in_app_l. by apply IH.
Qed.

Section Answer.
Context {env : Env} {chat : Chat}.

Lemma user_prompt_question question contexts :
  occurs_in question (user_prompt question contexts).
Proof.
  unfold user_prompt. cbv zeta.
  do 6 apply occurs_in_app_l. apply occurs_in_app_r, occurs_in_refl.
Qed.

Lemma user_prompt_context question contexts c :
  In c contexts ->
  occurs_in (context_block c) (user_prompt question contexts).
Proof.
  intros Hin. unfold user_prompt. cbv zeta.
  do 2 apply occurs_in_app_l. apply occurs_in_app_r.
  assert (occurs_in (context_block c) (join [10; 10]%N (map context_block contexts))) as Ho
    by (by apply occurs_in_join, in_map).
  destruct (join [10; 10]%N (map context_block contexts)) eqn:E; [|done].
  destruct Ho as (a & b & Ho). destruct a; discriminate.
Qed.

(** X23: an answer is never empty: when the provider responds,
    [answerWithContexts] returns a text that is not empty and has no white
    space at either end, the fixed apology taking the place of a missing
    or blank output.  The message sent to the provider holds the question
    as it was asked and, for each context, its citation header followed
    by its text; without contexts it holds the placeholder. *)
Theorem X23_answer_never_empty (question : jsstring) (contexts : list Scored) :
  (forall r, answerWithContexts question contexts = Some r ->
     r <> [] /\ trim r = r
     /\ exists output,
          respond CHAT_MODEL SYSTEM_PROMPT (user_prompt question contexts) = Some output
          /\ (trim (or_empty output) = [] -> r = NO_ANSWER)
          /\ (trim (or_empty output) <> [] -> r = trim (or_empty output)))
  /\ occurs_in question (user_prompt question contexts)
  /\ (forall c, In c contexts ->
        occurs_in (context_block c) (user_prompt question contexts)
        /\ occurs_in (s_text c) (user_prompt question contexts))
  /\ (contexts = [] -> occurs_in NO_CONTEXT (user_prompt question contexts)).
Proof.
  split; [|split; [apply user_prompt_question|split]].
  - intros r. unfold answerWithContexts.
    destruct (respond _ _ _) as [output|]; [|done]. cbv zeta.
    destruct (trim (or_empty output)) as [|c t] eqn:E; intros [= <-].
    + split; [discriminate|]. split; [vm_compute; reflexivity|]. exists output.
      split; [done|]. split; [done|]. intros H. by destruct H.
    + split; [done|]. split; [rewrite <- E; apply trim_idem|].
      exists output. split; [done|]. split; [|done]. rewrite E. discriminate.
  - intros c Hin. split; [by apply user_prompt_context|].
    eapply occurs_in_trans; [|by apply user_prompt_context].
    unfold context_block. do 6 apply occurs_in_app_l. apply occurs_in_refl.
  - intros ->. unfold user_prompt. cbn [map join is_empty].
    do 2 apply occurs_in_app_l. apply occurs_in_app_r, occurs_in_refl.
Qed.
End Answer.

Lemma X23_witness :
  exists r, @answerWithContexts default_env echo_chat (str "hola") [] = Some r /\ r <> [].
Proof.
  destruct (@answerWithContexts default_env echo_chat (str "hola") []) as [r|] eqn:E;
    [|vm_compute in E; discriminate].
  exists r. split; [reflexivity|].
  exact (proj1 (proj1 (@X23_answer_never_empty default_env echo_chat (str "hola") []) r E)).
Defined.

(** *** Snippets *)

Lemma collapse_ws_length b s : length (collapse_ws b s) <= length s.
Proof.
  revert b. induction s as [|c r IH]; intros b; [done|]. simpl.
  destruct (is_ws c); [destruct b|]; simpl; pose proof (IH true); pose proof (IH false); lia.
Qed.

Lemma collapse_ws_spaces b s :
  Forall (fun c => is_ws c = true -> c = 32%N) (collapse_ws b s).
Proof.
  revert b. induction s as [|c r IH]; intros b; [constructor|]. simpl.
  destruct (is_ws c) eqn:E; [destruct b|]; try apply IH.
  - constructor; [done|apply IH].
  - constructor; [congruence|apply IH].
Qed.

Lemma collapse_ws_true_head s : forall c r, collapse_ws true s = c :: r -> c <> 32%N.
Proof.
  induction s as [|x s IH]; intros c r; [done|]. simpl.
  destruct (is_ws x) eqn:E; [apply IH|]. intros [= <- _]. by intros ->.
Qed.

Lemma collapse_ws_single b s a r1 r2 :
  collapse_ws b s = r1 ++ 32%N :: a :: r2 -> a <> 32%N.
Proof.
  revert b r1. induction s as [|x s IH]; intros b r1; simpl.
  - by destruct r1.
  - destruct (is_ws x) eqn:E; [destruct b|].
    + apply IH.
    + destruct r1 as [|y r1]; [|intros [= _ H]; by apply IH in H].
      intros [= H]. by apply collapse_ws_true_head in H.
    + destruct r1 as [|y r1]; [|intros [= _ H]; by apply IH in H].
      intros [= -> _]. done.
Qed.

(** X24: the snippet of a source has at most 241 code units; a text of
    at most 240 code units is shown whole, each run of white space turned
    into one space, and a longer text always ends with the ellipsis,
    whether or not collapsing the white space left anything to cut.
    Before the ellipsis the only white space is the single space, never
    twice in a row. *)
Theorem X24_snippet (text : jsstring) :
  length (snippet text) <= 241
  /\ (length text <= 240 -> snippet text = collapse_ws false text)
  /\ (240 < length text ->
      snippet text = firstn 240 (collapse_ws false text) ++ ELLIPSIS)
  /\ Forall (fun c => is_ws c = true -> c = 32%N) (firstn 240 (collapse_ws false text))
  /\ (forall r1 a r2, firstn 240 (collapse_ws false text) = r1 ++ 32%N :: a :: r2 ->
        a <> 32%N).
Proof.
  unfold snippet. split; [|split; [|split; [|split]]].
  - rewrite length_app, length_firstn. unfold ELLIPSIS.
    destruct (240 <? length text); cbn [length]; lia.
  - intros Hl. destruct (Nat.ltb_spec 240 (length text)) as [|_]; [lia|].
    rewrite app_nil_r. apply firstn_all2.
    pose proof (collapse_ws_length false text). lia.
  - intros Hl. by destruct (Nat.ltb_spec 240 (length text)) as [_|]; [|lia].
  - apply Forall_take, collapse_ws_spaces.
  - intros r1 a r2 E.
    pose proof (firstn_skipn 240 (collapse_ws false text)) as Hs. rewrite E in Hs.
    rewrite <- app_assoc in Hs. simpl in Hs. symmetry in Hs.
    by apply collapse_ws_single in Hs.
Qed.

Lemma X24_witness :
  snippet (str "uno" ++ [10; 10; 9]%N ++ str "dos ") = str "uno dos ".
Proof.
  rewrite (proj1 (proj2 (X24_snippet (str "uno" ++ [10; 10; 9]%N ++ str "dos ")))).
  - vm_compute. reflexivity.
  - vm_compute. lia.
Defined.
